(** * kindle-vibes: the EPUB to PDF text-layout core of [epub_converter.py]

    A shallow embedding of the tokenizer, the CJK-aware line wrapper and the
    two drawing helpers of [src/epub_converter.py], with the properties the
    specification states about them.

    Conventions.
    - A Python [str] is a list of Unicode code points ([char := N]).
    - Widths, coordinates and sizes are Python floats; they are modelled as
      exact rationals ([Q]), every comparison becoming the boolean
      comparison of [Q]. Where the rounding of the floats decides what is
      true, the code is modelled in binary64 itself: the image helper, in
      the module [Float64].
    - [pdfmetrics.stringWidth] belongs to reportlab, not to the repository:
      it is a parameter ([stringWidth]) of every definition that measures.
    - The reportlab canvas is the list of the commands sent to it, in the
      order of the calls. *)

From Stdlib Require Import List Bool NArith ZArith QArith Qminmax Lia Lqa.
From Stdlib Require PrimFloat FloatOps SpecFloat.
Import ListNotations.

Set Implicit Arguments.

(** ** Python strings *)

Module PyStr.

Local Open Scope N_scope.

Definition char := N.
Abbreviation str := (list char).

Definition SPACE : char := 0x20%N.
Definition NBSP : char := 0xA0%N.
Definition TAB : char := 0x09%N.
Definition LF : char := 0x0A%N.
Definition CR : char := 0x0D%N.

Definition between (lo hi c : char) : bool := ((lo <=? c) && (c <=? hi))%N.

(** [ch.isspace()] on one character: CPython's [_PyUnicode_IsWhitespace]. *)
Definition isspace (c : char) : bool :=
  between 0x09 0x0D c || between 0x1C 0x1F c || (c =? 0x20)%N
  || (c =? 0x85)%N || (c =? 0xA0)%N || (c =? 0x1680)%N
  || between 0x2000 0x200A c || (c =? 0x2028)%N || (c =? 0x2029)%N
  || (c =? 0x202F)%N || (c =? 0x205F)%N || (c =? 0x3000)%N.

(** The line boundaries of [str.splitlines]: CPython's
    [_PyUnicode_IsLinebreak]. *)
Definition is_linebreak (c : char) : bool :=
  between 0x0A 0x0D c || between 0x1C 0x1E c || (c =? 0x85)%N
  || (c =? 0x2028)%N || (c =? 0x2029)%N.

(** [s.splitlines()]: the lines of [s] without their terminators; a
    CR LF pair is one terminator, and a final terminator opens no new
    line. *)
Fixpoint splitlines (s : str) : list str :=
  match s with
  | [] => []
  | c :: s' =>
      if is_linebreak c then
        [] :: (if (c =? CR)%N
               then match s' with
                    | d :: s'' => if (d =? LF)%N then splitlines s''
                                  else splitlines s'
                    | [] => splitlines s'
                    end
               else splitlines s')
      else match splitlines s' with
           | [] => [[c]]
           | l :: ls => (c :: l) :: ls
           end
  end.

(** [bool(s)]: a string is true when it is not empty. *)
Definition nonempty (s : str) : bool :=
  match s with [] => false | _ :: _ => true end.

(** [s.rstrip()]: [s] without its trailing whitespace. *)
Fixpoint rstrip (s : str) : str :=
  match s with
  | [] => []
  | c :: s' =>
      match rstrip s' with
      | [] => if isspace c then [] else [c]
      | r => c :: r
      end
  end.

(** [s.strip()] is the empty string: every character of [s] is
    whitespace. *)
Definition strip_is_empty (s : str) : bool := forallb isspace s.

(** [s.endswith(" ")]. *)
Fixpoint endswith_space (s : str) : bool :=
  match s with
  | [] => false
  | [c] => (c =? SPACE)%N
  | _ :: s' => endswith_space s'
  end.

Definition eqb (a b : str) : bool :=
  if list_eq_dec N.eq_dec a b then true else false.

(** The characters that are not whitespace, in order. *)
Definition visible (s : str) : str := filter (fun c => negb (isspace c)) s.

End PyStr.
Import PyStr.

(** ** Helpers for Japanese/CJK wrapping *)

(** [is_cjk_char] (epub_converter.py, lines 37-46). *)
Definition is_cjk_char (ch : char) : bool :=
  (between 0x4E00 0x9FFF ch ||
   between 0x3400 0x4DBF ch ||
   between 0x3040 0x309F ch ||
   between 0x30A0 0x30FF ch ||
   between 0xFF00 0xFFEF ch ||
   between 0x3000 0x303F ch)%N.

(** The three loop variables of [tokenize_for_wrap]: [tokens], [buf] and
    [last_cjk] ([None], or the class of the run in [buf]). *)
Definition tok_state : Type := (list str * str * option bool)%type.

(** One iteration of the loop [for ch in text] (lines 50-68). *)
Definition tokenize_step (st : tok_state) (ch0 : char) : tok_state :=
  let '(tokens, buf, last_cjk) := st in
  let ch := if (ch0 =? NBSP)%N then SPACE else ch0 in
  if isspace ch then
    let tokens := if nonempty buf then tokens ++ [buf] else tokens in
    (tokens ++ [[ch]], [], None)
  else
    let cjk := is_cjk_char ch in
    match last_cjk with
    | None => (tokens, [ch], Some cjk)
    | Some last =>
        if negb (Bool.eqb cjk last) then (tokens ++ [buf], [ch], Some cjk)
        else if cjk then (tokens ++ [buf], [ch], last_cjk)
        else (tokens, buf ++ [ch], last_cjk)
    end.

(** [tokenize_for_wrap] (lines 48-71): the loop from the empty state,
    then the flush of a non-empty [buf]. *)
Definition tokenize_for_wrap (text : str) : list str :=
  let '(tokens, buf, _) := fold_left tokenize_step text ([], [], None) in
  if nonempty buf then tokens ++ [buf] else tokens.

(** ** The line wrapper *)

(** The float test [a < b]. *)
Definition Qlt_bool (a b : Q) : bool := negb (Qle_bool b a).

Section Wrapper.

(** Font names are opaque to the layout code. *)
Variable font : Type.

(** [pdfmetrics.stringWidth(s, font_name, font_size)], from reportlab. *)
Variable stringWidth : str -> font -> Q -> Q.

(** [str_width] (lines 73-74). *)
Definition str_width (s : str) (font_name : font) (font_size : Q) : Q :=
  stringWidth s font_name font_size.

Section Wrap.

Variables (max_width : Q) (font_name : font) (font_size : Q).

(** The test [str_width(s, font_name, font_size) <= max_width]. *)
Definition fits (s : str) : bool :=
  Qle_bool (str_width s font_name font_size) max_width.

(** One iteration of the loop [for ch in add] (lines 96-101 and
    111-116), on [lines] and [piece]. *)
Definition split_step (st : list str * str) (ch : char)
  : list str * str :=
  let '(lines, piece) := st in
  if fits (piece ++ [ch]) then (lines, piece ++ [ch])
  else ((if nonempty piece then lines ++ [piece] else lines), [ch]).

(** The character-by-character packing of an over-wide token: the
    loop written twice in the source, [piece] starting empty; the
    caller sets [cur] to the final [piece]. *)
Definition split_token (lines : list str) (add : str)
  : list str * str :=
  fold_left split_step add (lines, []).

(** One iteration of the loop [for tk in tokens] (lines 83-119), on
    [lines] and [cur]. The source's second test of [add],
    [str_width(add) > max_width], is the negation of [fits add]. *)
Definition wrap_token (st : list str * str) (tk : str)
  : list str * str :=
  let '(lines, cur) := st in
  if PyStr.eqb tk [SPACE] then
    if nonempty cur && negb (endswith_space cur) then
      let trial := cur ++ [SPACE] in
      if fits trial then (lines, trial) else (lines, cur)
    else (lines, cur)
  else
    let add := tk in
    if PyStr.eqb cur [] then
      if fits add then (lines, add)
      else split_token lines add
    else
      let trial := cur ++ add in
      if fits trial then (lines, trial)
      else
        let lines := lines ++ [rstrip cur] in
        if negb (fits add) then split_token lines add
        else (lines, add).

(** One iteration of the loop [for raw in ...] (lines 78-120), on
    [lines]. *)
Definition wrap_line (lines : list str) (raw : str) : list str :=
  if strip_is_empty raw && negb (PyStr.eqb raw []) then lines ++ [[]]
  else
    let tokens := tokenize_for_wrap raw in
    let '(lines, cur) := fold_left wrap_token tokens (lines, []) in
    lines ++ [rstrip cur].

End Wrap.

(** [wrap_cjk_aware] (lines 76-121), over the lines of
    [text.splitlines()], or over one empty line when there is none. *)
Definition wrap_cjk_aware (text : str) (max_width : Q) (font_name : font)
    (font_size : Q) : list str :=
  fold_left (wrap_line max_width font_name font_size)
    (match splitlines text with [] => [[]] | ls => ls end) [].

(** ** PDF drawing helpers *)

(** The module constants the helpers read: [PAGE_SIZE = (page_w, page_h)],
    [MARGIN], [LINE_SPACING] and [IMAGE_MAX_HEIGHT_RATIO]. *)
Record layout : Type := {
  page_w : Q;
  page_h : Q;
  MARGIN : Q;
  LINE_SPACING : Q;
  IMAGE_MAX_HEIGHT_RATIO : Q
}.

(** The calls the helpers make on the canvas [c]. *)
Inductive command : Type :=
| SetFont (font_name : font) (font_size : Q)
| ShowPage
| DrawString (x y : Q) (line : str)
| DrawImage (x y width height : Q).

Definition canvas : Type := list command.

(** What the helpers read of a PIL image: [pil_img.size]. *)
Record image : Type := { img_w : Z; img_h : Z }.

Section Draw.

Variable cfg : layout.

(** One iteration of the loop [for line in lines] of
    [draw_paragraph] (lines 129-135), on the canvas and [y]. *)
Definition draw_line (x indent_left : Q) (font_name : font)
    (font_size leading : Q) (st : canvas * Q) (line : str)
  : canvas * Q :=
  let '(c, y) := st in
  let '(c, y) :=
    if Qlt_bool (y - leading) (MARGIN cfg)
    then (c ++ [ShowPage; SetFont font_name font_size],
          page_h cfg - MARGIN cfg)
    else (c, y) in
  (c ++ [DrawString (x + indent_left) (y - leading) line], y - leading).

(** [draw_paragraph] (lines 124-136); it returns the canvas with the
    offset [y]. *)
Definition draw_paragraph (c : canvas) (text : str) (x y right_x : Q)
    (font_name : font) (font_size : Q) (indent_left : Q)
  : canvas * Q :=
  let leading := font_size * LINE_SPACING cfg in
  let max_width := right_x - (x + indent_left) in
  let lines := wrap_cjk_aware text max_width font_name font_size in
  let c := c ++ [SetFont font_name font_size] in
  fold_left (draw_line x indent_left font_name font_size leading)
    lines (c, y).

(** The scale factor of [draw_image]: Python's [min(a, b)] is [a]
    unless [b < a]. *)
Definition image_scale (pil_img : image) (max_w : Q) : Q :=
  Qmin (max_w / inject_Z (img_w pil_img))
       ((page_h cfg * IMAGE_MAX_HEIGHT_RATIO cfg)
        / inject_Z (img_h pil_img)).

(** [draw_image] (lines 138-155); the PNG encoding of the pixels is
    left out. [None] is the [ZeroDivisionError] of a division by a zero
    image dimension, raised before the canvas is touched. The
    arithmetic is exact here, as for the cursor; the module [Float64]
    models the same lines in binary64, with the failure of the
    encoding, for what depends on the rounding. *)
Definition draw_image (c : canvas) (pil_img : image) (x y right_x : Q)
    (font_name : font) : option (canvas * Q) :=
  let max_w := right_x - x in
  if (img_w pil_img =? 0)%Z || (img_h pil_img =? 0)%Z then None
  else
    let scale := image_scale pil_img max_w in
    let draw_w := inject_Z (img_w pil_img) * scale in
    let draw_h := inject_Z (img_h pil_img) * scale in
    let '(c, y) :=
      if Qlt_bool (y - draw_h) (MARGIN cfg)
      then (c ++ [ShowPage], page_h cfg - MARGIN cfg)
      else (c, y) in
    Some (c ++ [DrawImage x (y - draw_h) draw_w draw_h], y - draw_h).

End Draw.

End Wrapper.

Arguments ShowPage {font}.
Arguments DrawString {font} x y line.
Arguments DrawImage {font} x y width height.

(** The constants of the source: a borderless A4 page, in points
    ([A4 = (210*mm, 297*mm)] with [mm = 72/25.4] in reportlab). *)
Definition PAGE_SIZE : Q * Q := (210 * (360 # 127), 297 * (360 # 127)).

Definition source_layout : layout :=
  {| page_w := fst PAGE_SIZE;
     page_h := snd PAGE_SIZE;
     MARGIN := 0;
     LINE_SPACING := 135 # 100;
     IMAGE_MAX_HEIGHT_RATIO := 98 # 100 |}.

(** * Vocabulary of the properties *)

Unset Implicit Arguments.

(** The NBSP normalisation of the tokenizer, on a whole string. *)
Definition nbsp_to_space (s : str) : str :=
  map (fun c => if (c =? NBSP)%N then SPACE else c) s.

(** What the loop of [tokenize_for_wrap] keeps true: [buf] is empty
    whenever no run is open. *)
Definition tok_inv (st : tok_state) : Prop :=
  let '(_, buf, last_cjk) := st in last_cjk = None -> buf = [].

(** The text scanned so far: the tokens followed by the open run. *)
Definition tok_text (st : tok_state) : str :=
  let '(tokens, buf, _) := st in concat tokens ++ buf.

(** A token is well-formed when an ideographic character in it is the
    whole token. *)
Definition cjk_alone (tk : str) : Prop :=
  existsb is_cjk_char tk = true -> length tk = 1%nat.

(** What the loop of [tokenize_for_wrap] keeps true of the runs: the
    tokens are well-formed, and [buf] is empty, one ideographic character
    or a run without ideographic characters, as [last_cjk] says. *)
Definition tok_runs (st : tok_state) : Prop :=
  let '(tokens, buf, last_cjk) := st in
  Forall cjk_alone tokens /\
  match last_cjk with
  | None => buf = []
  | Some true => length buf = 1%nat
  | Some false => existsb is_cjk_char buf = false
  end.

(** The visible characters held by the finished lines and the open
    line of a loop state. *)
Definition held (st : list str * str) : str :=
  visible (concat (fst st) ++ snd st).

(** The width of a string in a font whose glyph [c] advances by
    [glyphs c] at size 1: the sum of the advances, scaled by the size
    (what reportlab's fonts compute). *)
Definition advance_sum (glyphs : char -> Q) (s : str) : Q :=
  fold_right (fun c acc => glyphs c + acc) 0 s.

Definition font_stringWidth (s : str) (glyphs : char -> Q) (font_size : Q) : Q :=
  advance_sum glyphs s * font_size.

(** A sample font: ideographic glyphs one em wide, the others half an
    em. *)
Definition duospaced (c : char) : Q := if is_cjk_char c then 1 else 1 # 2.

(** The widths of a font at a size grow with the text: a string is never
    narrower than a prefix or a suffix of it, and the empty string has no
    width. Sums of non-negative glyph advances are such widths. *)
Definition widths_grow {font : Type} (stringWidth : str -> font -> Q -> Q)
    (font_name : font) (font_size : Q) : Prop :=
  (forall a b : str,
      stringWidth a font_name font_size
      <= stringWidth (a ++ b) font_name font_size)
  /\ (forall a b : str,
        stringWidth b font_name font_size
        <= stringWidth (a ++ b) font_name font_size)
  /\ stringWidth [] font_name font_size <= 0.

(** The line [L] obeys the bound: it fits, or it is one character that
    does not fit on its own. *)
Definition width_bound {font : Type} (stringWidth : str -> font -> Q -> Q)
    (max_width : Q) (font_name : font) (font_size : Q) (L : str) : Prop :=
  stringWidth L font_name font_size <= max_width
  \/ (length L = 1%nat /\ max_width < stringWidth L font_name font_size).

(** The bound, or the empty line under a negative maximum width. *)
Definition width_bound_or_blank {font : Type}
    (stringWidth : str -> font -> Q -> Q)
    (max_width : Q) (font_name : font) (font_size : Q) (L : str) : Prop :=
  width_bound stringWidth max_width font_name font_size L
  \/ (L = [] /\ max_width < 0).

(** The scenario line ABC, U+65E5, U+672C, U+8A9E, DEF (the word
    "nihongo" between two Latin runs). *)
Definition t_ABC : str := [65; 66; 67]%N.
Definition t_DEF : str := [68; 69; 70]%N.
Definition c_ni : char := 0x65E5%N.
Definition c_hon : char := 0x672C%N.
Definition c_go : char := 0x8A9E%N.
Definition t_ABC_nihongo_DEF : str := t_ABC ++ [c_ni; c_hon; c_go] ++ t_DEF.

(** U+3000, the ideographic space, and the run U+65E5 U+672C U+8A9E. *)
Definition IDEOGRAPHIC_SPACE : char := 0x3000%N.
Definition t_nihongo : str := [c_ni; c_hon; c_go].

(** The top edge, where a page break puts the cursor. *)
Definition top (cfg : layout) : Q := page_h cfg - MARGIN cfg.

(** One emission: a paragraph handed to [draw_paragraph] (a line emission
    for each of its wrapped lines) or an image handed to [draw_image]. *)
Inductive emission (font : Type) : Type :=
| Paragraph (text : str) (x right_x : Q) (font_name : font)
    (font_size indent_left : Q)
| Picture (pil_img : image) (x right_x : Q) (font_name : font).

Arguments Paragraph {font} text x right_x font_name font_size indent_left.
Arguments Picture {font} pil_img x right_x font_name.

(** The caller's [y = draw_paragraph(...)] and [y = draw_image(...)]; an
    image whose drawing raises is skipped, as under the caller's
    [try ... except Exception: pass]. *)
Definition emit {font : Type} (stringWidth : str -> font -> Q -> Q)
    (cfg : layout) (st : canvas font * Q) (e : emission font)
  : canvas font * Q :=
  let '(c, y) := st in
  match e with
  | Paragraph text x right_x font_name font_size indent_left =>
      draw_paragraph stringWidth cfg c text x y right_x font_name font_size
        indent_left
  | Picture pil_img x right_x font_name =>
      match draw_image cfg c pil_img x y right_x font_name with
      | Some st' => st'
      | None => (c, y)
      end
  end.

Definition emit_all {font : Type} (stringWidth : str -> font -> Q -> Q)
    (cfg : layout) (y0 : Q) (es : list (emission font)) : canvas font * Q :=
  fold_left (emit stringWidth cfg) es ([], y0).

(** The cursor after the commands [c], started at [y]: a draw command is
    placed at the offset the cursor takes after it. *)
Fixpoint cursor {font : Type} (cfg : layout) (y : Q) (c : canvas font) : Q :=
  match c with
  | [] => y
  | SetFont _ _ :: c' => cursor cfg y c'
  | ShowPage :: c' => cursor cfg (top cfg) c'
  | DrawString _ y' _ :: c' => cursor cfg y' c'
  | DrawImage _ y' _ _ :: c' => cursor cfg y' c'
  end.

(** The commands [c], replayed from the cursor [y], keep the cursor
    rules: every emission leaves the offset within
    [[MARGIN, page_h - MARGIN]] and no higher than before, unless a page
    break came first, which resets it to [page_h - MARGIN]. *)
Fixpoint flow_ok {font : Type} (cfg : layout) (y : Q) (c : canvas font)
  : Prop :=
  match c with
  | [] => True
  | SetFont _ _ :: c' => flow_ok cfg y c'
  | ShowPage :: c' => flow_ok cfg (top cfg) c'
  | DrawString _ y' _ :: c' =>
      (y' <= y /\ MARGIN cfg <= y' /\ y' <= top cfg) /\ flow_ok cfg y' c'
  | DrawImage _ y' _ _ :: c' =>
      (y' <= y /\ MARGIN cfg <= y' /\ y' <= top cfg) /\ flow_ok cfg y' c'
  end.

(** The image cap leaves room for an image between the margins. *)
Definition layout_ok (cfg : layout) : Prop :=
  0 <= page_h cfg * IMAGE_MAX_HEIGHT_RATIO cfg
  /\ page_h cfg * IMAGE_MAX_HEIGHT_RATIO cfg <= top cfg - MARGIN cfg.

(** An emission whose height is not negative and fits on an empty page:
    a leading between 0 and the page's content height; an image of
    non-negative size drawn in a non-negative width. *)
Definition emission_ok {font : Type} (cfg : layout) (e : emission font)
  : Prop :=
  match e with
  | Paragraph _ _ _ _ font_size _ =>
      0 <= font_size * LINE_SPACING cfg
      /\ font_size * LINE_SPACING cfg <= top cfg - MARGIN cfg
  | Picture pil_img x right_x _ =>
      (0 <= img_w pil_img)%Z /\ (0 <= img_h pil_img)%Z /\ x <= right_x
  end.

(** The strings of the draw-text commands, in order. *)
Definition drawn_lines {font : Type} (c : canvas font) : list str :=
  flat_map (fun cmd => match cmd with
                       | DrawString _ _ line => [line]
                       | _ => []
                       end) c.

(** The body font size of the source. *)
Definition DEFAULT_FONT_SIZE : Q := 20.

(** A text block or an image, emitted the way [convert_epub_to_pdf]
    does: at [DEFAULT_FONT_SIZE], from [x_left = MARGIN] to
    [x_right = page_w - MARGIN], with the indent [QUOTE_INDENT = 0]. *)
Definition block_emission {font : Type} (font_name : font)
    (b : str + image) : emission font :=
  match b with
  | inl text =>
      Paragraph text (MARGIN source_layout)
        (page_w source_layout - MARGIN source_layout) font_name
        DEFAULT_FONT_SIZE 0
  | inr pil_img =>
      Picture pil_img (MARGIN source_layout)
        (page_w source_layout - MARGIN source_layout) font_name
  end.

(** The image sizes PIL reports are not negative. *)
Definition block_ok (b : str + image) : Prop :=
  match b with
  | inl _ => True
  | inr pil_img => (0 <= img_w pil_img)%Z /\ (0 <= img_h pil_img)%Z
  end.

(** The image of the scenario of the specification. *)
Definition scenario_image : image := {| img_w := 2000; img_h := 1000 |}.

(** A short document: the scenario line, the scenario image and an empty
    paragraph, across the full width of the source's page. *)
Definition sample_emissions : list (emission (char -> Q)) :=
  [Paragraph t_ABC_nihongo_DEF 0 (page_w source_layout) duospaced 20 0;
   Picture scenario_image 0 (page_w source_layout) duospaced;
   Paragraph [] 0 (page_w source_layout) duospaced 20 0].

Section WidthVocabulary.

Variable font : Type.
Variable stringWidth : str -> font -> Q -> Q.
Variables (max_width : Q) (font_name : font) (font_size : Q).

(** The open line ([cur] or [piece]) fits unless it is at most one
    character. *)
Definition open_ok (cur : str) : Prop :=
  fits stringWidth max_width font_name font_size cur = true
  \/ (length cur <= 1)%nat.

(** What the loops over tokens and over characters keep true of
    [(lines, cur)] and [(lines, piece)]. *)
Definition loop_ok (st : list str * str) : Prop :=
  Forall (width_bound_or_blank stringWidth max_width font_name font_size)
    (fst st)
  /\ open_ok (snd st).

End WidthVocabulary.

Section CursorVocabulary.

Variable font : Type.
Variable cfg : layout.

(** The loop state [(c, y)] is sound for a start at [y0]: the canvas
    keeps the cursor rules, [y] is the cursor it leads to, and [y] is
    not above the top edge. *)
Definition sound (y0 : Q) (st : canvas font * Q) : Prop :=
  flow_ok cfg y0 (fst st) /\ cursor cfg y0 (fst st) = snd st
  /\ snd st <= top cfg.

End CursorVocabulary.

(** * The image helper in binary64 *)

(** CPython's [float] is the IEEE 754 binary64 format, and its [-], [*]
    and [/] round to the nearest float, ties to even: the primitive
    floats of Rocq. The module models [draw_image] (lines 138-155) in
    that arithmetic, with the page constants as reportlab computes
    them, and with the ways the call can raise: before the canvas is
    touched, when a division or a conversion fails (lines 142-144), and
    after the page break, when [pil_img.save] fails (line 151). *)

Set Warnings "-inexact-float".

Module Float64.

Import PrimFloat FloatOps SpecFloat.
Local Open Scope float_scope.

(** [reportlab.lib.units] and [reportlab.lib.pagesizes.A4]. *)
Definition inch : float := 72.
Definition cm : float := inch / 2.54.
Definition mm : float := cm * 0.1.
Definition A4 : float * float := (210 * mm, 297 * mm).

(** The module constants [draw_image] reads. *)
Record layout : Type := {
  page_w : float;
  page_h : float;
  MARGIN : float;
  IMAGE_MAX_HEIGHT_RATIO : float
}.

(** [PAGE_SIZE = A4], [MARGIN = 0 * cm],
    [IMAGE_MAX_HEIGHT_RATIO = 0.98]. *)
Definition source_layout : layout :=
  {| page_w := fst A4;
     page_h := snd A4;
     MARGIN := 0 * cm;
     IMAGE_MAX_HEIGHT_RATIO := 0.98 |}.

(** The commands sent to the canvas, with float coordinates. *)
Inductive command (font : Type) : Type :=
| SetFont (font_name : font) (font_size : float)
| ShowPage
| DrawString (x y : float) (line : str)
| DrawImage (x y width height : float).

Arguments SetFont {font} font_name font_size.
Arguments ShowPage {font}.
Arguments DrawString {font} x y line.
Arguments DrawImage {font} x y width height.

Definition canvas (font : Type) : Type := list (command font).

(** What is read of [pil_img]: [pil_img.size], and whether the
    encoding and the drawing of lines 150-153 return
    ([pil_img.save(buf, format="PNG")] raises for a mode that PNG
    cannot hold, such as CMYK). *)
Record image : Type := {
  img_w : Z;
  img_h : Z;
  png : bool
}.

(** [float(n)], the conversion of an [int] operand of [/] and [*]: the
    float nearest to [n], ties to even; CPython raises [OverflowError]
    where the result here is infinite. *)
Definition float_of_int (n : Z) : float :=
  SF2Prim (binary_normalize prec emax n 0 false).

(** [min(a, b)]: [a], unless [b < a]. *)
Definition py_min (a b : float) : float := if b <? a then b else a.

(** Lines 142-144 raise: [ZeroDivisionError] for a zero dimension,
    [OverflowError] for a dimension beyond the floats. *)
Definition scaler_raises (pil_img : image) : bool :=
  (img_w pil_img =? 0)%Z || (img_h pil_img =? 0)%Z
  || is_infinity (float_of_int (img_w pil_img))
  || is_infinity (float_of_int (img_h pil_img)).

(** The scale factor of line 142. *)
Definition image_scale (cfg : layout) (pil_img : image) (max_w : float)
  : float :=
  py_min (max_w / float_of_int (img_w pil_img))
         ((page_h cfg * IMAGE_MAX_HEIGHT_RATIO cfg)
          / float_of_int (img_h pil_img)).

(** How a call ends: it returns the offset [y], or it raises. *)
Inductive outcome : Type :=
| Returned (y : float)
| Raised.

(** [draw_image] (lines 138-155): the canvas after the call, and how
    the call ends. A call that raises in lines 150-153 has already
    sent [showPage] when the image did not fit under the cursor. *)
Definition draw_image {font : Type} (cfg : layout) (c : canvas font)
    (pil_img : image) (x y right_x : float) (font_name : font)
  : canvas font * outcome :=
  let max_w := right_x - x in
  if scaler_raises pil_img then (c, Raised)
  else
    let scale := image_scale cfg pil_img max_w in
    let draw_w := float_of_int (img_w pil_img) * scale in
    let draw_h := float_of_int (img_h pil_img) * scale in
    let '(c, y) :=
      if y - draw_h <? MARGIN cfg
      then (c ++ [ShowPage], page_h cfg - MARGIN cfg)
      else (c, y) in
    if png pil_img
    then (c ++ [DrawImage x (y - draw_h) draw_w draw_h],
          Returned (y - draw_h))
    else (c, Raised).

(** The rational number a finite float stands for. *)
Definition to_Q (f : float) : Q :=
  match Prim2SF f with
  | S754_finite s m e =>
      (inject_Z (if s then Z.neg m else Z.pos m) * 2 ^ e)%Q
  | _ => 0%Q
  end.

(** The scenario of the specification: an image of 2000 x 1000 that
    PNG can hold, on a page 800 high with the fraction 0.98. *)
Definition scenario_layout : layout :=
  {| page_w := 500;
     page_h := 800;
     MARGIN := 0;
     IMAGE_MAX_HEIGHT_RATIO := 0.98 |}.

Definition scenario_image : image :=
  {| img_w := 2000; img_h := 1000; png := true |}.

(** An image of 640 x 480. *)
Definition vga_image : image := {| img_w := 640; img_h := 480; png := true |}.

End Float64.

(** * The EPUB to PDF core *)

(** [convert_epub_to_pdf] (epub_converter.py, lines 174-253) reads the
    book through ebooklib and BeautifulSoup. The model takes what the
    function reads of them as data: the title metadata, the spine items,
    the resource table, and for every document the texts of its first
    [h1], [h2] and [title] tags and the tags that
    [soup.find_all(["h1", "h2", "h3", "p", "blockquote", "img", "pre"])]
    returns. [c.save()], which writes the file, is left out. *)

Definition H1_SIZE : Q := 20.
Definition QUOTE_INDENT : Q := 0.

(** The names of the tags of the content flow. *)
Inductive tag : Type :=
| Tag_h1 | Tag_h2 | Tag_h3 | Tag_p | Tag_blockquote | Tag_img | Tag_pre.

(** What the content flow reads of a tag [b]: [b.name], the string
    [b.get_text(sep, strip=True)] and [b.get("src")]. *)
Record block : Type := {
  b_name : tag;
  b_text : str;
  b_src : option str
}.

(** What is read of a resource [target]: whether
    [target.get_type() == ITEM_IMAGE], and the size of
    [PILImage.open(...).convert("RGB")], [None] when decoding raises. *)
Record item : Type := {
  is_image : bool;
  pil : option image
}.

(** A spine document: [item.get_name()], the stripped texts of
    [soup.find("h1")], [soup.find("h2")] and [soup.find("title")]
    ([None] for a tag that is not found), and the tags of the content
    flow. *)
Record chapter : Type := {
  ch_name : str;
  ch_h1 : option str;
  ch_h2 : option str;
  ch_title : option str;
  ch_blocks : list block
}.

(** A book: the first [DC] title ([None] when there is none or reading
    it raises), the spine ([None] for an identifier without an item or
    whose item is not a document) and the table [href_map]. *)
Record book : Type := {
  dc_title : option str;
  spine : list (option chapter);
  href_map : str -> option item
}.

(** The loop [for tag in ["h1", "h2", "title"]] (lines 209-213): the
    first text that is found and not empty. *)
Fixpoint first_text (found : list (option str)) : option str :=
  match found with
  | [] => None
  | t :: rest =>
      match t with
      | Some text => if nonempty text then Some text else first_text rest
      | None => first_text rest
      end
  end.

Definition chapter_title (ch : chapter) : option str :=
  first_text [ch_h1 ch; ch_h2 ch; ch_title ch].

Section Convert.

Variable font : Type.
Variable stringWidth : str -> font -> Q -> Q.
Variable cfg : layout.

(** [os.path.normpath(os.path.join(os.path.dirname(name), src))], with
    backslashes turned into slashes: the second key tried in
    [href_map]. *)
Variable normpath_join : str -> str -> str.

(** One iteration of the loop over the wrapped lines of the book title
    (lines 195-199). *)
Definition draw_title_line (x_left : Q) (font_name : font)
    (st : canvas font * Q) (line : str) : canvas font * Q :=
  let '(c, y) := st in
  let '(c, y) :=
    if Qlt_bool (y - 30) (MARGIN cfg)
    then (c ++ [ShowPage; SetFont font_name 26], page_h cfg - MARGIN cfg)
    else (c, y) in
  (c ++ [DrawString x_left (y - 30) line], y - 38).

(** The title page (lines 193-200). *)
Definition draw_title (x_left x_right : Q) (font_name : font)
    (st : canvas font * Q) (title : option str) : canvas font * Q :=
  let '(c, y) := st in
  match title with
  | Some text =>
      if nonempty text then
        let c := c ++ [SetFont font_name 26] in
        let '(c, y) :=
          fold_left (draw_title_line x_left font_name)
            (wrap_cjk_aware stringWidth text (x_right - x_left) font_name 26)
            (c, y) in
        (c, y - 12)
      else (c, y)
  | None => (c, y)
  end.

(** One iteration of the loop over the wrapped lines of a chapter title
    (lines 217-222). *)
Definition draw_chapter_title_line (x_left : Q) (font_name : font)
    (st : canvas font * Q) (line : str) : canvas font * Q :=
  let '(c, y) := st in
  let '(c, y) :=
    if Qlt_bool (y - (H1_SIZE + 6)) (MARGIN cfg)
    then (c ++ [ShowPage; SetFont font_name H1_SIZE],
          page_h cfg - MARGIN cfg)
    else (c, y) in
  (c ++ [DrawString x_left (y - (H1_SIZE + 6)) line], y - (H1_SIZE + 10)).

(** The chapter title (lines 215-223). *)
Definition draw_chapter_title (x_left x_right : Q) (font_name : font)
    (st : canvas font * Q) (title : option str) : canvas font * Q :=
  let '(c, y) := st in
  match title with
  | Some text =>
      let c := c ++ [SetFont font_name H1_SIZE] in
      let '(c, y) :=
        fold_left (draw_chapter_title_line x_left font_name)
          (wrap_cjk_aware stringWidth text (x_right - x_left) font_name
             H1_SIZE)
          (c, y) in
      (c, y - 4)
  | None => (c, y)
  end.

(** [href_map.get(src) or href_map.get(...)] (lines 237-239); an item is
    a true value. *)
Definition find_target (table : str -> option item) (name src : str)
  : option item :=
  match table src with
  | Some target => Some target
  | None => table (normpath_join name src)
  end.

(** One iteration of the loop [for b in blocks] (lines 227-246). An
    [h1], [h2] or [h3] tag meets no branch; an image that fails to
    resolve, to decode or to draw is passed over. *)
Definition draw_block (table : str -> option item) (name : str)
    (x_left x_right : Q) (font_name : font) (st : canvas font * Q)
    (b : block) : canvas font * Q :=
  let '(c, y) := st in
  match b_name b with
  | Tag_p | Tag_pre | Tag_blockquote =>
      let indent :=
        match b_name b with Tag_blockquote => QUOTE_INDENT | _ => 0 end in
      draw_paragraph stringWidth cfg c (b_text b) x_left y x_right font_name
        DEFAULT_FONT_SIZE indent
  | Tag_img =>
      match b_src b with
      | Some src =>
          if nonempty src then
            match find_target table name src with
            | Some target =>
                if is_image target then
                  match pil target with
                  | Some pil_img =>
                      match draw_image cfg c pil_img x_left y x_right
                              font_name with
                      | Some st' => st'
                      | None => (c, y)
                      end
                  | None => (c, y)
                  end
                else (c, y)
            | None => (c, y)
            end
          else (c, y)
      | None => (c, y)
      end
  | _ => (c, y)
  end.

(** One iteration of the loop [for sid in spine_ids] (lines 202-251). *)
Definition draw_chapter (table : str -> option item) (x_left x_right : Q)
    (font_name : font) (st : canvas font * Q) (entry : option chapter)
  : canvas font * Q :=
  match entry with
  | None => st
  | Some ch =>
      let '(c, y) :=
        draw_chapter_title x_left x_right font_name st (chapter_title ch) in
      let '(c, y) :=
        fold_left (draw_block table (ch_name ch) x_left x_right font_name)
          (ch_blocks ch) (c, y) in
      let y := y - 4 in
      if Qlt_bool y (MARGIN cfg + 20)
      then (c ++ [ShowPage], page_h cfg - MARGIN cfg)
      else (c, y)
  end.

(** [convert_epub_to_pdf]: the commands sent to the canvas and the final
    offset. *)
Definition convert_epub_to_pdf (bk : book) (font_name : font)
  : canvas font * Q :=
  let x_left := MARGIN cfg in
  let x_right := page_w cfg - MARGIN cfg in
  let y := page_h cfg - MARGIN cfg in
  let st := draw_title x_left x_right font_name ([], y) (dc_title bk) in
  fold_left (draw_chapter (href_map bk) x_left x_right font_name)
    (spine bk) st.

End Convert.

Arguments draw_title_line {font} cfg x_left font_name st line.
Arguments draw_title {font} stringWidth cfg x_left x_right font_name st title.
Arguments draw_chapter_title_line {font} cfg x_left font_name st line.
Arguments draw_chapter_title {font} stringWidth cfg x_left x_right font_name
  st title.
Arguments draw_block {font} stringWidth cfg normpath_join table name x_left
  x_right font_name st b.
Arguments draw_chapter {font} stringWidth cfg normpath_join table x_left
  x_right font_name st entry.
Arguments convert_epub_to_pdf {font} stringWidth cfg normpath_join bk
  font_name.

(** * More vocabulary *)

(** A character that is neither whitespace nor ideographic. *)
Definition ordinary (c : char) : bool :=
  negb (isspace c) && negb (is_cjk_char c).

(** A run: a non-empty string of ordinary characters. *)
Definition is_run (tk : str) : bool := nonempty tk && forallb ordinary tk.

(** The three shapes of a token: one whitespace character, one
    ideographic character, or a run. *)
Definition token_shape (tk : str) : Prop :=
  (exists c : char, tk = [c] /\ (isspace c = true \/ is_cjk_char c = true))
  \/ is_run tk = true.

(** No two neighbours in the list are both runs. *)
Fixpoint no_adjacent_runs (tokens : list str) : bool :=
  match tokens with
  | [] => true
  | a :: rest =>
      match rest with
      | [] => true
      | b :: _ => negb (is_run a && is_run b)
      end && no_adjacent_runs rest
  end.

(** What the loop of [tokenize_for_wrap] keeps true of the shapes: the
    tokens have the three shapes, no two runs are neighbours, and [buf]
    is what [last_cjk] says: empty, one ideographic character, or a run
    that does not follow a run. *)
Definition tok_shapes (st : tok_state) : Prop :=
  let '(tokens, buf, last_cjk) := st in
  Forall token_shape tokens
  /\ no_adjacent_runs tokens = true
  /\ match last_cjk with
     | None => buf = [] /\ is_run (last tokens []) = false
     | Some true =>
         exists c : char,
           buf = [c] /\ is_cjk_char c = true /\ isspace c = false
     | Some false => is_run buf = true /\ is_run (last tokens []) = false
     end.

(** The sub-lines [wrap_cjk_aware] iterates over:
    [text.splitlines()], or one empty line. *)
Definition source_lines (text : str) : list str :=
  match splitlines text with [] => [[]] | ls => ls end.

Definition starts_with_space (s : str) : bool :=
  match s with
  | [] => false
  | c :: _ => (c =? SPACE)%N
  end.

(** No two neighbouring characters are both U+0020. *)
Fixpoint no_double_space (s : str) : bool :=
  match s with
  | [] => true
  | a :: rest =>
      match rest with
      | [] => true
      | b :: _ => negb ((a =? SPACE)%N && (b =? SPACE)%N)
      end && no_double_space rest
  end.

(** No character is U+0020. *)
Definition space_free (s : str) : bool :=
  forallb (fun c => negb (c =? SPACE)%N) s.

(** A line that does not start with a space and holds no doubled
    space. *)
Definition spaces_single (s : str) : Prop :=
  starts_with_space s = false /\ no_double_space s = true.

(** A finished line: without trailing whitespace, and with single
    spaces. *)
Definition line_tidy (L : str) : Prop := rstrip L = L /\ spaces_single L.


(** What the loop over the tokens keeps true of [(lines, cur)]. *)
Definition tidy_state (st : list str * str) : Prop :=
  Forall line_tidy (fst st) /\ spaces_single (snd st).


(** The font in force after the commands [c], started in [st]: a new
    page forgets the font (reportlab resets the text state at
    [showPage]), [setFont] sets it. *)
Fixpoint font_after {font : Type} (st : option (font * Q)) (c : canvas font)
  : option (font * Q) :=
  match c with
  | [] => st
  | SetFont font_name font_size :: c' =>
      font_after (Some (font_name, font_size)) c'
  | ShowPage :: c' => font_after None c'
  | _ :: c' => font_after st c'
  end.

(** The strings drawn by [c], each with the font in force when it is
    drawn ([None]: no font set on the page yet). *)
Fixpoint typeset {font : Type} (st : option (font * Q)) (c : canvas font)
  : list (str * option (font * Q)) :=
  match c with
  | [] => []
  | SetFont font_name font_size :: c' =>
      typeset (Some (font_name, font_size)) c'
  | ShowPage :: c' => typeset None c'
  | DrawString _ _ line :: c' => (line, st) :: typeset st c'
  | DrawImage _ _ _ _ :: c' => typeset st c'
  end.

(** The lines [lines], each set in [font_name] at [font_size]. *)
Definition set_in {font : Type} (font_name : font) (font_size : Q)
    (lines : list str) : list (str * option (font * Q)) :=
  map (fun line => (line, Some (font_name, font_size))) lines.

Section BookVocabulary.

Variable font : Type.
Variable stringWidth : str -> font -> Q -> Q.
Variable cfg : layout.
Variable normpath_join : str -> str -> str.

(** The content width [x_right - x_left] of [convert_epub_to_pdf]. *)
Definition content_width : Q :=
  (page_w cfg - MARGIN cfg) - MARGIN cfg.

(** The wrapped lines of the book title, when there is one. *)
Definition title_lines (bk : book) (font_name : font) : list str :=
  match dc_title bk with
  | Some text =>
      if nonempty text
      then wrap_cjk_aware stringWidth text content_width font_name 26
      else []
  | None => []
  end.

(** The wrapped lines of a chapter title, when there is one. *)
Definition chapter_title_lines (ch : chapter) (font_name : font) : list str :=
  match chapter_title ch with
  | Some text =>
      wrap_cjk_aware stringWidth text content_width font_name H1_SIZE
  | None => []
  end.

(** The wrapped lines of a tag of the flow: those of its text for [p],
    [pre] and [blockquote], none for the others. *)
Definition block_lines (font_name : font) (b : block) : list str :=
  match b_name b with
  | Tag_p | Tag_pre | Tag_blockquote =>
      wrap_cjk_aware stringWidth (b_text b)
        ((page_w cfg - MARGIN cfg)
         - (MARGIN cfg
            + match b_name b with Tag_blockquote => QUOTE_INDENT | _ => 0 end))
        font_name DEFAULT_FONT_SIZE
  | _ => []
  end.

(** The text of a spine entry, as it is to be set. *)
Definition chapter_typeset (font_name : font) (entry : option chapter)
  : list (str * option (font * Q)) :=
  match entry with
  | None => []
  | Some ch =>
      set_in font_name H1_SIZE (chapter_title_lines ch font_name)
      ++ set_in font_name DEFAULT_FONT_SIZE
           (flat_map (block_lines font_name) (ch_blocks ch))
  end.

(** The text of a book, as it is to be set. *)
Definition book_typeset (bk : book) (font_name : font)
  : list (str * option (font * Q)) :=
  set_in font_name 26 (title_lines bk font_name)
  ++ flat_map (chapter_typeset font_name) (spine bk).

(** A string drawn on the page: at the left margin, with its baseline
    between the bottom margin and the top edge. The other commands are
    not looked at. *)
Definition on_page (cmd : command font) : Prop :=
  match cmd with
  | DrawString x y _ => x == MARGIN cfg /\ MARGIN cfg <= y /\ y <= top cfg
  | _ => True
  end.

(** What every loop of [convert_epub_to_pdf] keeps true of the canvas
    and the offset. *)
Definition paged (st : canvas font * Q) : Prop :=
  Forall on_page (fst st) /\ snd st <= top cfg.

(** A page with room for a line of each kind (a title line, a chapter
    title line, a body line), and on which no image has a negative
    height: the content width and the image cap are not negative. *)
Definition page_roomy : Prop :=
  MARGIN cfg + 30 <= top cfg
  /\ MARGIN cfg + (H1_SIZE + 6) <= top cfg
  /\ 0 <= DEFAULT_FONT_SIZE * LINE_SPACING cfg
  /\ MARGIN cfg + DEFAULT_FONT_SIZE * LINE_SPACING cfg <= top cfg
  /\ MARGIN cfg <= page_w cfg - MARGIN cfg
  /\ 0 <= page_h cfg * IMAGE_MAX_HEIGHT_RATIO cfg.

(** The images of the table have no negative dimension. *)
Definition images_ok (table : str -> option item) : Prop :=
  forall (key : str) (target : item) (pil_img : image),
    table key = Some target -> pil target = Some pil_img ->
    (0 <= img_w pil_img)%Z /\ (0 <= img_h pil_img)%Z.

End BookVocabulary.

(** A loop state whose canvas, started in the font state [st0], leaves
    the font [font_name] at [font_size] in force. *)
Definition in_font {font : Type} (st0 : option (font * Q)) (font_name : font)
    (font_size : Q) (st : canvas font * Q) : Prop :=
  font_after st0 (fst st) = Some (font_name, font_size).

(** A loop body that draws its line in the font in force, and leaves
    that font in force. *)
Definition sets_line {font : Type} (st0 : option (font * Q))
    (font_name : font) (font_size : Q)
    (step : canvas font * Q -> str -> canvas font * Q) : Prop :=
  forall (st : canvas font * Q) (line : str),
    in_font st0 font_name font_size st ->
    typeset st0 (fst (step st line))
    = typeset st0 (fst st) ++ [(line, Some (font_name, font_size))]
    /\ in_font st0 font_name font_size (step st line).

(** A short book across the source's page: a title, a spine entry that
    is no document, and the document [c/1] with a heading, a paragraph,
    an image found through its path relative to the document, an image
    that is not in the book, and a quotation. *)
Definition sample_join (name src : str) : str := [99; 47]%N ++ src.

Definition sample_table (key : str) : option item :=
  if eqb key [99; 47; 97]%N
  then Some {| is_image := true; pil := Some scenario_image |}
  else None.

Definition sample_chapter : chapter :=
  {| ch_name := [99; 47; 49]%N;
     ch_h1 := None;
     ch_h2 := Some t_ABC;
     ch_title := None;
     ch_blocks :=
       [ {| b_name := Tag_h2; b_text := t_ABC; b_src := None |};
         {| b_name := Tag_p; b_text := t_ABC_nihongo_DEF; b_src := None |};
         {| b_name := Tag_img; b_text := []; b_src := Some [97]%N |};
         {| b_name := Tag_img; b_text := []; b_src := Some [98]%N |};
         {| b_name := Tag_blockquote; b_text := t_DEF; b_src := None |} ] |}.

Definition sample_book : book :=
  {| dc_title := Some t_nihongo;
     spine := [None; Some sample_chapter];
     href_map := sample_table |}.

(** A character that [wrap_cjk_aware] can return: no line boundary
    (they are dropped by [splitlines]) and no non-breaking space (the
    tokenizer turns it into U+0020). *)
Definition plain (c : char) : bool :=
  negb (is_linebreak c) && negb (c =? NBSP)%N.

(** A string of one line, without non-breaking spaces. *)
Definition one_line (s : str) : bool := forallb plain s.

(** Every character of the loop state [(lines, cur)] passes the test
    [P]. *)
Definition all_chars (P : char -> bool) (st : list str * str) : Prop :=
  Forall (fun L : str => forallb P L = true) (fst st)
  /\ forallb P (snd st) = true.

(** A line with a space inside: ABC, U+0020 and the three
    ideographs. *)
Definition t_ABC_nihongo : str := t_ABC ++ [SPACE] ++ t_nihongo.

(** A drawn string, with the font in force, that lies within
    [max_width]: a font is set, and the string fits in it or is one
    character that does not fit on its own. *)
Definition set_within {font : Type} (stringWidth : str -> font -> Q -> Q)
    (max_width : Q) (entry : str * option (font * Q)) : Prop :=
  match snd entry with
  | Some (font_name, font_size) =>
      width_bound stringWidth max_width font_name font_size (fst entry)
  | None => False
  end.

(** The bound with its exception for the empty line: [L] obeys the
    bound, or it is the empty line and the maximum width is below what
    the empty line measures. *)
Definition width_bound_or_empty {font : Type}
    (stringWidth : str -> font -> Q -> Q)
    (max_width : Q) (font_name : font) (font_size : Q) (L : str) : Prop :=
  width_bound stringWidth max_width font_name font_size L
  \/ (L = [] /\ max_width < stringWidth [] font_name font_size).

(** What the loop over the tokens keeps true of [(lines, cur)], for any
    width function: the finished lines obey the bound, and so does the
    open line once its trailing whitespace is stripped. *)
Definition trim_ok {font : Type} (stringWidth : str -> font -> Q -> Q)
    (max_width : Q) (font_name : font) (font_size : Q)
    (st : list str * str) : Prop :=
  Forall (width_bound_or_empty stringWidth max_width font_name font_size)
    (fst st)
  /\ width_bound_or_empty stringWidth max_width font_name font_size
       (rstrip (snd st)).

(** A font with narrow A, B and C: they are one unit wide, every other
    glyph ten. *)
Definition narrow_ABC (c : char) : Q :=
  if between 65%N 67%N c then 1 else 10.

(** * Properties *)

(** ** Python string facts *)

Lemma nonempty_false (s : str) : nonempty s = false -> s = [].
Proof. destruct s; [reflexivity | discriminate]. Qed.

Lemma nonempty_true (s : str) : nonempty s = true -> s <> [].
Proof. destruct s; [discriminate | intros _ H; discriminate H]. Qed.

Lemma eqb_true (a b : str) : PyStr.eqb a b = true -> a = b.
Proof. unfold PyStr.eqb. destruct (list_eq_dec N.eq_dec a b); congruence. Qed.

Lemma eqb_false (a b : str) : PyStr.eqb a b = false -> a <> b.
Proof. unfold PyStr.eqb. destruct (list_eq_dec N.eq_dec a b); congruence. Qed.

Lemma concat_snoc (A : Type) (ls : list (list A)) (l : list A) :
  concat (ls ++ [l]) = concat ls ++ l.
Proof. rewrite concat_app. simpl. now rewrite app_nil_r. Qed.

Lemma isspace_nbsp_norm (c : char) :
  isspace (if (c =? NBSP)%N then SPACE else c) = isspace c.
Proof.
  destruct (N.eqb_spec c NBSP) as [-> | _]; reflexivity.
Qed.

(** ** The tokenizer *)

Lemma tokenize_step_text (st : tok_state) (ch : char) :
  tok_inv st ->
  tok_inv (tokenize_step st ch) /\
  tok_text (tokenize_step st ch) = tok_text st ++ nbsp_to_space [ch].
Proof.
  destruct st as [[tokens buf] last]. unfold tok_inv, tok_text, tokenize_step.
  cbn [nbsp_to_space map].
  set (c := if (ch =? NBSP)%N then SPACE else ch).
  intros Hinv.
  destruct (isspace c).
  - split; [reflexivity |].
    destruct (nonempty buf) eqn:Hb.
    + now rewrite !concat_snoc, app_nil_r.
    + apply nonempty_false in Hb. subst buf.
      now rewrite concat_snoc, !app_nil_r.
  - destruct last as [last |].
    + destruct (negb (Bool.eqb (is_cjk_char c) last)).
      * split; [discriminate |]. now rewrite concat_snoc.
      * destruct (is_cjk_char c).
        -- split; [discriminate |]. now rewrite concat_snoc.
        -- split; [discriminate |]. now rewrite app_assoc.
    + rewrite (Hinv eq_refl). split; [discriminate |].
      now rewrite app_nil_r.
Qed.

Lemma tokenize_fold_text (text : str) (st : tok_state) :
  tok_inv st ->
  tok_inv (fold_left tokenize_step text st) /\
  tok_text (fold_left tokenize_step text st) = tok_text st ++ nbsp_to_space text.
Proof.
  revert st. induction text as [| ch text IH]; intros st Hinv.
  - simpl. now rewrite app_nil_r.
  - simpl fold_left.
    destruct (tokenize_step_text st ch Hinv) as [Hinv' Htxt].
    destruct (IH _ Hinv') as [Hinv'' Htxt'].
    split; [assumption |].
    rewrite Htxt', Htxt. rewrite <- app_assoc. reflexivity.
Qed.

Lemma tokenize_for_wrap_concat (line : str) :
  concat (tokenize_for_wrap line) = nbsp_to_space line.
Proof.
  unfold tokenize_for_wrap.
  destruct (tokenize_fold_text line ([], [], None)) as [_ Htxt];
    [intros _; reflexivity |].
  destruct (fold_left tokenize_step line ([], [], None)) as [[tokens buf] last].
  unfold tok_text in Htxt. simpl in Htxt.
  destruct (nonempty buf) eqn:Hb.
  - now rewrite concat_snoc.
  - apply nonempty_false in Hb. subst buf. now rewrite app_nil_r in Htxt.
Qed.

(** C3. Concatenating, in order, the tokens of [tokenize_for_wrap] gives
    back the input with every U+00A0 replaced by U+0020. It holds for
    every string, so in particular for every line without line breaks. *)
Theorem tokenize_for_wrap_lossless (line : str) :
  concat (tokenize_for_wrap line) = nbsp_to_space line.
Proof.
  unfold tokenize_for_wrap.
  destruct (tokenize_fold_text line ([], [], None)) as [_ Htxt];
    [intros _; reflexivity |].
  destruct (fold_left tokenize_step line ([], [], None)) as [[tokens buf] last].
  unfold tok_text in Htxt. simpl in Htxt.
  destruct (nonempty buf) eqn:Hb.
  - now rewrite concat_snoc.
  - apply nonempty_false in Hb. subst buf. now rewrite app_nil_r in Htxt.
Qed.

Lemma tok_runs_buf tokens buf last :
  tok_runs (tokens, buf, last) -> cjk_alone buf.
Proof.
  intros [_ H]. unfold cjk_alone. destruct last as [[|] |].
  - intros _. exact H.
  - rewrite H. discriminate.
  - subst buf. discriminate.
Qed.

Lemma Forall_snoc (A : Type) (P : A -> Prop) (l : list A) (a : A) :
  Forall P l -> P a -> Forall P (l ++ [a]).
Proof. intros Hl Ha. apply Forall_app. split; [assumption | now constructor]. Qed.

Lemma tokenize_step_runs (st : tok_state) (ch : char) :
  tok_runs st -> tok_runs (tokenize_step st ch).
Proof.
  destruct st as [[tokens buf] last]. intros Hst.
  pose proof (tok_runs_buf _ _ _ Hst) as Hbuf.
  destruct Hst as [Htok Hlast].
  unfold tokenize_step.
  set (c := if (ch =? NBSP)%N then SPACE else ch).
  assert (Hone : cjk_alone [c]) by (intros _; reflexivity).
  destruct (isspace c).
  - split; [| reflexivity].
    apply Forall_snoc; [| assumption].
    destruct (nonempty buf); [now apply Forall_snoc | assumption].
  - destruct last as [last |].
    + destruct (negb (Bool.eqb (is_cjk_char c) last)) eqn:Hne.
      * split; [now apply Forall_snoc |].
        destruct (is_cjk_char c) eqn:Hc; [reflexivity |].
        simpl. now rewrite Hc.
      * destruct (is_cjk_char c) eqn:Hc.
        -- split; [now apply Forall_snoc |].
           destruct last; [reflexivity | discriminate Hne].
        -- split; [assumption |].
           destruct last; [discriminate Hne |].
           rewrite existsb_app, Hlast. simpl. now rewrite Hc.
    + split; [assumption |].
      destruct (is_cjk_char c) eqn:Hc; [reflexivity |].
      simpl. now rewrite Hc.
Qed.

(** Every ideographic character is a token of its own. *)
Lemma tokenize_for_wrap_cjk_alone (text : str) :
  Forall cjk_alone (tokenize_for_wrap text).
Proof.
  unfold tokenize_for_wrap.
  assert (H : tok_runs (fold_left tokenize_step text ([], [], None))).
  { assert (H0 : tok_runs ([], [], None)) by (split; [constructor | reflexivity]).
    revert H0. generalize (([], [], None) : tok_state).
    induction text as [| ch text IH]; intros st Hst; [exact Hst |].
    simpl. apply IH. now apply tokenize_step_runs. }
  destruct (fold_left tokenize_step text ([], [], None)) as [[tokens buf] last].
  pose proof (tok_runs_buf _ _ _ H) as Hbuf. destruct H as [Htok _].
  destruct (nonempty buf); [now apply Forall_snoc | assumption].
Qed.

(** ** Visible characters *)

Lemma visible_app (a b : str) : visible (a ++ b) = visible a ++ visible b.
Proof. apply filter_app. Qed.

Lemma visible_rstrip (s : str) : visible (rstrip s) = visible s.
Proof.
  induction s as [| c s IH]; [reflexivity |].
  simpl rstrip. destruct (rstrip s) as [| d r] eqn:Hr.
  - unfold visible in *. simpl in *. rewrite <- IH.
    destruct (isspace c) eqn:E; simpl; rewrite ?E; reflexivity.
  - change (visible (c :: s)) with (visible ([c] ++ s)).
    change (c :: d :: r) with ([c] ++ d :: r).
    now rewrite !visible_app, IH.
Qed.

Lemma visible_nbsp_to_space (s : str) : visible (nbsp_to_space s) = visible s.
Proof.
  induction s as [| c s IH]; [reflexivity |].
  unfold visible in *. simpl. rewrite isspace_nbsp_norm, IH.
  destruct (N.eqb_spec c NBSP) as [-> | _]; reflexivity.
Qed.

Lemma visible_all_space (s : str) : strip_is_empty s = true -> visible s = [].
Proof.
  unfold strip_is_empty, visible. induction s as [| c s IH]; [reflexivity |].
  simpl. intros H. apply andb_prop in H. destruct H as [Hc Hs].
  rewrite Hc. simpl. now apply IH.
Qed.

Lemma is_linebreak_isspace (c : char) : is_linebreak c = true -> isspace c = true.
Proof.
  unfold is_linebreak, isspace, between. intros H.
  rewrite ?orb_true_iff, ?andb_true_iff, ?N.leb_le, ?N.eqb_eq in *. lia.
Qed.

Lemma visible_cons (c : char) (s : str) : visible (c :: s) = visible [c] ++ visible s.
Proof. exact (visible_app [c] s). Qed.

Lemma visible_space_char (c : char) : isspace c = true -> visible [c] = [].
Proof. intros H. unfold visible. simpl. now rewrite H. Qed.

Lemma visible_splitlines (text : str) :
  visible (concat (splitlines text)) = visible text.
Proof.
  assert (H : forall n s, (length s <= n)%nat ->
                          visible (concat (splitlines s)) = visible s).
  { induction n as [| n IH]; intros s Hlen.
    - destruct s; [reflexivity | simpl in Hlen; lia].
    - destruct s as [| c s']; [reflexivity |].
      simpl in Hlen. simpl splitlines.
      destruct (is_linebreak c) eqn:Hlb.
      + rewrite (visible_cons c s'),
          (visible_space_char c (is_linebreak_isspace c Hlb)).
        simpl concat. simpl app.
        destruct (c =? CR)%N; [| apply IH; lia].
        destruct s' as [| d s'']; [reflexivity |].
        destruct (N.eqb_spec d LF) as [-> | _]; [| apply IH; simpl in *; lia].
        rewrite (visible_cons LF s''). simpl app.
        apply IH. simpl in Hlen. lia.
      + rewrite (visible_cons c s'), <- (IH s') by lia.
        destruct (splitlines s') as [| l ls].
        * simpl. now rewrite app_nil_r.
        * simpl concat. now rewrite (visible_cons c (l ++ concat ls)).
  }
  now apply (H (length text)).
Qed.

(** ** The line wrapper *)

Section WrapFacts.

Variable font : Type.
Variable stringWidth : str -> font -> Q -> Q.
Variables (max_width : Q) (font_name : font) (font_size : Q).

Local Abbreviation fits' := (fits stringWidth max_width font_name font_size).
Local Abbreviation split_step' :=
  (split_step stringWidth max_width font_name font_size).
Local Abbreviation split_token' :=
  (split_token stringWidth max_width font_name font_size).
Local Abbreviation wrap_token' :=
  (wrap_token stringWidth max_width font_name font_size).
Local Abbreviation wrap_line' :=
  (wrap_line stringWidth max_width font_name font_size).

(** *** No visible character is lost or repeated *)

Lemma held_split_step (st : list str * str) (ch : char) :
  held (split_step' st ch) = held st ++ visible [ch].
Proof.
  destruct st as [lines piece]. unfold held, split_step.
  destruct (fits' (piece ++ [ch])); cbn [fst snd].
  - now rewrite app_assoc, visible_app.
  - destruct (nonempty piece) eqn:Hp.
    + now rewrite concat_snoc, visible_app.
    + apply nonempty_false in Hp. subst piece.
      now rewrite app_nil_r, visible_app.
Qed.

Lemma held_split_fold (add : str) (st : list str * str) :
  held (fold_left split_step' add st) = held st ++ visible add.
Proof.
  revert st. induction add as [| ch add IH]; intros st.
  - simpl. now rewrite app_nil_r.
  - simpl fold_left. rewrite IH, held_split_step, <- app_assoc.
    now rewrite <- visible_app.
Qed.

Lemma held_split_token (lines : list str) (add : str) :
  held (split_token' lines add) = visible (concat lines) ++ visible add.
Proof.
  unfold split_token. rewrite held_split_fold. unfold held. simpl.
  now rewrite app_nil_r.
Qed.

Lemma held_wrap_token (st : list str * str) (tk : str) :
  held (wrap_token' st tk) = held st ++ visible tk.
Proof.
  destruct st as [lines cur]. unfold wrap_token.
  destruct (PyStr.eqb tk [SPACE]) eqn:Hsp.
  - apply eqb_true in Hsp. subst tk.
    change (visible [SPACE]) with (@nil char). rewrite app_nil_r.
    destruct (nonempty cur && negb (endswith_space cur)); [| reflexivity].
    destruct (fits' (cur ++ [SPACE])); [| reflexivity].
    unfold held. cbn [fst snd]. rewrite app_assoc, visible_app.
    change (visible [SPACE]) with (@nil char). now rewrite app_nil_r.
  - destruct (PyStr.eqb cur []) eqn:Hcur.
    + apply eqb_true in Hcur. subst cur.
      destruct (fits' tk).
      * unfold held. cbn [fst snd]. now rewrite app_nil_r, visible_app.
      * rewrite held_split_token. unfold held. cbn [fst snd].
        now rewrite app_nil_r.
    + assert (E : visible (concat (lines ++ [rstrip cur]))
                  = held (lines, cur)).
      { unfold held. cbn [fst snd].
        now rewrite concat_snoc, !visible_app, visible_rstrip. }
      destruct (fits' (cur ++ tk)).
      * unfold held. cbn [fst snd]. now rewrite app_assoc, visible_app.
      * destruct (negb (fits' tk)).
        -- now rewrite held_split_token, E.
        -- unfold held at 1. cbn [fst snd]. now rewrite visible_app, E.
Qed.

Lemma held_wrap_fold (tokens : list str) (st : list str * str) :
  held (fold_left wrap_token' tokens st) = held st ++ visible (concat tokens).
Proof.
  revert st. induction tokens as [| tk tokens IH]; intros st.
  - simpl. now rewrite app_nil_r.
  - simpl fold_left. simpl concat.
    now rewrite IH, held_wrap_token, visible_app, app_assoc.
Qed.

Lemma visible_wrap_line (lines : list str) (raw : str) :
  visible (concat (wrap_line' lines raw)) = visible (concat lines) ++ visible raw.
Proof.
  unfold wrap_line.
  destruct (strip_is_empty raw && negb (PyStr.eqb raw [])) eqn:Hblank.
  - apply andb_prop in Hblank. destruct Hblank as [Hblank _].
    rewrite concat_snoc, app_nil_r, (visible_all_space raw Hblank).
    now rewrite app_nil_r.
  - pose proof (held_wrap_fold (tokenize_for_wrap raw) (lines, [])) as H.
    destruct (fold_left wrap_token' (tokenize_for_wrap raw) (lines, []))
      as [lines' cur].
    unfold held in H. cbn [fst snd] in H.
    rewrite concat_snoc, visible_app, visible_rstrip, <- visible_app, H.
    now rewrite app_nil_r, tokenize_for_wrap_concat, visible_nbsp_to_space.
Qed.

Lemma visible_wrap_lines (raws : list str) (lines : list str) :
  visible (concat (fold_left wrap_line' raws lines))
  = visible (concat lines) ++ visible (concat raws).
Proof.
  revert lines. induction raws as [| raw raws IH]; intros lines.
  - simpl. now rewrite app_nil_r.
  - simpl fold_left. simpl concat.
    now rewrite IH, visible_wrap_line, visible_app, app_assoc.
Qed.

Lemma visible_wrap_cjk_aware (text : str) :
  visible (concat (wrap_cjk_aware stringWidth text max_width font_name font_size))
  = visible text.
Proof.
  unfold wrap_cjk_aware. rewrite visible_wrap_lines. simpl.
  rewrite <- (visible_splitlines text).
  destruct (splitlines text); reflexivity.
Qed.

(** C9. The lines returned by [wrap_cjk_aware], concatenated, hold
    exactly the non-whitespace characters of the input, in the input's
    order, for every width function and every maximum width (U+00A0 is
    whitespace, like the space it is read as). *)
Theorem wrap_cjk_aware_keeps_visible (text : str) :
  visible (concat (wrap_cjk_aware stringWidth text max_width font_name font_size))
  = visible text.
Proof. exact (visible_wrap_cjk_aware text). Qed.

(** *** At least one line *)

Lemma wrap_line_nonempty (lines : list str) (raw : str) :
  wrap_line' lines raw <> [].
Proof.
  unfold wrap_line.
  destruct (strip_is_empty raw && negb (PyStr.eqb raw [])).
  - intros H. now apply app_eq_nil in H.
  - destruct (fold_left wrap_token' (tokenize_for_wrap raw) (lines, [])).
    intros H. now apply app_eq_nil in H.
Qed.

Lemma wrap_lines_nonempty (raws : list str) (lines : list str) :
  raws <> [] -> fold_left wrap_line' raws lines <> [].
Proof.
  revert lines. induction raws as [| raw raws IH]; intros lines Hne;
    [congruence |].
  simpl. destruct raws as [| raw' raws].
  - apply wrap_line_nonempty.
  - apply IH. discriminate.
Qed.

Lemma wrap_cjk_aware_nonempty (text : str) :
  wrap_cjk_aware stringWidth text max_width font_name font_size <> [].
Proof.
  unfold wrap_cjk_aware. apply wrap_lines_nonempty.
  destruct (splitlines text); discriminate.
Qed.

(** *** One token at a time *)

Lemma wrap_single_overwide (c : char) :
  isspace c = false -> fits' [c] = false ->
  wrap_cjk_aware stringWidth [c] max_width font_name font_size = [[c]].
Proof.
  intros Hsp Hfit.
  assert (Hlb : is_linebreak c = false).
  { destruct (is_linebreak c) eqn:E; [| reflexivity].
    apply is_linebreak_isspace in E. congruence. }
  assert (Hnb : (c =? NBSP)%N = false).
  { destruct (N.eqb_spec c NBSP) as [-> | _]; [discriminate Hsp | reflexivity]. }
  assert (Hs : PyStr.eqb [c] [SPACE] = false).
  { unfold PyStr.eqb. destruct (list_eq_dec N.eq_dec [c] [SPACE]) as [E | _];
      [| reflexivity]. injection E as ->. discriminate Hsp. }
  unfold wrap_cjk_aware. simpl splitlines. rewrite Hlb. simpl fold_left.
  unfold wrap_line. unfold strip_is_empty. simpl forallb. rewrite Hsp.
  simpl andb. cbv iota.
  unfold tokenize_for_wrap. simpl fold_left. unfold tokenize_step.
  rewrite Hnb, Hsp. simpl nonempty. cbv iota. simpl app.
  simpl fold_left. unfold wrap_token. rewrite Hs.
  simpl PyStr.eqb. rewrite Hfit. unfold split_token. simpl fold_left.
  unfold split_step. simpl app. rewrite Hfit. simpl. now rewrite Hsp.
Qed.

Lemma split_token_single (lines : list str) (c : char) :
  split_token' lines [c] = (lines, [c]).
Proof.
  unfold split_token. simpl. destruct (fits' [c]); reflexivity.
Qed.

Lemma split_step_grows (st : list str * str) (ch : char) :
  exists extra, fst (split_step' st ch) = fst st ++ extra.
Proof.
  destruct st as [lines piece]. unfold split_step.
  destruct (fits' (piece ++ [ch])); [exists []; simpl; now rewrite app_nil_r |].
  destruct (nonempty piece); [now exists [piece] |].
  exists []. simpl. now rewrite app_nil_r.
Qed.

Lemma split_token_grows (lines : list str) (add : str) :
  exists extra, fst (split_token' lines add) = lines ++ extra.
Proof.
  unfold split_token.
  assert (H : forall st, exists extra,
               fst (fold_left split_step' add st) = fst st ++ extra).
  { induction add as [| ch add IH]; intros st.
    - exists []. simpl. now rewrite app_nil_r.
    - simpl. destruct (IH (split_step' st ch)) as [e1 H1].
      destruct (split_step_grows st ch) as [e2 H2].
      exists (e2 ++ e1). now rewrite H1, H2, app_assoc. }
  apply (H (lines, [])).
Qed.

Lemma split_step_concat (st : list str * str) (ch : char) :
  concat (fst (split_step' st ch)) ++ snd (split_step' st ch)
  = (concat (fst st) ++ snd st) ++ [ch].
Proof.
  destruct st as [lines piece]. unfold split_step.
  destruct (fits' (piece ++ [ch])); cbn [fst snd].
  - now rewrite app_assoc.
  - destruct (nonempty piece) eqn:Hp; [now rewrite concat_snoc |].
    apply nonempty_false in Hp. subst piece. now rewrite app_nil_r.
Qed.

(** Splitting a token keeps its characters, all of them. *)
Lemma split_token_concat (lines : list str) (add : str) :
  concat (fst (split_token' lines add)) ++ snd (split_token' lines add)
  = concat lines ++ add.
Proof.
  unfold split_token.
  assert (H : forall st,
             concat (fst (fold_left split_step' add st))
             ++ snd (fold_left split_step' add st)
             = (concat (fst st) ++ snd st) ++ add).
  { induction add as [| ch add IH]; intros st.
    - simpl. now rewrite app_nil_r.
    - simpl fold_left. rewrite IH, split_step_concat, <- app_assoc.
      reflexivity. }
  rewrite (H (lines, [])). cbn [fst snd]. now rewrite app_nil_r.
Qed.

Lemma wrap_token_first (lines : list str) (tk : str) :
  PyStr.eqb tk [SPACE] = false -> fits' tk = true ->
  wrap_token' (lines, []) tk = (lines, tk).
Proof. intros Hs Hf. unfold wrap_token. now rewrite Hs, Hf. Qed.

Lemma wrap_token_append (lines : list str) (cur tk : str) :
  PyStr.eqb tk [SPACE] = false -> PyStr.eqb cur [] = false ->
  fits' (cur ++ tk) = true ->
  wrap_token' (lines, cur) tk = (lines, cur ++ tk).
Proof. intros Hs Hc Hf. unfold wrap_token. now rewrite Hs, Hc, Hf. Qed.

Lemma wrap_token_flush (lines : list str) (cur tk : str) :
  PyStr.eqb tk [SPACE] = false -> PyStr.eqb cur [] = false ->
  fits' (cur ++ tk) = false ->
  wrap_token' (lines, cur) tk
  = if negb (fits' tk) then split_token' (lines ++ [rstrip cur]) tk
    else (lines ++ [rstrip cur], tk).
Proof. intros Hs Hc Hf. unfold wrap_token. now rewrite Hs, Hc, Hf. Qed.

(** A space token never touches [lines]; it leaves [cur] alone or
    appends one space that still fits. *)
Lemma wrap_token_space (lines : list str) (cur : str) :
  exists cur',
    wrap_token' (lines, cur) [SPACE] = (lines, cur')
    /\ (cur' = cur
        \/ (cur' = cur ++ [SPACE] /\ cur <> [] /\ endswith_space cur = false
            /\ fits' cur' = true)).
Proof.
  unfold wrap_token. change (PyStr.eqb [SPACE] [SPACE]) with true. cbv iota.
  destruct (nonempty cur) eqn:Hne; simpl andb; [| exists cur; now split; [| left]].
  destruct (endswith_space cur) eqn:He; simpl negb; cbv iota;
    [exists cur; now split; [| left] |].
  destruct (fits' (cur ++ [SPACE])) eqn:Hf; [| exists cur; now split; [| left]].
  exists (cur ++ [SPACE]). split; [reflexivity |]. right.
  repeat split; try assumption. now apply nonempty_true.
Qed.

End WrapFacts.

(** ** The width bound *)

Lemma advance_sum_app (glyphs : char -> Q) (a b : str) :
  advance_sum glyphs (a ++ b) == advance_sum glyphs a + advance_sum glyphs b.
Proof.
  induction a as [| c a IH]; simpl; [ring |]. rewrite IH. ring.
Qed.

Lemma advance_sum_nonneg (glyphs : char -> Q) (s : str) :
  (forall c, 0 <= glyphs c) -> 0 <= advance_sum glyphs s.
Proof.
  intros Hg. induction s as [| c s IH]; simpl; [lra |].
  specialize (Hg c). lra.
Qed.

Lemma duospaced_nonneg (c : char) : 0 <= duospaced c.
Proof. unfold duospaced. destruct (is_cjk_char c); lra. Qed.

Lemma rstrip_prefix (s : str) : exists t, s = rstrip s ++ t.
Proof.
  induction s as [| c s [t IH]]; [now exists [] |].
  simpl. destruct (rstrip s) as [| d r].
  - destruct (isspace c).
    + now exists (c :: s).
    + exists s. reflexivity.
  - exists t. simpl. simpl in IH. now rewrite <- IH.
Qed.

Lemma rstrip_all_visible (s : str) :
  forallb (fun c => negb (isspace c)) s = true -> rstrip s = s.
Proof.
  induction s as [| c s IH]; [reflexivity |].
  simpl. intros H. apply andb_prop in H. destruct H as [Hc Hs].
  rewrite (IH Hs). destruct s; [| reflexivity].
  apply negb_true_iff in Hc. now rewrite Hc.
Qed.

Lemma rstrip_short (s : str) :
  (length s <= 1)%nat -> rstrip s = s \/ rstrip s = [].
Proof.
  destruct s as [| c [| d s]]; simpl; intros H; [now left | | lia].
  destruct (isspace c); [now right | now left].
Qed.

Section WidthBound.

Variable font : Type.
Variable stringWidth : str -> font -> Q -> Q.
Variables (max_width : Q) (font_name : font) (font_size : Q).

Local Abbreviation measure s := (stringWidth s font_name font_size).
Local Abbreviation fits' := (fits stringWidth max_width font_name font_size).
Local Abbreviation split_step' :=
  (split_step stringWidth max_width font_name font_size).
Local Abbreviation split_token' :=
  (split_token stringWidth max_width font_name font_size).
Local Abbreviation wrap_token' :=
  (wrap_token stringWidth max_width font_name font_size).
Local Abbreviation wrap_line' :=
  (wrap_line stringWidth max_width font_name font_size).
Local Abbreviation bound :=
  (width_bound stringWidth max_width font_name font_size).
Local Abbreviation bound' :=
  (width_bound_or_blank stringWidth max_width font_name font_size).
Local Abbreviation open_ok' :=
  (open_ok font stringWidth max_width font_name font_size).
Local Abbreviation loop_ok' :=
  (loop_ok font stringWidth max_width font_name font_size).

Hypothesis measure_grows : widths_grow stringWidth font_name font_size.

Lemma fits_iff (s : str) : fits' s = true <-> measure s <= max_width.
Proof. unfold fits, str_width. apply Qle_bool_iff. Qed.

Lemma fits_false (s : str) : fits' s = false -> max_width < measure s.
Proof.
  intros H. apply Qnot_le_lt. intros Hle. apply fits_iff in Hle. congruence.
Qed.

Lemma measure_nil : measure [] <= 0.
Proof. apply measure_grows. Qed.

Lemma measure_prefix (a b : str) : measure a <= measure (a ++ b).
Proof. apply measure_grows. Qed.

Lemma measure_suffix (a b : str) : measure b <= measure (a ++ b).
Proof. apply measure_grows. Qed.

Lemma fits_prefix (a b : str) : fits' (a ++ b) = true -> fits' a = true.
Proof.
  rewrite !fits_iff. pose proof (measure_prefix a b). lra.
Qed.

Lemma open_ok_flush (cur : str) : open_ok' cur -> cur <> [] -> bound cur.
Proof.
  intros [Hfit | Hlen] Hne.
  - left. now apply fits_iff.
  - destruct (fits' cur) eqn:Hf; [left; now apply fits_iff |].
    right. split; [| now apply fits_false].
    destruct cur as [| c [| d cur]]; simpl in *; [congruence | reflexivity | lia].
Qed.

Lemma blank_bound : bound' [].
Proof.
  destruct (Qlt_le_dec max_width 0) as [Hneg | Hpos].
  - right. now split.
  - left. left. pose proof measure_nil. lra.
Qed.

Lemma open_ok_rstrip (cur : str) : open_ok' cur -> bound' (rstrip cur).
Proof.
  intros Hok. destruct (rstrip cur) as [| c r] eqn:Hr; [apply blank_bound |].
  left. rewrite <- Hr. destruct Hok as [Hfit | Hlen].
  - left. destruct (rstrip_prefix cur) as [t Ht].
    apply fits_iff in Hfit. rewrite Ht in Hfit.
    pose proof (measure_prefix (rstrip cur) t). lra.
  - destruct (rstrip_short cur Hlen) as [E | E]; [| congruence].
    rewrite E. apply open_ok_flush; [now right |].
    intros ->. discriminate Hr.
Qed.

Lemma split_step_ok (st : list str * str) (ch : char) :
  loop_ok' st -> loop_ok' (split_step' st ch).
Proof.
  destruct st as [lines piece]. intros [Hl Hp]. unfold split_step.
  destruct (fits' (piece ++ [ch])) eqn:Hf.
  - split; [assumption | now left].
  - split; [| right; simpl; lia]. cbn [fst snd] in *.
    destruct (nonempty piece) eqn:Hne; [| assumption].
    apply Forall_snoc; [assumption |]. left.
    apply open_ok_flush; [assumption | now apply nonempty_true].
Qed.

Lemma split_token_ok (lines : list str) (add : str) :
  Forall bound' lines -> loop_ok' (split_token' lines add).
Proof.
  intros Hl. unfold split_token.
  assert (H0 : loop_ok' (lines, [])) by (split; [assumption | right; simpl; lia]).
  revert H0. generalize (lines, @nil char).
  induction add as [| ch add IH]; intros st Hst; [exact Hst |].
  simpl. apply IH. now apply split_step_ok.
Qed.

Lemma wrap_token_ok (st : list str * str) (tk : str) :
  loop_ok' st -> loop_ok' (wrap_token' st tk).
Proof.
  destruct st as [lines cur]. intros [Hl Hc]. cbn [fst snd] in *.
  unfold wrap_token.
  destruct (PyStr.eqb tk [SPACE]).
  - destruct (nonempty cur && negb (endswith_space cur));
      [| now split].
    destruct (fits' (cur ++ [SPACE])) eqn:Hf; [| now split].
    split; [assumption | now left].
  - destruct (PyStr.eqb cur []).
    + destruct (fits' tk) eqn:Hf; [split; [assumption | now left] |].
      now apply split_token_ok.
    + destruct (fits' (cur ++ tk)) eqn:Hf; [split; [assumption | now left] |].
      assert (Hl' : Forall bound' (lines ++ [rstrip cur]))
        by (apply Forall_snoc; [assumption | now apply open_ok_rstrip]).
      destruct (fits' tk) eqn:Hk; simpl negb; cbv iota.
      * split; [assumption | now left].
      * now apply split_token_ok.
Qed.

Lemma wrap_line_ok (lines : list str) (raw : str) :
  Forall bound' lines -> Forall bound' (wrap_line' lines raw).
Proof.
  intros Hl. unfold wrap_line.
  destruct (strip_is_empty raw && negb (PyStr.eqb raw [])).
  - apply Forall_snoc; [assumption | apply blank_bound].
  - assert (H : loop_ok' (fold_left wrap_token' (tokenize_for_wrap raw) (lines, []))).
    { assert (H0 : loop_ok' (lines, [])) by (split; [assumption | right; simpl; lia]).
      revert H0. generalize (lines, @nil char).
      induction (tokenize_for_wrap raw) as [| tk tokens IH]; intros st Hst;
        [exact Hst |].
      simpl. apply IH. now apply wrap_token_ok. }
    destruct (fold_left wrap_token' (tokenize_for_wrap raw) (lines, []))
      as [lines' cur].
    destruct H as [Hl' Hc]. cbn [fst snd] in *.
    apply Forall_snoc; [assumption | now apply open_ok_rstrip].
Qed.

Lemma wrap_cjk_aware_lines_bound (text : str) :
  Forall bound' (wrap_cjk_aware stringWidth text max_width font_name font_size).
Proof.
  unfold wrap_cjk_aware.
  match goal with
  | |- context [fold_left _ ?r _] => generalize r
  end.
  assert (H : forall raws lines,
             Forall bound' lines -> Forall bound' (fold_left wrap_line' raws lines)).
  { induction raws as [| raw raws IH]; intros lines Hl; [exact Hl |].
    simpl. apply IH. now apply wrap_line_ok. }
  intros raws. apply H. constructor.
Qed.

(** *** Over-wide characters *)

Lemma overwide_char_alone (text : str) (c : char) :
  In c text -> isspace c = false -> max_width < measure [c] ->
  In [c] (wrap_cjk_aware stringWidth text max_width font_name font_size).
Proof.
  intros Hin Hvis Hwide.
  assert (Hc : In c (visible text))
    by (apply filter_In; split; [assumption | now rewrite Hvis]).
  rewrite <- (visible_wrap_cjk_aware font stringWidth max_width font_name
                font_size) in Hc.
  apply filter_In in Hc. destruct Hc as [Hc _].
  apply in_concat in Hc. destruct Hc as [L [HL HcL]].
  pose proof (wrap_cjk_aware_lines_bound text) as Hall.
  rewrite Forall_forall in Hall. specialize (Hall L HL).
  apply in_split in HcL. destruct HcL as [a [b Hab]].
  assert (Hm : measure [c] <= measure L).
  { rewrite Hab. change (c :: b) with ([c] ++ b).
    pose proof (measure_suffix a ([c] ++ b)).
    pose proof (measure_prefix [c] b). lra. }
  destruct Hall as [[Hfit | [Hlen _]] | [Hnil _]].
  - lra.
  - rewrite Hab in Hlen. rewrite length_app in Hlen. simpl in Hlen.
    destruct a; [| simpl in Hlen; lia]. destruct b; [| simpl in Hlen; lia].
    now rewrite Hab in HL.
  - rewrite Hab in Hnil. symmetry in Hnil.
    now apply app_cons_not_nil in Hnil.
Qed.

Local Abbreviation tok_first :=
  (wrap_token_first font stringWidth max_width font_name font_size).
Local Abbreviation tok_append :=
  (wrap_token_append font stringWidth max_width font_name font_size).
Local Abbreviation tok_flush :=
  (wrap_token_flush font stringWidth max_width font_name font_size).
Local Abbreviation head := (t_ABC ++ [c_ni; c_hon]).

Lemma wrap_ABC_nihongo_DEF :
  measure t_ABC <= max_width ->
  measure (t_ABC ++ [c_ni]) <= max_width ->
  measure head <= max_width ->
  max_width < measure (t_ABC ++ [c_ni; c_hon; c_go]) ->
  exists rest,
    wrap_cjk_aware stringWidth t_ABC_nihongo_DEF max_width font_name font_size
    = head :: rest
    /\ (exists tail rest', rest = (c_go :: tail) :: rest')
    /\ concat rest = c_go :: t_DEF
    /\ (measure (c_go :: t_DEF) <= max_width -> rest = [c_go :: t_DEF])
    /\ (max_width < measure (c_go :: t_DEF) ->
        exists rest', rest = [c_go] :: rest' /\ rest' <> []).
Proof.
  intros Hfit1 Hfit2 Hfit Hnot.
  assert (F3 : fits' head = true) by now apply fits_iff.
  assert (F2 : fits' (t_ABC ++ [c_ni]) = true) by now apply fits_iff.
  assert (F1 : fits' t_ABC = true) by now apply fits_iff.
  assert (F4 : fits' (head ++ [c_go]) = false).
  { destruct (fits' (head ++ [c_go])) eqn:E; [| reflexivity].
    apply fits_iff in E. rewrite <- app_assoc in E. simpl app in E, Hnot.
    lra. }
  unfold wrap_cjk_aware.
  change (splitlines t_ABC_nihongo_DEF) with [t_ABC_nihongo_DEF].
  simpl fold_left. unfold wrap_line.
  change (strip_is_empty t_ABC_nihongo_DEF
          && negb (PyStr.eqb t_ABC_nihongo_DEF [])) with false.
  cbv iota.
  change (tokenize_for_wrap t_ABC_nihongo_DEF)
    with [t_ABC; [c_ni]; [c_hon]; [c_go]; t_DEF].
  cbn [fold_left].
  rewrite (tok_first [] t_ABC eq_refl F1).
  rewrite (tok_append [] t_ABC [c_ni] eq_refl eq_refl F2).
  rewrite (tok_append [] (t_ABC ++ [c_ni]) [c_hon] eq_refl eq_refl).
  2:{ now rewrite <- app_assoc. }
  change ((t_ABC ++ [c_ni]) ++ [c_hon]) with head.
  rewrite (tok_flush [] head [c_go] eq_refl eq_refl F4).
  rewrite (split_token_single font stringWidth max_width font_name font_size).
  assert (E : (if negb (fits' [c_go])
               then ([] ++ [rstrip head], [c_go])
               else ([] ++ [rstrip head], [c_go]))
              = ([head], [c_go]))
    by (destruct (fits' [c_go]); reflexivity).
  rewrite E. clear E.
  destruct (fits' ([c_go] ++ t_DEF)) eqn:F5.
  - rewrite (tok_append _ [c_go] t_DEF eq_refl eq_refl F5).
    exists [c_go :: t_DEF]. repeat split; [now exists t_DEF, [] |].
    intros Hwide. apply fits_iff in F5. simpl app in F5. lra.
  - rewrite (tok_flush _ [c_go] t_DEF eq_refl eq_refl F5).
    assert (G : exists extra cur,
               (if negb (fits' t_DEF)
                then split_token' ([head] ++ [rstrip [c_go]]) t_DEF
                else ([head] ++ [rstrip [c_go]], t_DEF))
               = (([head] ++ [[c_go]]) ++ extra, cur)
               /\ concat extra ++ cur = t_DEF).
    { destruct (fits' t_DEF); simpl negb; cbv iota.
      - exists [], t_DEF. now rewrite app_nil_r.
      - destruct (split_token_grows font stringWidth max_width font_name
                    font_size ([head] ++ [rstrip [c_go]]) t_DEF)
          as [extra He].
        pose proof (split_token_concat font stringWidth max_width font_name
                      font_size ([head] ++ [rstrip [c_go]]) t_DEF) as Hc.
        destruct (split_token' ([head] ++ [rstrip [c_go]]) t_DEF) as [l c].
        cbn [fst snd] in He, Hc. subst l. exists extra, c.
        split; [reflexivity |].
        rewrite concat_app, <- app_assoc in Hc.
        now apply app_inv_head in Hc. }
    destruct G as [extra [cur [-> Hspell]]].
    assert (Hcur : rstrip cur = cur).
    { apply rstrip_all_visible.
      assert (Hall : forallb (fun c => negb (isspace c)) (concat extra ++ cur)
                     = true) by now rewrite Hspell.
      rewrite forallb_app in Hall. now apply andb_prop in Hall. }
    exists ([c_go] :: extra ++ [rstrip cur]).
    split; [reflexivity |]. split; [| split; [| split]].
    + now exists [], (extra ++ [rstrip cur]).
    + rewrite Hcur. simpl concat. now rewrite concat_snoc, Hspell.
    + intros Hle. apply fits_iff in Hle. simpl app in F5. congruence.
    + intros _. exists (extra ++ [rstrip cur]). split; [reflexivity |].
      intros E. symmetry in E. now apply app_cons_not_nil in E.
Qed.

(** With widths that grow with the text, what fits leaves its prefixes
    fitting. *)
Lemma head_prefixes_fit :
  measure head <= max_width ->
  measure t_ABC <= max_width /\ measure (t_ABC ++ [c_ni]) <= max_width.
Proof.
  intros Hfit.
  pose proof (measure_prefix (t_ABC ++ [c_ni]) [c_hon]) as H2.
  pose proof (measure_prefix t_ABC [c_ni]) as H1.
  rewrite <- app_assoc in H2. simpl app in *. split; lra.
Qed.

End WidthBound.

(** Under a maximum width that is not negative, the bound needs no
    exception for the empty line. *)
Lemma wrap_cjk_aware_bound_nonneg (font : Type)
    (stringWidth : str -> font -> Q -> Q) (text : str) (max_width : Q)
    (font_name : font) (font_size : Q) :
  widths_grow stringWidth font_name font_size -> 0 <= max_width ->
  Forall (width_bound stringWidth max_width font_name font_size)
    (wrap_cjk_aware stringWidth text max_width font_name font_size).
Proof.
  intros Hgrow Hpos.
  pose proof (wrap_cjk_aware_lines_bound font stringWidth max_width font_name
                font_size Hgrow text) as H.
  apply (Forall_impl _ (P := width_bound_or_blank stringWidth max_width
                               font_name font_size)); [| exact H].
  intros L [HL | [_ Hneg]]; [exact HL | lra].
Qed.

(** C7 (amended). [tokenize_for_wrap] splits ABC, U+65E5, U+672C,
    U+8A9E, DEF into the five tokens ABC, U+65E5, U+672C, U+8A9E, DEF;
    in every token list an ideographic character is a token of its own;
    and at a maximum width at which ABC, ABC U+65E5 and
    ABC U+65E5 U+672C fit (with widths that grow with the text it is
    enough that the last one fits) and ABC U+65E5 U+672C U+8A9E does
    not, the first line is ABC U+65E5 U+672C, the next line starts with
    U+8A9E, and the lines from there on spell U+8A9E DEF. The next line
    is U+8A9E DEF, and the last, when U+8A9E DEF fits; when it does not,
    the next line is U+8A9E alone and DEF follows on later lines. *)
Theorem tokenize_wrap_ABC_nihongo_DEF (font : Type)
    (stringWidth : str -> font -> Q -> Q) (max_width : Q) (font_name : font)
    (font_size : Q) :
  tokenize_for_wrap t_ABC_nihongo_DEF = [t_ABC; [c_ni]; [c_hon]; [c_go]; t_DEF]
  /\ (forall text : str, Forall cjk_alone (tokenize_for_wrap text))
  /\ (widths_grow stringWidth font_name font_size
      \/ (stringWidth t_ABC font_name font_size <= max_width
          /\ stringWidth (t_ABC ++ [c_ni]) font_name font_size <= max_width) ->
      stringWidth (t_ABC ++ [c_ni; c_hon]) font_name font_size <= max_width ->
      max_width < stringWidth (t_ABC ++ [c_ni; c_hon; c_go]) font_name font_size ->
      exists rest,
        wrap_cjk_aware stringWidth t_ABC_nihongo_DEF max_width font_name font_size
        = (t_ABC ++ [c_ni; c_hon]) :: rest
        /\ (exists tail rest', rest = (c_go :: tail) :: rest')
        /\ concat rest = c_go :: t_DEF
        /\ (stringWidth (c_go :: t_DEF) font_name font_size <= max_width ->
            rest = [c_go :: t_DEF])
        /\ (max_width < stringWidth (c_go :: t_DEF) font_name font_size ->
            exists rest', rest = [c_go] :: rest' /\ rest' <> [])).
Proof.
  split; [reflexivity |].
  split; [exact tokenize_for_wrap_cjk_alone |].
  intros Hpre Hfit Hnot.
  assert (H : stringWidth t_ABC font_name font_size <= max_width
              /\ stringWidth (t_ABC ++ [c_ni]) font_name font_size
                 <= max_width).
  { destruct Hpre as [Hgrow | H]; [| exact H].
    exact (head_prefixes_fit font stringWidth max_width font_name font_size
             Hgrow Hfit). }
  destruct H as [H1 H2].
  exact (wrap_ABC_nihongo_DEF font stringWidth max_width font_name font_size
           H1 H2 Hfit Hnot).
Qed.

(** C4. [wrap_cjk_aware] is a total function (each of its loops runs
    over a finite list) and returns at least one line; a non-whitespace
    character wider than the maximum width, wrapped alone, is the one
    line returned, so U+8A9E wider than the maximum width wraps to the
    single line U+8A9E; and, in a font whose widths grow with the text,
    such a character inside any text is still a line of its own. *)
Theorem wrap_cjk_aware_overwide_char (font : Type)
    (stringWidth : str -> font -> Q -> Q) (max_width : Q) (font_name : font)
    (font_size : Q) :
  (forall text : str,
      wrap_cjk_aware stringWidth text max_width font_name font_size <> [])
  /\ (forall c : char,
        isspace c = false -> max_width < stringWidth [c] font_name font_size ->
        wrap_cjk_aware stringWidth [c] max_width font_name font_size = [[c]])
  /\ (max_width < stringWidth [c_go] font_name font_size ->
      wrap_cjk_aware stringWidth [c_go] max_width font_name font_size
      = [[c_go]])
  /\ (widths_grow stringWidth font_name font_size ->
      forall (text : str) (c : char),
        In c text -> isspace c = false ->
        max_width < stringWidth [c] font_name font_size ->
        In [c] (wrap_cjk_aware stringWidth text max_width font_name font_size)).
Proof.
  assert (Hone : forall c : char,
             isspace c = false ->
             max_width < stringWidth [c] font_name font_size ->
             wrap_cjk_aware stringWidth [c] max_width font_name font_size
             = [[c]]).
  { intros c Hsp Hw. apply wrap_single_overwide; [assumption |].
    destruct (fits stringWidth max_width font_name font_size [c]) eqn:E;
      [| reflexivity].
    apply fits_iff in E. lra. }
  split; [intros text; apply wrap_cjk_aware_nonempty |].
  split; [exact Hone |].
  split; [intros Hw; now apply Hone |].
  intros Hgrow.
  exact (overwide_char_alone font stringWidth max_width font_name font_size
           Hgrow).
Qed.

(** ** A concrete font *)

Lemma font_stringWidth_app (glyphs : char -> Q) (font_size : Q) (a b : str) :
  font_stringWidth (a ++ b) glyphs font_size
  == font_stringWidth a glyphs font_size + font_stringWidth b glyphs font_size.
Proof. unfold font_stringWidth. rewrite advance_sum_app. ring. Qed.

Lemma font_stringWidth_nonneg (glyphs : char -> Q) (font_size : Q) (s : str) :
  (forall c, 0 <= glyphs c) -> 0 <= font_size ->
  0 <= font_stringWidth s glyphs font_size.
Proof.
  intros Hg Hz. unfold font_stringWidth.
  apply Qmult_le_0_compat; [now apply advance_sum_nonneg | assumption].
Qed.

Lemma font_stringWidth_grows (glyphs : char -> Q) (font_size : Q) :
  (forall c, 0 <= glyphs c) -> 0 <= font_size ->
  widths_grow font_stringWidth glyphs font_size.
Proof.
  intros Hg Hz. repeat split.
  - intros a b. rewrite font_stringWidth_app.
    pose proof (font_stringWidth_nonneg glyphs font_size b Hg Hz). lra.
  - intros a b. rewrite font_stringWidth_app.
    pose proof (font_stringWidth_nonneg glyphs font_size a Hg Hz). lra.
  - vm_compute. discriminate.
Qed.

Lemma duospaced_grows : widths_grow font_stringWidth duospaced 20.
Proof.
  apply font_stringWidth_grows; [exact duospaced_nonneg | discriminate].
Qed.

(** C1, counterexample. Under the maximum width -1 the empty text wraps
    to one empty line, which measures 0: wider than the maximum, and not a
    single character. *)
Lemma wrap_cjk_aware_negative_width_blank :
  wrap_cjk_aware font_stringWidth [] (-1) duospaced 20 = [[]]
  /\ ~ Forall (width_bound font_stringWidth (-1) duospaced 20)
        (wrap_cjk_aware font_stringWidth [] (-1) duospaced 20).
Proof.
  split; [reflexivity |].
  change (wrap_cjk_aware font_stringWidth [] (-1) duospaced 20) with [@nil char].
  intros H. inversion H as [| L ls [Hfit | [Hlen _]] _]; subst.
  - vm_compute in Hfit. now apply Hfit.
  - discriminate Hlen.
Qed.

Lemma tokenize_wrap_ABC_nihongo_DEF_witness :
  wrap_cjk_aware font_stringWidth t_ABC_nihongo_DEF 80 duospaced 20
  = [t_ABC ++ [c_ni; c_hon]; c_go :: t_DEF].
Proof.
  destruct (tokenize_wrap_ABC_nihongo_DEF (char -> Q) font_stringWidth 80
              duospaced 20) as [_ [_ H]].
  destruct H as [rest [E [_ [_ [R _]]]]].
  - left. exact duospaced_grows.
  - vm_compute. discriminate.
  - vm_compute. reflexivity.
  - rewrite E, R; [reflexivity |]. vm_compute. discriminate.
Defined.

(** C7, counterexample. In a font with non-negative glyph widths (A, B
    and C one unit wide, every other glyph ten) the maximum width 25
    fits ABC U+65E5 U+672C (23) but not ABC U+65E5 U+672C U+8A9E (33),
    and the line after ABC U+65E5 U+672C is U+8A9E alone, not
    U+8A9E DEF, which measures 40: DEF is split over two more lines. *)
Lemma wrap_ABC_nihongo_DEF_breaks_before_DEF :
  widths_grow font_stringWidth narrow_ABC 1
  /\ font_stringWidth (t_ABC ++ [c_ni; c_hon]) narrow_ABC 1 <= 25
  /\ 25 < font_stringWidth (t_ABC ++ [c_ni; c_hon; c_go]) narrow_ABC 1
  /\ wrap_cjk_aware font_stringWidth t_ABC_nihongo_DEF 25 narrow_ABC 1
     = [t_ABC ++ [c_ni; c_hon]; [c_go]; [68; 69]%N; [70]%N]
  /\ nth 1 (wrap_cjk_aware font_stringWidth t_ABC_nihongo_DEF 25 narrow_ABC 1)
       []
     <> c_go :: t_DEF.
Proof.
  split; [| split; [| split; [| split]]].
  - apply font_stringWidth_grows; [| discriminate].
    intros c. unfold narrow_ABC. destruct (between 65%N 67%N c); discriminate.
  - vm_compute. discriminate.
  - vm_compute. reflexivity.
  - vm_compute. reflexivity.
  - vm_compute. discriminate.
Qed.

Lemma wrap_cjk_aware_overwide_char_witness :
  wrap_cjk_aware font_stringWidth [c_go] 10 duospaced 20 = [[c_go]]
  /\ In [c_go] (wrap_cjk_aware font_stringWidth t_ABC_nihongo_DEF 10 duospaced 20).
Proof.
  destruct (wrap_cjk_aware_overwide_char (char -> Q) font_stringWidth 10
              duospaced 20) as [_ [_ [Hgo Hin]]].
  split.
  - apply Hgo. vm_compute. reflexivity.
  - apply (Hin duospaced_grows).
    + vm_compute. tauto.
    + reflexivity.
    + vm_compute. reflexivity.
Defined.

(** C5, at the failing inputs. The tokenizer makes a whitespace token of
    every whitespace character, but the wrapper treats only the token
    " " as whitespace and packs the others like words. The ideographic
    space between two runs of U+65E5 U+672C U+8A9E, on lines three
    ideographs wide, flushes the first run and opens the next line, which
    pushes the last ideograph to a third line; a space in its place is
    dropped and leaves two lines. Likewise a tab after "ab", which fills
    the line, flushes "ab" and opens a line of its own; and where there
    is room the tab itself, not a space, goes into the line. *)
Theorem wrap_cjk_aware_whitespace_token_flushes :
  (isspace IDEOGRAPHIC_SPACE = true
   /\ tokenize_for_wrap (t_nihongo ++ [IDEOGRAPHIC_SPACE] ++ t_nihongo)
      = [[c_ni]; [c_hon]; [c_go]; [IDEOGRAPHIC_SPACE];
         [c_ni]; [c_hon]; [c_go]]
   /\ wrap_token font_stringWidth 60 duospaced 20 ([], t_nihongo)
        [IDEOGRAPHIC_SPACE]
      = ([t_nihongo], [IDEOGRAPHIC_SPACE])
   /\ wrap_cjk_aware font_stringWidth
        (t_nihongo ++ [IDEOGRAPHIC_SPACE] ++ t_nihongo) 60 duospaced 20
      = [t_nihongo; [IDEOGRAPHIC_SPACE; c_ni; c_hon]; [c_go]]
   /\ wrap_cjk_aware font_stringWidth
        (t_nihongo ++ [SPACE] ++ t_nihongo) 60 duospaced 20
      = [t_nihongo; t_nihongo])
  /\ (isspace TAB = true
      /\ tokenize_for_wrap [97; 98; TAB]%N = [[97; 98]; [TAB]]%N
      /\ wrap_token font_stringWidth 20 duospaced 20 ([], [97; 98]%N) [TAB]
         = ([[97; 98]%N], [TAB])
      /\ wrap_cjk_aware font_stringWidth [97; 98; TAB]%N 20 duospaced 20
         = [[97; 98]%N; []]
      /\ wrap_cjk_aware font_stringWidth [97; 98; SPACE]%N 20 duospaced 20
         = [[97; 98]%N]
      /\ wrap_cjk_aware font_stringWidth [97; 98; TAB; 99]%N 100 duospaced 20
         = [[97; 98; TAB; 99]%N]).
Proof. repeat split; reflexivity. Qed.

(** ** The page cursor *)

Lemma Qlt_bool_true (a b : Q) : Qlt_bool a b = true -> a < b.
Proof.
  unfold Qlt_bool. intros H. apply Qnot_le_lt. intros Hle.
  apply Qle_bool_iff in Hle. rewrite Hle in H. discriminate H.
Qed.

Lemma Qlt_bool_false (a b : Q) : Qlt_bool a b = false -> b <= a.
Proof.
  unfold Qlt_bool. intros H. apply Qle_bool_iff.
  destruct (Qle_bool b a); [reflexivity | discriminate H].
Qed.

Lemma Qlt_bool_lt (a b : Q) : a < b -> Qlt_bool a b = true.
Proof.
  intros H. destruct (Qlt_bool a b) eqn:E; [reflexivity |].
  apply Qlt_bool_false in E. lra.
Qed.

Lemma Qlt_bool_ge (a b : Q) : b <= a -> Qlt_bool a b = false.
Proof.
  intros H. destruct (Qlt_bool a b) eqn:E; [| reflexivity].
  apply Qlt_bool_true in E. lra.
Qed.

Section Cursor.

Variable font : Type.
Variable stringWidth : str -> font -> Q -> Q.
Variable cfg : layout.

Local Abbreviation sound' := (sound font cfg).

Lemma cursor_app (y : Q) (c c' : canvas font) :
  cursor cfg y (c ++ c') = cursor cfg (cursor cfg y c) c'.
Proof.
  revert y. induction c as [| cmd c IH]; intros y; [reflexivity |].
  destruct cmd; simpl; apply IH.
Qed.

Lemma flow_ok_app (y : Q) (c c' : canvas font) :
  flow_ok cfg y c -> flow_ok cfg (cursor cfg y c) c' ->
  flow_ok cfg y (c ++ c').
Proof.
  revert y. induction c as [| cmd c IH]; intros y Hc Hc'; [exact Hc' |].
  destruct cmd; simpl in *; try (apply IH; assumption).
  - destruct Hc as [Hy Hc]. split; [assumption | now apply IH].
  - destruct Hc as [Hy Hc]. split; [assumption | now apply IH].
Qed.

Lemma draw_line_cases (x indent_left : Q) (font_name : font)
    (font_size leading : Q) (c : canvas font) (y : Q) (line : str) :
  (y - leading < MARGIN cfg ->
   draw_line cfg x indent_left font_name font_size leading (c, y) line
   = (c ++ [ShowPage; SetFont font_name font_size;
            DrawString (x + indent_left) (top cfg - leading) line],
      top cfg - leading))
  /\ (MARGIN cfg <= y - leading ->
      draw_line cfg x indent_left font_name font_size leading (c, y) line
      = (c ++ [DrawString (x + indent_left) (y - leading) line],
         y - leading)).
Proof.
  unfold draw_line. split; intros H.
  - rewrite (Qlt_bool_lt _ _ H). now rewrite <- app_assoc.
  - now rewrite (Qlt_bool_ge _ _ H).
Qed.

Lemma draw_line_sound (y0 x indent_left : Q) (font_name : font)
    (font_size leading : Q) (st : canvas font * Q) (line : str) :
  0 <= leading -> leading <= top cfg - MARGIN cfg ->
  sound' y0 st ->
  sound' y0 (draw_line cfg x indent_left font_name font_size leading st line).
Proof.
  intros H0 H1. destruct st as [c y]. intros [Hf [Hc Hy]].
  cbn [fst snd] in *.
  destruct (draw_line_cases x indent_left font_name font_size leading c y line)
    as [Hbreak Hstay].
  destruct (Qlt_le_dec (y - leading) (MARGIN cfg)) as [Hlt | Hge].
  - rewrite (Hbreak Hlt). unfold sound. cbn [fst snd].
    rewrite cursor_app. simpl cursor.
    split; [| split; [reflexivity | lra]].
    apply flow_ok_app; [assumption |]. simpl. repeat split; lra.
  - rewrite (Hstay Hge). unfold sound. cbn [fst snd].
    rewrite cursor_app. simpl cursor.
    split; [| split; [reflexivity | lra]].
    apply flow_ok_app; [assumption |]. rewrite Hc. simpl.
    repeat split; lra.
Qed.

Lemma draw_paragraph_sound (y0 : Q) (c : canvas font) (text : str)
    (x y right_x : Q) (font_name : font) (font_size indent_left : Q) :
  0 <= font_size * LINE_SPACING cfg ->
  font_size * LINE_SPACING cfg <= top cfg - MARGIN cfg ->
  sound' y0 (c, y) ->
  sound' y0 (draw_paragraph stringWidth cfg c text x y right_x font_name
              font_size indent_left).
Proof.
  intros H0 H1 Hst. unfold draw_paragraph.
  assert (Hst' : sound' y0 (c ++ [SetFont font_name font_size], y)).
  { destruct Hst as [Hf [Hc Hy]]. cbn [fst snd] in *. unfold sound.
    cbn [fst snd]. rewrite cursor_app. simpl cursor.
    split; [| split; assumption].
    apply flow_ok_app; [assumption | exact I]. }
  revert Hst'. generalize (c ++ [SetFont font_name font_size], y).
  generalize (wrap_cjk_aware stringWidth text (right_x - (x + indent_left))
                font_name font_size).
  intros lines. induction lines as [| line lines IH]; intros st Hs;
    [exact Hs |].
  simpl. apply IH. now apply draw_line_sound.
Qed.

(** *** Images *)

Lemma draw_image_cases (c : canvas font) (pil_img : image)
    (x y right_x : Q) (font_name : font) :
  img_w pil_img <> 0%Z -> img_h pil_img <> 0%Z ->
  let scale := image_scale cfg pil_img (right_x - x) in
  let draw_w := inject_Z (img_w pil_img) * scale in
  let draw_h := inject_Z (img_h pil_img) * scale in
  (y - draw_h < MARGIN cfg ->
   draw_image cfg c pil_img x y right_x font_name
   = Some (c ++ [ShowPage; DrawImage x (top cfg - draw_h) draw_w draw_h],
           top cfg - draw_h))
  /\ (MARGIN cfg <= y - draw_h ->
      draw_image cfg c pil_img x y right_x font_name
      = Some (c ++ [DrawImage x (y - draw_h) draw_w draw_h], y - draw_h)).
Proof.
  intros Hw Hh scale draw_w draw_h. unfold draw_image.
  apply Z.eqb_neq in Hw, Hh. rewrite Hw, Hh. simpl orb. cbv iota.
  fold scale. fold draw_w. fold draw_h.
  split; intros H.
  - rewrite (Qlt_bool_lt _ _ H). now rewrite <- app_assoc.
  - now rewrite (Qlt_bool_ge _ _ H).
Qed.

Lemma inject_Z_pos (z : Z) : (0 < z)%Z -> 0 < inject_Z z.
Proof. intros H. unfold Qlt. simpl. lia. Qed.

(** The drawn height is never negative and never above the cap. *)
Lemma draw_h_range (pil_img : image) (max_w : Q) :
  (0 < img_w pil_img)%Z -> (0 < img_h pil_img)%Z -> 0 <= max_w ->
  0 <= page_h cfg * IMAGE_MAX_HEIGHT_RATIO cfg ->
  0 <= inject_Z (img_h pil_img) * image_scale cfg pil_img max_w
  /\ inject_Z (img_h pil_img) * image_scale cfg pil_img max_w
     <= page_h cfg * IMAGE_MAX_HEIGHT_RATIO cfg.
Proof.
  intros Hw Hh Hmax Hcap. unfold image_scale.
  set (w := inject_Z (img_w pil_img)). set (h := inject_Z (img_h pil_img)).
  set (cap := page_h cfg * IMAGE_MAX_HEIGHT_RATIO cfg) in *.
  assert (Hw' : 0 < w) by now apply inject_Z_pos.
  assert (Hh' : 0 < h) by now apply inject_Z_pos.
  assert (Ha : 0 <= max_w / w) by (apply Qle_shift_div_l; [assumption | lra]).
  assert (Hb : 0 <= cap / h) by (apply Qle_shift_div_l; [assumption | lra]).
  assert (Hmin : 0 <= Qmin (max_w / w) (cap / h)) by now apply Q.min_glb.
  split.
  - apply Qmult_le_0_compat; [lra | assumption].
  - assert (E : h * (cap / h) == cap) by (apply Qmult_div_r; lra).
    rewrite <- E at 2.
    apply Qmult_le_l; [assumption | apply Q.le_min_r].
Qed.

Lemma draw_image_sound (y0 : Q) (c : canvas font) (pil_img : image)
    (x y right_x : Q) (font_name : font) (st' : canvas font * Q) :
  layout_ok cfg ->
  (0 <= img_w pil_img)%Z -> (0 <= img_h pil_img)%Z -> x <= right_x ->
  sound' y0 (c, y) ->
  draw_image cfg c pil_img x y right_x font_name = Some st' ->
  sound' y0 st'.
Proof.
  intros [Hcap0 Hcap1] Hw Hh Hx [Hf [Hc Hy]] Hdraw. cbn [fst snd] in *.
  destruct (Z.eq_dec (img_w pil_img) 0) as [Ew | Nw].
  { unfold draw_image in Hdraw. rewrite Ew in Hdraw. discriminate Hdraw. }
  destruct (Z.eq_dec (img_h pil_img) 0) as [Eh | Nh].
  { unfold draw_image in Hdraw. rewrite Eh, orb_true_r in Hdraw.
    discriminate Hdraw. }
  destruct (draw_h_range pil_img (right_x - x)) as [Hh0 Hh1];
    [lia | lia | lra | assumption |].
  destruct (draw_image_cases c pil_img x y right_x font_name Nw Nh)
    as [Hbreak Hstay].
  set (draw_h := inject_Z (img_h pil_img)
                 * image_scale cfg pil_img (right_x - x)) in *.
  destruct (Qlt_le_dec (y - draw_h) (MARGIN cfg)) as [Hlt | Hge].
  - rewrite (Hbreak Hlt) in Hdraw. injection Hdraw as <-.
    unfold sound. cbn [fst snd]. rewrite cursor_app. simpl cursor.
    split; [| split; [reflexivity | lra]].
    apply flow_ok_app; [assumption |]. simpl. repeat split; lra.
  - rewrite (Hstay Hge) in Hdraw. injection Hdraw as <-.
    unfold sound. cbn [fst snd]. rewrite cursor_app. simpl cursor.
    split; [| split; [reflexivity | lra]].
    apply flow_ok_app; [assumption |]. rewrite Hc. simpl.
    repeat split; lra.
Qed.

Lemma emit_sound (y0 : Q) (st : canvas font * Q) (e : emission font) :
  layout_ok cfg -> emission_ok cfg e -> sound' y0 st ->
  sound' y0 (emit stringWidth cfg st e).
Proof.
  intros Hcfg He Hst. destruct st as [c y].
  destruct e as [text x right_x f z indent | pil_img x right_x f];
    simpl in *.
  - destruct He as [H0 H1]. now apply draw_paragraph_sound.
  - destruct He as [Hw [Hh Hx]].
    destruct (draw_image cfg c pil_img x y right_x f) as [st' |] eqn:E;
      [| assumption].
    now apply (draw_image_sound y0 c pil_img x y right_x f st').
Qed.

Lemma emit_all_sound (y0 : Q) (es : list (emission font)) :
  layout_ok cfg -> Forall (emission_ok cfg) es -> y0 <= top cfg ->
  sound' y0 (emit_all stringWidth cfg y0 es).
Proof.
  intros Hcfg Hes Hy0. unfold emit_all.
  assert (H0 : sound' y0 ([], y0)) by (repeat split; assumption).
  revert H0. generalize (@nil (command font), y0).
  induction Hes as [| e es He Hes IH]; intros st Hst; [exact Hst |].
  simpl. apply IH. now apply emit_sound.
Qed.

(** C2 (amended). Start at or below the top edge, and let every
    emission have a height that is not negative and fits between the
    margins (a leading between 0 and the content height; images of
    non-negative size, drawn with [x <= right_x] under a cap that fits
    between the margins). Then across any sequence of [draw_paragraph]
    and [draw_image] calls the offset after each emission lies within
    [[MARGIN, page_h - MARGIN]] and is no higher than the offset before
    it, unless a page break came first and reset the cursor to
    [page_h - MARGIN]; the value returned is the offset of the last
    emission; and a line or an image that would end below [MARGIN] is
    drawn after a page break, from the top edge. *)
Theorem emissions_keep_cursor (y0 : Q) (es : list (emission font)) :
  layout_ok cfg -> Forall (emission_ok cfg) es -> y0 <= top cfg ->
  (flow_ok cfg y0 (fst (emit_all stringWidth cfg y0 es))
   /\ cursor cfg y0 (fst (emit_all stringWidth cfg y0 es))
      = snd (emit_all stringWidth cfg y0 es)
   /\ snd (emit_all stringWidth cfg y0 es) <= top cfg)
  /\ (forall (x indent_left : Q) (font_name : font) (font_size leading : Q)
             (c : canvas font) (y : Q) (line : str),
         (y - leading < MARGIN cfg ->
          draw_line cfg x indent_left font_name font_size leading (c, y) line
          = (c ++ [ShowPage; SetFont font_name font_size;
                   DrawString (x + indent_left) (top cfg - leading) line],
             top cfg - leading))
         /\ (MARGIN cfg <= y - leading ->
             draw_line cfg x indent_left font_name font_size leading (c, y)
               line
             = (c ++ [DrawString (x + indent_left) (y - leading) line],
                y - leading)))
  /\ (forall (c : canvas font) (pil_img : image) (x y right_x : Q)
             (font_name : font),
         img_w pil_img <> 0%Z -> img_h pil_img <> 0%Z ->
         let draw_h := inject_Z (img_h pil_img)
                       * image_scale cfg pil_img (right_x - x) in
         let draw_w := inject_Z (img_w pil_img)
                       * image_scale cfg pil_img (right_x - x) in
         (y - draw_h < MARGIN cfg ->
          draw_image cfg c pil_img x y right_x font_name
          = Some (c ++ [ShowPage;
                        DrawImage x (top cfg - draw_h) draw_w draw_h],
                  top cfg - draw_h))
         /\ (MARGIN cfg <= y - draw_h ->
             draw_image cfg c pil_img x y right_x font_name
             = Some (c ++ [DrawImage x (y - draw_h) draw_w draw_h],
                     y - draw_h))).
Proof.
  intros Hcfg Hes Hy0. split; [exact (emit_all_sound y0 es Hcfg Hes Hy0) |].
  split.
  - intros. apply draw_line_cases.
  - intros c pil_img x y right_x font_name Hw Hh.
    exact (draw_image_cases c pil_img x y right_x font_name Hw Hh).
Qed.

(** *** Paragraphs draw every wrapped line *)

Lemma drawn_lines_app (c c' : canvas font) :
  drawn_lines (c ++ c') = drawn_lines c ++ drawn_lines c'.
Proof. apply flat_map_app. Qed.

Lemma drawn_lines_draw_line (x indent_left : Q) (font_name : font)
    (font_size leading : Q) (st : canvas font * Q) (line : str) :
  drawn_lines
    (fst (draw_line cfg x indent_left font_name font_size leading st line))
  = drawn_lines (fst st) ++ [line].
Proof.
  destruct st as [c y]. unfold draw_line.
  destruct (Qlt_bool (y - leading) (MARGIN cfg)); cbn [fst];
    rewrite !drawn_lines_app; simpl; now rewrite ?app_nil_r.
Qed.

Lemma drawn_lines_draw_paragraph (c : canvas font) (text : str)
    (x y right_x : Q) (font_name : font) (font_size indent_left : Q) :
  drawn_lines (fst (draw_paragraph stringWidth cfg c text x y right_x
                      font_name font_size indent_left))
  = drawn_lines c
    ++ wrap_cjk_aware stringWidth text (right_x - (x + indent_left))
         font_name font_size.
Proof.
  unfold draw_paragraph.
  assert (E : drawn_lines (fst (c ++ [SetFont font_name font_size], y))
              = drawn_lines c)
    by (cbn [fst]; rewrite drawn_lines_app; simpl; now rewrite app_nil_r).
  rewrite <- E. generalize (c ++ [SetFont font_name font_size], y).
  generalize (wrap_cjk_aware stringWidth text (right_x - (x + indent_left))
                font_name font_size).
  intros lines. induction lines as [| line lines IH]; intros st.
  - simpl. now rewrite app_nil_r.
  - simpl fold_left. rewrite IH, drawn_lines_draw_line, <- app_assoc.
    reflexivity.
Qed.

(** C8 (amended). No maximum width is rejected: for a zero or negative
    maximum width, as for any other, [wrap_cjk_aware] returns at least
    one line and [draw_paragraph] goes on to draw every line it
    returned, in order. *)
Theorem draw_paragraph_draws_every_line (c : canvas font) (text : str)
    (x y right_x : Q) (font_name : font) (font_size indent_left : Q) :
  wrap_cjk_aware stringWidth text (right_x - (x + indent_left)) font_name
    font_size <> []
  /\ drawn_lines (fst (draw_paragraph stringWidth cfg c text x y right_x
                         font_name font_size indent_left))
     = drawn_lines c
       ++ wrap_cjk_aware stringWidth text (right_x - (x + indent_left))
            font_name font_size.
Proof.
  split; [apply wrap_cjk_aware_nonempty | apply drawn_lines_draw_paragraph].
Qed.

(** C10. The empty text wraps to exactly one line, the empty string;
    so [draw_paragraph] on the empty text sets the font, breaks the page
    if one leading does not fit above [MARGIN], sends exactly one
    draw-text command, of the empty string, and returns the offset one
    leading lower. *)
Theorem draw_paragraph_empty_text (c : canvas font) (x y right_x : Q)
    (font_name : font) (font_size indent_left max_width : Q) :
  wrap_cjk_aware stringWidth [] max_width font_name font_size = [[]]
  /\ (let leading := font_size * LINE_SPACING cfg in
      let break := Qlt_bool (y - leading) (MARGIN cfg) in
      let y' := if break then top cfg else y in
      draw_paragraph stringWidth cfg c [] x y right_x font_name font_size
        indent_left
      = (c ++ [SetFont font_name font_size]
           ++ (if break then [ShowPage; SetFont font_name font_size]
               else [])
           ++ [DrawString (x + indent_left) (y' - leading) []],
         y' - leading)).
Proof.
  split; [reflexivity |]. intros leading break y'.
  unfold draw_paragraph.
  change (wrap_cjk_aware stringWidth [] (right_x - (x + indent_left))
            font_name font_size) with [@nil char].
  cbn [fold_left]. unfold draw_line. fold leading. fold break.
  subst y'. destruct break.
  - now rewrite <- !app_assoc.
  - now rewrite <- !app_assoc.
Qed.

End Cursor.

(** ** The image scaler *)

Section ImageScaler.

Import PrimFloat.
Local Open Scope float_scope.

Lemma draw_image_float_cases (font : Type) (cfg : Float64.layout)
    (c : Float64.canvas font) (pil_img : Float64.image)
    (x y right_x : float) (font_name : font) :
  Float64.scaler_raises pil_img = false ->
  let scale := Float64.image_scale cfg pil_img (right_x - x) in
  let draw_w := Float64.float_of_int (Float64.img_w pil_img) * scale in
  let draw_h := Float64.float_of_int (Float64.img_h pil_img) * scale in
  exists (c' : Float64.canvas font) (y' : float),
    ((y - draw_h <? Float64.MARGIN cfg) = false /\ c' = c /\ y' = y
     \/ (y - draw_h <? Float64.MARGIN cfg) = true
        /\ c' = c ++ [Float64.ShowPage]
        /\ y' = Float64.page_h cfg - Float64.MARGIN cfg)
    /\ Float64.draw_image cfg c pil_img x y right_x font_name
       = if Float64.png pil_img
         then (c' ++ [Float64.DrawImage x (y' - draw_h) draw_w draw_h],
               Float64.Returned (y' - draw_h))
         else (c', Float64.Raised).
Proof.
  intros Hok scale draw_w draw_h. unfold Float64.draw_image. rewrite Hok.
  fold scale. fold draw_w. fold draw_h.
  destruct (y - draw_h <? Float64.MARGIN cfg).
  - exists (c ++ [Float64.ShowPage]),
      (Float64.page_h cfg - Float64.MARGIN cfg).
    split; [right; now repeat split | reflexivity].
  - exists c, y. split; [left; now repeat split | reflexivity].
Qed.

(** C6 (amended). When the scaler does not raise (no zero dimension,
    none beyond the floats), [draw_image] computes, each operation
    rounded to the nearest float,
    [scale = min(max_w / img_w, (page_h * fraction) / img_h)] and the
    drawn width and height [img_w * scale] and [img_h * scale], and
    draws the image at that size, at the cursor or, when the image
    does not fit above the margin, after a page break at the top edge,
    unless the encoding of the image raises. Width and
    height are the intrinsic ones times one and the same scale, each
    product rounded on its own: the aspect ratio is kept up to that
    rounding. An image of 2000 x 1000 under a maximum width of 500, a
    page height of 800 and the fraction 0.98 has the scale 0.25 and is
    drawn at 500 x 250, with no rounding. *)
Theorem draw_image_scaled (font : Type) (cfg : Float64.layout)
    (c : Float64.canvas font) (pil_img : Float64.image)
    (x y right_x : float) (font_name : font) :
  Float64.scaler_raises pil_img = false ->
  let max_w := right_x - x in
  let scale :=
    Float64.py_min
      (max_w / Float64.float_of_int (Float64.img_w pil_img))
      ((Float64.page_h cfg * Float64.IMAGE_MAX_HEIGHT_RATIO cfg)
       / Float64.float_of_int (Float64.img_h pil_img)) in
  let draw_w := Float64.float_of_int (Float64.img_w pil_img) * scale in
  let draw_h := Float64.float_of_int (Float64.img_h pil_img) * scale in
  (exists (c' : Float64.canvas font) (y' : float),
      ((y - draw_h <? Float64.MARGIN cfg) = false /\ c' = c /\ y' = y
       \/ (y - draw_h <? Float64.MARGIN cfg) = true
          /\ c' = c ++ [Float64.ShowPage]
          /\ y' = Float64.page_h cfg - Float64.MARGIN cfg)
      /\ Float64.draw_image cfg c pil_img x y right_x font_name
         = if Float64.png pil_img
           then (c' ++ [Float64.DrawImage x (y' - draw_h) draw_w draw_h],
                 Float64.Returned (y' - draw_h))
           else (c', Float64.Raised))
  /\ (Float64.img_w pil_img = 2000%Z -> Float64.img_h pil_img = 1000%Z ->
      max_w = 500 -> Float64.page_h cfg = 800 ->
      Float64.IMAGE_MAX_HEIGHT_RATIO cfg = 0.98 ->
      scale = 0.25 /\ draw_w = 500 /\ draw_h = 250).
Proof.
  intros Hok max_w scale draw_w draw_h. split.
  - exact (draw_image_float_cases font cfg c pil_img x y right_x font_name
             Hok).
  - intros Ew Eh Emax Epage Eratio.
    unfold draw_w, draw_h, scale. rewrite Ew, Eh, Emax, Epage, Eratio.
    repeat split; reflexivity.
Qed.

Lemma draw_image_scaled_witness :
  Float64.draw_image Float64.scenario_layout [] Float64.scenario_image
    0 800 500 tt
  = ([Float64.DrawImage 0 550 500 250], Float64.Returned 550).
Proof.
  destruct (draw_image_scaled unit Float64.scenario_layout []
              Float64.scenario_image 0 800 500 tt eq_refl)
    as [[c' [y' [Hc E]]] _].
  rewrite E. destruct Hc as [[_ [-> ->]] | [Hbreak _]]; [reflexivity |].
  vm_compute in Hbreak. discriminate Hbreak.
Defined.

(** C6, counterexample. On the A4 page of the source an image of
    640 x 480 that fills the width is drawn 595.2755905511812 wide and
    446.4566929133859 high: the first is 5236099468337991 / 2^43, the
    second 7854149202506987 / 2^44, and 480 times the first is not 640
    times the second. The drawn size is not in the ratio 4 : 3. *)
Lemma draw_image_ratio_is_rounded :
  Float64.draw_image Float64.source_layout ([] : Float64.canvas unit)
    Float64.vga_image 0 (Float64.page_h Float64.source_layout)
    (Float64.page_w Float64.source_layout) tt
  = ([Float64.DrawImage 0 395.43307086614181 595.27559055118115
        446.45669291338589],
     Float64.Returned 395.43307086614181)
  /\ ~ (Float64.to_Q 595.27559055118115 * inject_Z 480
        == Float64.to_Q 446.45669291338589 * inject_Z 640)%Q.
Proof.
  split; [vm_compute; reflexivity |].
  vm_compute. intros H. discriminate H.
Qed.

End ImageScaler.

(** ** A sample document on the source's page *)

Lemma source_layout_ok : layout_ok source_layout.
Proof. split; vm_compute; discriminate. Qed.

(** On the source's page every block of [convert_epub_to_pdf] is an
    emission that fits, so its paragraphs and images keep the cursor
    rules whatever the texts and the images are. *)
Lemma source_blocks_keep_cursor (font : Type)
    (stringWidth : str -> font -> Q -> Q) (font_name : font)
    (blocks : list (str + image)) (y0 : Q) :
  Forall block_ok blocks -> y0 <= top source_layout ->
  flow_ok source_layout y0
    (fst (emit_all stringWidth source_layout y0
            (map (block_emission font_name) blocks))).
Proof.
  intros Hb Hy0.
  apply (emit_all_sound font stringWidth source_layout y0);
    [exact source_layout_ok | | assumption].
  induction Hb as [| b blocks Hb _ IH]; [constructor |].
  simpl. constructor; [| exact IH].
  destruct b as [text | pil_img]; simpl.
  - split; vm_compute; discriminate.
  - destruct Hb as [Hw Hh]. repeat split; try assumption.
    vm_compute. discriminate.
Qed.

Lemma emissions_keep_cursor_witness :
  flow_ok source_layout (top source_layout)
    (fst (emit_all font_stringWidth source_layout (top source_layout)
            sample_emissions))
  /\ snd (emit_all font_stringWidth source_layout (top source_layout)
            sample_emissions) <= top source_layout.
Proof.
  destruct (emissions_keep_cursor (char -> Q) font_stringWidth source_layout
              (top source_layout) sample_emissions) as [[Hf [_ Hy]] _].
  - exact source_layout_ok.
  - repeat constructor; vm_compute; discriminate.
  - vm_compute. discriminate.
  - split; assumption.
Defined.

(** ** Counterexamples *)

(** C2, counterexample. One line at font size 700 has a leading of 945,
    more than the A4 page is high: [draw_paragraph] breaks the page and
    still draws the line below the bottom edge, leaving the offset under
    [MARGIN]. *)
Lemma draw_paragraph_tall_line_leaves_page :
  snd (emit_all font_stringWidth source_layout (top source_layout)
         [Paragraph [65%N] 0 (page_w source_layout) duospaced 700 0])
  < MARGIN source_layout
  /\ ~ flow_ok source_layout (top source_layout)
         (fst (emit_all font_stringWidth source_layout (top source_layout)
                 [Paragraph [65%N] 0 (page_w source_layout) duospaced 700 0])).
Proof.
  split.
  - vm_compute. reflexivity.
  - intros H. simpl in H. destruct H as [[_ [H _]] _].
    vm_compute in H. now apply H.
Qed.

(** C8, counterexample. With [right_x = x], a maximum width of 0, nothing
    is rejected: the text "A" is wrapped to the line "A" and
    [draw_paragraph] draws it. *)
Lemma draw_paragraph_zero_width_draws :
  0 - (0 + 0) <= 0
  /\ wrap_cjk_aware font_stringWidth [65%N] (0 - (0 + 0)) duospaced 20
     = [[65%N]]
  /\ draw_paragraph font_stringWidth source_layout [] [65%N] 0 100 0 duospaced
       20 0
     = ([SetFont duospaced 20;
         DrawString (0 + 0) (100 - 20 * (135 # 100)) [65%N]],
        100 - 20 * (135 # 100)).
Proof.
  split; [vm_compute; discriminate |]. split; reflexivity.
Qed.

(** * More properties *)

(** ** The shapes of the tokens *)

Lemma is_run_single_special (c : char) :
  isspace c = true \/ is_cjk_char c = true -> is_run [c] = false.
Proof.
  unfold is_run, ordinary. simpl. intros [H | H]; rewrite H; simpl;
    [reflexivity | now rewrite andb_false_r].
Qed.

Lemma is_run_single_ordinary (c : char) :
  isspace c = false -> is_cjk_char c = false -> is_run [c] = true.
Proof. unfold is_run, ordinary. simpl. now intros -> ->. Qed.

Lemma is_run_snoc (buf : str) (c : char) :
  is_run buf = true -> isspace c = false -> is_cjk_char c = false ->
  is_run (buf ++ [c]) = true.
Proof.
  unfold is_run. intros H Hs Hc. apply andb_prop in H. destruct H as [_ H].
  rewrite forallb_app, H. unfold ordinary. simpl. rewrite Hs, Hc.
  destruct buf; reflexivity.
Qed.

Lemma last_snoc (A : Type) (l : list A) (a d : A) : last (l ++ [a]) d = a.
Proof.
  induction l as [| b l IH]; [reflexivity |].
  simpl app. destruct (l ++ [a]) eqn:E.
  - now destruct l.
  - simpl. simpl in IH. exact IH.
Qed.

Lemma no_adjacent_runs_snoc (tokens : list str) (a : str) :
  no_adjacent_runs (tokens ++ [a])
  = no_adjacent_runs tokens && negb (is_run (last tokens []) && is_run a).
Proof.
  induction tokens as [| b tokens IH].
  - simpl. reflexivity.
  - destruct tokens as [| b' tokens].
    + simpl. now rewrite !andb_true_r.
    + change ((b :: b' :: tokens) ++ [a]) with (b :: (b' :: tokens) ++ [a]).
      change (no_adjacent_runs (b :: (b' :: tokens) ++ [a]))
        with (negb (is_run b && is_run b')
              && no_adjacent_runs ((b' :: tokens) ++ [a])).
      rewrite IH.
      change (no_adjacent_runs (b :: b' :: tokens))
        with (negb (is_run b && is_run b')
              && no_adjacent_runs (b' :: tokens)).
      change (last (b :: b' :: tokens) []) with (last (b' :: tokens) []).
      now rewrite andb_assoc.
Qed.

Lemma tokenize_step_shapes (st : tok_state) (ch : char) :
  tok_shapes st -> tok_shapes (tokenize_step st ch).
Proof.
  destruct st as [[tokens buf] last_cjk]. intros [Hshape [Hadj Hbuf]].
  unfold tokenize_step.
  set (c := if (ch =? NBSP)%N then SPACE else ch).
  (* what appending [buf] to [tokens] keeps *)
  assert (Hflush : nonempty buf = true ->
                   Forall token_shape (tokens ++ [buf])
                   /\ no_adjacent_runs (tokens ++ [buf]) = true).
  { intros Hne. rewrite no_adjacent_runs_snoc, Hadj.
    destruct last_cjk as [[|] |].
    - destruct Hbuf as [c0 [-> [Hc0 _]]].
      rewrite (is_run_single_special c0 (or_intror Hc0)), andb_false_r.
      split; [| reflexivity].
      apply Forall_snoc; [assumption |]. left. exists c0. now split; [| right].
    - destruct Hbuf as [Hrun Hlast]. rewrite Hlast. split; [| reflexivity].
      apply Forall_snoc; [assumption | now right].
    - destruct Hbuf as [-> _]. discriminate Hne. }
  destruct (isspace c) eqn:Hsp.
  - assert (Htok : Forall token_shape
                     (if nonempty buf then tokens ++ [buf] else tokens)
                   /\ no_adjacent_runs
                        (if nonempty buf then tokens ++ [buf] else tokens)
                      = true).
    { destruct (nonempty buf); [now apply Hflush | now split]. }
    destruct Htok as [H1 H2].
    split; [| split].
    + apply Forall_snoc; [assumption |]. left. exists c. now split; [| left].
    + rewrite no_adjacent_runs_snoc, H2.
      now rewrite (is_run_single_special c (or_introl Hsp)), andb_false_r.
    + split; [reflexivity |]. rewrite last_snoc.
      exact (is_run_single_special c (or_introl Hsp)).
  - destruct last_cjk as [last_cjk |].
    + assert (Hne : nonempty buf = true).
      { destruct last_cjk.
        - now destruct Hbuf as [c0 [-> _]].
        - destruct Hbuf as [Hrun _]. unfold is_run in Hrun.
          now apply andb_prop in Hrun. }
      destruct (Hflush Hne) as [H1 H2].
      destruct (is_cjk_char c) eqn:Hc; destruct last_cjk; simpl.
      * split; [assumption | split; [assumption |]]. now exists c.
      * split; [assumption | split; [assumption |]]. now exists c.
      * split; [assumption | split; [assumption |]].
        split; [now apply is_run_single_ordinary |].
        rewrite last_snoc. destruct Hbuf as [c0 [-> [Hc0 _]]].
        exact (is_run_single_special c0 (or_intror Hc0)).
      * split; [assumption | split; [assumption |]].
        destruct Hbuf as [Hrun Hlast]. split; [| assumption].
        now apply is_run_snoc.
    + destruct Hbuf as [-> Hlast].
      split; [assumption | split; [assumption |]].
      destruct (is_cjk_char c) eqn:Hc.
      * now exists c.
      * split; [now apply is_run_single_ordinary | assumption].
Qed.

Lemma tokenize_for_wrap_shapes (text : str) :
  Forall token_shape (tokenize_for_wrap text)
  /\ no_adjacent_runs (tokenize_for_wrap text) = true.
Proof.
  unfold tokenize_for_wrap.
  assert (H : tok_shapes (fold_left tokenize_step text ([], [], None))).
  { assert (H0 : tok_shapes ([], [], None))
      by (split; [constructor | split; [reflexivity | now split]]).
    revert H0. generalize (([], [], None) : tok_state).
    induction text as [| ch text IH]; intros st Hst; [exact Hst |].
    simpl. apply IH. now apply tokenize_step_shapes. }
  destruct (fold_left tokenize_step text ([], [], None))
    as [[tokens buf] last_cjk].
  destruct H as [Hshape [Hadj Hbuf]].
  destruct (nonempty buf) eqn:Hne; [| now split].
  rewrite no_adjacent_runs_snoc, Hadj.
  destruct last_cjk as [[|] |].
  - destruct Hbuf as [c0 [-> [Hc0 _]]].
    rewrite (is_run_single_special c0 (or_intror Hc0)), andb_false_r.
    split; [| reflexivity].
    apply Forall_snoc; [assumption |]. left. exists c0. now split; [| right].
  - destruct Hbuf as [Hrun Hlast]. rewrite Hlast. split; [| reflexivity].
    apply Forall_snoc; [assumption | now right].
  - destruct Hbuf as [-> _]. discriminate Hne.
Qed.

Lemma nbsp_to_space_visible (s : str) :
  forallb (fun c => negb (isspace c)) s = true -> nbsp_to_space s = s.
Proof.
  induction s as [| c s IH]; [reflexivity |].
  simpl. intros H. apply andb_prop in H. destruct H as [Hc Hs].
  rewrite (IH Hs). destruct (N.eqb_spec c NBSP) as [-> | _]; [| reflexivity].
  discriminate Hc.
Qed.

Lemma forallb_concat (A : Type) (f : A -> bool) (ls : list (list A)) :
  forallb f (concat ls) = true -> Forall (fun l => forallb f l = true) ls.
Proof.
  induction ls as [| l ls IH]; [constructor |].
  simpl. rewrite forallb_app. intros H. apply andb_prop in H.
  destruct H as [Hl Hls]. constructor; [assumption | now apply IH].
Qed.

Lemma ordinary_visible (s : str) :
  forallb ordinary s = true -> forallb (fun c => negb (isspace c)) s = true.
Proof.
  induction s as [| c s IH]; [reflexivity |].
  simpl. intros H. apply andb_prop in H. destruct H as [Hc Hs].
  rewrite (IH Hs). unfold ordinary in Hc. apply andb_prop in Hc.
  destruct Hc as [Hc _]. now rewrite Hc.
Qed.

Lemma singletons_concat (ts : list str) :
  Forall (fun tk => length tk = 1%nat) ts ->
  ts = map (fun c => [c]) (concat ts).
Proof.
  induction 1 as [| tk ts Htk _ IH]; [reflexivity |].
  destruct tk as [| c [| d tk]]; try discriminate Htk.
  simpl. now rewrite <- IH.
Qed.

(** X1. Every token is one of three things: a single whitespace
    character, a single ideographic character, or a non-empty run of
    characters that are neither; in particular no token is empty, and a
    token of two or more characters holds no whitespace and no
    ideographic character. *)
Theorem tokenize_for_wrap_token_shapes (text : str) :
  Forall (fun tk : str =>
            token_shape tk /\ tk <> []
            /\ ((1 < length tk)%nat -> forallb ordinary tk = true))
    (tokenize_for_wrap text).
Proof.
  destruct (tokenize_for_wrap_shapes text) as [H _].
  apply (Forall_impl _ (P := token_shape)); [| exact H].
  intros tk Htk. split; [exact Htk |].
  destruct Htk as [[c [-> _]] | Hrun].
  - split; [discriminate | simpl; lia].
  - unfold is_run in Hrun. apply andb_prop in Hrun.
    destruct Hrun as [Hne Hall].
    split; [now apply nonempty_true | now intros _].
Qed.

Lemma runs_at_most_one (ts : list str) :
  Forall (fun tk => is_run tk = true) ts -> no_adjacent_runs ts = true ->
  (length ts <= 1)%nat.
Proof.
  intros Hall Hadj. destruct ts as [| a [| b ts]]; simpl; try lia.
  inversion Hall as [| ? ? Ha Hrest]; subst.
  inversion Hrest as [| ? ? Hb _]; subst.
  simpl in Hadj. rewrite Ha, Hb in Hadj. discriminate Hadj.
Qed.

Lemma tokenize_ordinary (s : str) :
  s <> [] -> forallb ordinary s = true -> tokenize_for_wrap s = [s].
Proof.
  intros Hne Hord.
  destruct (tokenize_for_wrap_shapes s) as [Hshape Hadj].
  pose proof (tokenize_for_wrap_concat s) as Hcat.
  rewrite (nbsp_to_space_visible s (ordinary_visible s Hord)) in Hcat.
  assert (Hruns : Forall (fun tk => is_run tk = true) (tokenize_for_wrap s)).
  { rewrite <- Hcat in Hord. apply forallb_concat in Hord.
    rewrite Forall_forall in *. intros tk Hin.
    specialize (Hshape tk Hin). specialize (Hord tk Hin).
    destruct Hshape as [[c [-> Hc]] | Hrun]; [| exact Hrun].
    simpl in Hord. rewrite andb_true_r in Hord. unfold ordinary in Hord.
    apply andb_prop in Hord. destruct Hord as [H1 H2].
    destruct Hc as [Hc | Hc]; rewrite Hc in *; discriminate. }
  pose proof (runs_at_most_one _ Hruns Hadj) as Hlen.
  destruct (tokenize_for_wrap s) as [| a [| b ts]].
  - simpl in Hcat. congruence.
  - simpl in Hcat. rewrite app_nil_r in Hcat. now rewrite Hcat.
  - simpl in Hlen. lia.
Qed.

Lemma tokenize_ideographs (s : str) :
  forallb (fun c => is_cjk_char c && negb (isspace c)) s = true ->
  tokenize_for_wrap s = map (fun c => [c]) s.
Proof.
  intros Hcjk.
  destruct (tokenize_for_wrap_shapes s) as [Hshape _].
  pose proof (tokenize_for_wrap_concat s) as Hcat.
  assert (Hvis : forallb (fun c => negb (isspace c)) s = true).
  { clear - Hcjk. induction s as [| c s IH]; [reflexivity |].
    simpl in *. apply andb_prop in Hcjk. destruct Hcjk as [Hc Hs].
    apply andb_prop in Hc. destruct Hc as [_ Hc]. now rewrite Hc, IH. }
  rewrite (nbsp_to_space_visible s Hvis) in Hcat.
  rewrite <- Hcat at 2. apply singletons_concat.
  rewrite <- Hcat in Hcjk. apply forallb_concat in Hcjk.
  rewrite Forall_forall in *. intros tk Hin.
  specialize (Hshape tk Hin). specialize (Hcjk tk Hin).
  destruct Hshape as [[c [-> _]] | Hrun]; [reflexivity |].
  unfold is_run in Hrun. apply andb_prop in Hrun. destruct Hrun as [Hne Hord].
  destruct tk as [| c tk]; [discriminate Hne |].
  simpl in Hord, Hcjk. apply andb_prop in Hord, Hcjk.
  destruct Hord as [Hord _]. destruct Hcjk as [Hc _].
  unfold ordinary in Hord. apply andb_prop in Hord, Hc.
  destruct Hord as [_ Hord]. destruct Hc as [Hc _].
  rewrite Hc in Hord. discriminate Hord.
Qed.

(** X2. Runs are maximal: no two neighbouring tokens are both runs of
    ordinary characters, so a non-empty text without whitespace and
    without ideographic characters is a single token, however long. *)
Theorem tokenize_for_wrap_runs_maximal (text : str) :
  no_adjacent_runs (tokenize_for_wrap text) = true
  /\ (text <> [] -> forallb ordinary text = true ->
      tokenize_for_wrap text = [text]).
Proof.
  split; [apply tokenize_for_wrap_shapes |].
  intros Hne Hord. now apply tokenize_ordinary.
Qed.

Lemma tokenize_for_wrap_runs_maximal_witness :
  tokenize_for_wrap t_ABC = [t_ABC].
Proof.
  destruct (tokenize_for_wrap_runs_maximal t_ABC) as [_ H].
  apply H; [discriminate | reflexivity].
Defined.

(** X3. A text of ideographic characters that are not whitespace is cut
    into one token per character. *)
Theorem tokenize_for_wrap_ideographs (text : str) :
  forallb (fun c => is_cjk_char c && negb (isspace c)) text = true ->
  tokenize_for_wrap text = map (fun c => [c]) text.
Proof. exact (tokenize_ideographs text). Qed.

Lemma tokenize_for_wrap_ideographs_witness :
  tokenize_for_wrap t_nihongo = [[c_ni]; [c_hon]; [c_go]].
Proof.
  apply (tokenize_for_wrap_ideographs t_nihongo). reflexivity.
Defined.

(** ** Whitespace at the ends of lines and between words *)

Lemma rstrip_app (x y : str) :
  rstrip (x ++ y) = match rstrip y with [] => rstrip x | r => x ++ r end.
Proof.
  induction x as [| c x IH]; simpl.
  - now destruct (rstrip y).
  - rewrite IH. destruct (rstrip y) as [| d r]; [reflexivity |].
    now destruct x.
Qed.

Lemma rstrip_idem (s : str) : rstrip (rstrip s) = rstrip s.
Proof.
  induction s as [| c s IH]; [reflexivity |].
  simpl. destruct (rstrip s) as [| d r] eqn:E.
  - destruct (isspace c) eqn:Hc; [reflexivity |]. simpl. now rewrite Hc.
  - change (rstrip (c :: d :: r)) with
      (match rstrip (d :: r) with
       | [] => if isspace c then [] else [c]
       | r' => c :: r'
       end).
    now rewrite IH.
Qed.

Lemma space_free_visible (s : str) :
  forallb (fun c => negb (isspace c)) s = true -> space_free s = true.
Proof.
  unfold space_free. induction s as [| c s IH]; [reflexivity |].
  simpl. intros H. apply andb_prop in H. destruct H as [Hc Hs].
  rewrite (IH Hs), andb_true_r.
  destruct (N.eqb_spec c SPACE) as [-> | _]; [discriminate Hc | reflexivity].
Qed.

Lemma space_free_single (s : str) :
  space_free s = true -> spaces_single s.
Proof.
  unfold space_free, spaces_single. induction s as [| c s IH]; [now split |].
  simpl. intros H. apply andb_prop in H. destruct H as [Hc Hs].
  apply negb_true_iff in Hc. destruct (IH Hs) as [_ IH2].
  split; [exact Hc |]. rewrite IH2, andb_true_r.
  destruct s; [reflexivity |]. now rewrite Hc.
Qed.

Lemma no_double_space_app (a b : str) :
  no_double_space a = true -> space_free b = true ->
  no_double_space (a ++ b) = true.
Proof.
  intros Ha Hb. induction a as [| c a IH].
  - now apply space_free_single.
  - simpl in Ha. apply andb_prop in Ha. destruct Ha as [Hc Ha].
    specialize (IH Ha). simpl app.
    change (no_double_space (c :: a ++ b))
      with (match a ++ b with
            | [] => true
            | d :: _ => negb ((c =? SPACE)%N && (d =? SPACE)%N)
            end && no_double_space (a ++ b)).
    rewrite IH, andb_true_r.
    destruct a as [| d a]; [| exact Hc].
    simpl. destruct b as [| d b]; [reflexivity |].
    unfold space_free in Hb. simpl in Hb. apply andb_prop in Hb.
    destruct Hb as [Hd _]. apply negb_true_iff in Hd.
    now rewrite Hd, andb_false_r.
Qed.

Lemma no_double_space_snoc (a : str) :
  no_double_space a = true -> endswith_space a = false ->
  no_double_space (a ++ [SPACE]) = true.
Proof.
  induction a as [| c a IH]; [reflexivity |].
  intros Ha He. simpl in Ha. apply andb_prop in Ha. destruct Ha as [Hc Ha].
  destruct a as [| d a].
  - simpl in *. now rewrite He.
  - change (endswith_space (c :: d :: a)) with (endswith_space (d :: a)) in He.
    specialize (IH Ha He).
    change ((c :: d :: a) ++ [SPACE]) with (c :: (d :: a) ++ [SPACE]).
    change (no_double_space (c :: (d :: a) ++ [SPACE]))
      with (negb ((c =? SPACE)%N && (d =? SPACE)%N)
            && no_double_space ((d :: a) ++ [SPACE])).
    now rewrite IH, Hc.
Qed.

Lemma no_double_space_prefix (a b : str) :
  no_double_space (a ++ b) = true -> no_double_space a = true.
Proof.
  induction a as [| c a IH]; [reflexivity |].
  simpl app.
  change (no_double_space (c :: a ++ b))
    with (match a ++ b with
          | [] => true
          | d :: _ => negb ((c =? SPACE)%N && (d =? SPACE)%N)
          end && no_double_space (a ++ b)).
  intros H. apply andb_prop in H. destruct H as [Hc H].
  simpl. rewrite (IH H), andb_true_r. destruct a; [reflexivity | exact Hc].
Qed.

Lemma spaces_single_rstrip (s : str) :
  spaces_single s -> line_tidy (rstrip s).
Proof.
  intros [Hs Hd]. split; [apply rstrip_idem |].
  destruct (rstrip_prefix s) as [t Ht]. split.
  - destruct (rstrip s) as [| c r]; [reflexivity |].
    rewrite Ht in Hs. exact Hs.
  - rewrite Ht in Hd. now apply no_double_space_prefix in Hd.
Qed.

Lemma visible_line_tidy (s : str) :
  forallb (fun c => negb (isspace c)) s = true -> line_tidy s.
Proof.
  intros H. split; [now apply rstrip_all_visible |].
  now apply space_free_single, space_free_visible.
Qed.

(** A token other than " " holds no space. *)
Lemma token_space_free (tk : str) :
  token_shape tk -> PyStr.eqb tk [SPACE] = false -> space_free tk = true.
Proof.
  intros [[c [-> Hc]] | Hrun] Hne.
  - unfold space_free. simpl. rewrite andb_true_r.
    destruct (N.eqb_spec c SPACE) as [-> | _]; [| reflexivity].
    apply eqb_false in Hne. congruence.
  - unfold is_run in Hrun. apply andb_prop in Hrun. destruct Hrun as [_ H].
    now apply space_free_visible, ordinary_visible.
Qed.

Section WrapTidy.

Variable font : Type.
Variable stringWidth : str -> font -> Q -> Q.
Variables (max_width : Q) (font_name : font) (font_size : Q).

Local Abbreviation fits' :=
  (fits stringWidth max_width font_name font_size).
Local Abbreviation split_step' :=
  (split_step stringWidth max_width font_name font_size).
Local Abbreviation split_token' :=
  (split_token stringWidth max_width font_name font_size).
Local Abbreviation wrap_token' :=
  (wrap_token stringWidth max_width font_name font_size).
Local Abbreviation wrap_line' :=
  (wrap_line stringWidth max_width font_name font_size).

Lemma split_step_tidy (st : list str * str) (ch : char) :
  isspace ch = false ->
  Forall line_tidy (fst st) ->
  forallb (fun c => negb (isspace c)) (snd st) = true ->
  Forall line_tidy (fst (split_step' st ch))
  /\ forallb (fun c => negb (isspace c)) (snd (split_step' st ch)) = true.
Proof.
  destruct st as [lines piece]. cbn [fst snd]. intros Hch Hl Hp.
  unfold split_step. destruct (fits' (piece ++ [ch])); cbn [fst snd].
  - split; [assumption |]. rewrite forallb_app, Hp. simpl. now rewrite Hch.
  - split; [| simpl; now rewrite Hch].
    destruct (nonempty piece); [| assumption].
    apply Forall_snoc; [assumption | now apply visible_line_tidy].
Qed.

Lemma split_token_tidy (lines : list str) (add : str) :
  forallb (fun c => negb (isspace c)) add = true ->
  Forall line_tidy lines ->
  Forall line_tidy (fst (split_token' lines add))
  /\ forallb (fun c => negb (isspace c)) (snd (split_token' lines add))
     = true.
Proof.
  intros Hadd Hl. unfold split_token.
  assert (H : forall st,
             Forall line_tidy (fst st) ->
             forallb (fun c => negb (isspace c)) (snd st) = true ->
             Forall line_tidy (fst (fold_left split_step' add st))
             /\ forallb (fun c => negb (isspace c))
                  (snd (fold_left split_step' add st)) = true).
  { induction add as [| ch add IH]; intros st H1 H2; [now split |].
    simpl in Hadd. apply andb_prop in Hadd. destruct Hadd as [Hch Hadd].
    apply negb_true_iff in Hch. simpl fold_left.
    destruct (split_step_tidy st ch Hch H1 H2) as [H1' H2'].
    now apply IH. }
  now apply H.
Qed.

(** Splitting a token that is not " " leaves tidy lines and an open line
    with single spaces. *)
Lemma split_token_shape_tidy (lines : list str) (add : str) :
  token_shape add -> PyStr.eqb add [SPACE] = false ->
  Forall line_tidy lines ->
  Forall line_tidy (fst (split_token' lines add))
  /\ spaces_single (snd (split_token' lines add)).
Proof.
  intros Hshape Hne Hl.
  destruct Hshape as [[c [-> Hc]] | Hrun].
  - rewrite (split_token_single font stringWidth max_width font_name
               font_size). cbn [fst snd].
    split; [assumption |].
    apply space_free_single, token_space_free; [| assumption].
    left. now exists c.
  - unfold is_run in Hrun. apply andb_prop in Hrun. destruct Hrun as [_ H].
    destruct (split_token_tidy lines add (ordinary_visible add H) Hl)
      as [H1 H2].
    split; [assumption |].
    now apply space_free_single, space_free_visible.
Qed.

Lemma wrap_token_tidy (st : list str * str) (tk : str) :
  token_shape tk -> tidy_state st -> tidy_state (wrap_token' st tk).
Proof.
  destruct st as [lines cur]. intros Hshape [Hl [Hs Hd]].
  cbn [fst snd] in *. unfold wrap_token.
  destruct (PyStr.eqb tk [SPACE]) eqn:Hsp.
  - destruct (nonempty cur) eqn:Hne; simpl andb; [| now repeat split].
    destruct (endswith_space cur) eqn:He; simpl negb; cbv iota;
      [now repeat split |].
    destruct (fits' (cur ++ [SPACE])); [| now repeat split].
    split; [assumption |]. cbn [snd]. split.
    + destruct cur; [discriminate Hne | exact Hs].
    + now apply no_double_space_snoc.
  - pose proof (token_space_free tk Hshape Hsp) as Hfree.
    destruct (PyStr.eqb cur []) eqn:Hcur.
    + destruct (fits' tk).
      * split; [assumption | now apply space_free_single].
      * now apply split_token_shape_tidy.
    + destruct (fits' (cur ++ tk)).
      * split; [assumption |]. cbn [snd]. split.
        -- apply eqb_false in Hcur. destruct cur; [congruence | exact Hs].
        -- now apply no_double_space_app.
      * assert (Hl' : Forall line_tidy (lines ++ [rstrip cur])).
        { apply Forall_snoc; [assumption |].
          apply spaces_single_rstrip. now split. }
        destruct (fits' tk); simpl negb; cbv iota.
        -- split; [assumption | now apply space_free_single].
        -- now apply split_token_shape_tidy.
Qed.

Lemma wrap_line_tidy (lines : list str) (raw : str) :
  Forall line_tidy lines -> Forall line_tidy (wrap_line' lines raw).
Proof.
  intros Hl. unfold wrap_line.
  assert (Hnil : line_tidy []) by (split; [reflexivity | now split]).
  destruct (strip_is_empty raw && negb (PyStr.eqb raw [])).
  - now apply Forall_snoc.
  - destruct (tokenize_for_wrap_shapes raw) as [Hshape _].
    assert (H : tidy_state
                  (fold_left wrap_token' (tokenize_for_wrap raw) (lines, []))).
    { assert (H0 : tidy_state (lines, []))
        by (split; [assumption | now split]).
      revert H0. generalize (lines, @nil char).
      induction Hshape as [| tk tokens Htk _ IH]; intros st Hst;
        [exact Hst |].
      simpl. apply IH. now apply wrap_token_tidy. }
    destruct (fold_left wrap_token' (tokenize_for_wrap raw) (lines, []))
      as [lines' cur].
    destruct H as [Hl' Hc]. cbn [fst snd] in *.
    apply Forall_snoc; [assumption | now apply spaces_single_rstrip].
Qed.

Lemma wrap_cjk_aware_tidy (text : str) :
  Forall line_tidy
    (wrap_cjk_aware stringWidth text max_width font_name font_size).
Proof.
  unfold wrap_cjk_aware.
  match goal with
  | |- context [fold_left _ ?r _] => generalize r
  end.
  assert (H : forall raws lines,
             Forall line_tidy lines ->
             Forall line_tidy (fold_left wrap_line' raws lines)).
  { induction raws as [| raw raws IH]; intros lines Hl; [exact Hl |].
    simpl. apply IH. now apply wrap_line_tidy. }
  intros raws. apply H. constructor.
Qed.

(** X4. No line returned by [wrap_cjk_aware] ends in whitespace (space,
    tab, ideographic space or any other), whatever the width function
    and the maximum width: stripping a returned line changes nothing. *)
Theorem wrap_cjk_aware_no_trailing_whitespace (text : str) :
  Forall (fun L : str => rstrip L = L)
    (wrap_cjk_aware stringWidth text max_width font_name font_size).
Proof.
  apply (Forall_impl _ (P := line_tidy)); [| apply wrap_cjk_aware_tidy].
  now intros L [H _].
Qed.

(** X5. Spaces come out single: no returned line starts with U+0020,
    ends with it, or holds two of them side by side, however many spaces
    and non-breaking spaces the input has between two words. *)
Theorem wrap_cjk_aware_single_spaces (text : str) :
  Forall (fun L : str =>
            starts_with_space L = false /\ endswith_space L = false
            /\ no_double_space L = true)
    (wrap_cjk_aware stringWidth text max_width font_name font_size).
Proof.
  apply (Forall_impl _ (P := line_tidy)); [| apply wrap_cjk_aware_tidy].
  intros L [Hstrip [Hs Hd]]. repeat split; try assumption.
  clear - Hstrip. induction L as [| c L IH]; [reflexivity |].
  simpl in Hstrip. destruct (rstrip L) as [| d r] eqn:E.
  - destruct (isspace c) eqn:Hc; [discriminate Hstrip |].
    injection Hstrip as <-. simpl.
    destruct (N.eqb_spec c SPACE) as [-> | _]; [discriminate Hc | reflexivity].
  - injection Hstrip as <-. exact (IH eq_refl).
Qed.

End WrapTidy.

(** ** Sub-lines are wrapped one by one *)

Lemma splitlines_no_linebreak (text : str) :
  Forall (fun raw => forallb (fun c => negb (is_linebreak c)) raw = true)
    (splitlines text).
Proof.
  assert (H : forall n s, (length s <= n)%nat ->
                          Forall (fun raw =>
                                    forallb (fun c => negb (is_linebreak c))
                                      raw = true) (splitlines s)).
  { induction n as [| n IH]; intros s Hlen.
    - destruct s; [constructor | simpl in Hlen; lia].
    - destruct s as [| c s']; [constructor |].
      simpl in Hlen. simpl splitlines.
      destruct (is_linebreak c) eqn:Hlb.
      + constructor; [reflexivity |].
        destruct (c =? CR)%N; [| apply IH; lia].
        destruct s' as [| d s'']; [constructor |].
        destruct (d =? LF)%N; apply IH; simpl in *; lia.
      + pose proof (IH s' ltac:(lia)) as Hs'.
        destruct (splitlines s') as [| l ls].
        * constructor; [| constructor]. simpl. now rewrite Hlb.
        * inversion Hs' as [| ? ? Hl Hls]; subst.
          constructor; [| assumption]. simpl. now rewrite Hlb. }
  now apply (H (length text)).
Qed.

Lemma splitlines_one_line (raw : str) :
  forallb (fun c => negb (is_linebreak c)) raw = true -> raw <> [] ->
  splitlines raw = [raw].
Proof.
  induction raw as [| c raw IH]; [congruence |].
  simpl. intros H _. apply andb_prop in H. destruct H as [Hc Hraw].
  apply negb_true_iff in Hc. rewrite Hc.
  destruct raw as [| d raw]; [reflexivity |].
  rewrite (IH Hraw); [reflexivity | discriminate].
Qed.

Lemma source_lines_one_line (raw : str) :
  forallb (fun c => negb (is_linebreak c)) raw = true ->
  source_lines raw = [raw].
Proof.
  intros H. unfold source_lines. destruct raw as [| c raw]; [reflexivity |].
  rewrite (splitlines_one_line (c :: raw) H); [reflexivity | discriminate].
Qed.

Lemma source_lines_no_linebreak (text : str) :
  Forall (fun raw => forallb (fun c => negb (is_linebreak c)) raw = true)
    (source_lines text).
Proof.
  unfold source_lines. pose proof (splitlines_no_linebreak text) as H.
  destruct (splitlines text); [| exact H].
  constructor; [reflexivity | constructor].
Qed.

Section WrapLines.

Variable font : Type.
Variable stringWidth : str -> font -> Q -> Q.
Variables (max_width : Q) (font_name : font) (font_size : Q).

Local Abbreviation fits' :=
  (fits stringWidth max_width font_name font_size).
Local Abbreviation split_step' :=
  (split_step stringWidth max_width font_name font_size).
Local Abbreviation split_token' :=
  (split_token stringWidth max_width font_name font_size).
Local Abbreviation wrap_token' :=
  (wrap_token stringWidth max_width font_name font_size).
Local Abbreviation wrap_line' :=
  (wrap_line stringWidth max_width font_name font_size).
Local Abbreviation wrap' text :=
  (wrap_cjk_aware stringWidth text max_width font_name font_size).

(** The lines already finished play no part in a loop: they are carried
    along in front of the new ones. *)
Lemma split_step_acc (acc lines : list str) (piece : str) (ch : char) :
  split_step' (acc ++ lines, piece) ch
  = (acc ++ fst (split_step' (lines, piece) ch),
     snd (split_step' (lines, piece) ch)).
Proof.
  unfold split_step.
  destruct (fits' (piece ++ [ch])); [reflexivity |].
  destruct (nonempty piece); [| reflexivity].
  cbn [fst snd]. now rewrite app_assoc.
Qed.

Lemma split_fold_acc (acc : list str) (add : str) (lines : list str)
    (piece : str) :
  fold_left split_step' add (acc ++ lines, piece)
  = (acc ++ fst (fold_left split_step' add (lines, piece)),
     snd (fold_left split_step' add (lines, piece))).
Proof.
  revert lines piece. induction add as [| ch add IH]; intros lines piece;
    [reflexivity |].
  cbn [fold_left]. rewrite split_step_acc.
  destruct (split_step' (lines, piece) ch) as [lines' piece']. apply IH.
Qed.

Lemma split_token_acc (acc lines : list str) (add : str) :
  split_token' (acc ++ lines) add
  = (acc ++ fst (split_token' lines add), snd (split_token' lines add)).
Proof. unfold split_token. apply split_fold_acc. Qed.

Lemma wrap_token_acc (acc lines : list str) (cur tk : str) :
  wrap_token' (acc ++ lines, cur) tk
  = (acc ++ fst (wrap_token' (lines, cur) tk),
     snd (wrap_token' (lines, cur) tk)).
Proof.
  unfold wrap_token.
  destruct (PyStr.eqb tk [SPACE]).
  - destruct (nonempty cur && negb (endswith_space cur)); [| reflexivity].
    destruct (fits' (cur ++ [SPACE])); reflexivity.
  - destruct (PyStr.eqb cur []).
    + destruct (fits' tk); [reflexivity | apply split_token_acc].
    + destruct (fits' (cur ++ tk)); [reflexivity |].
      destruct (negb (fits' tk)).
      * rewrite <- app_assoc. apply split_token_acc.
      * cbn [fst snd]. now rewrite app_assoc.
Qed.

Lemma wrap_fold_acc (acc : list str) (tokens : list str)
    (lines : list str) (cur : str) :
  fold_left wrap_token' tokens (acc ++ lines, cur)
  = (acc ++ fst (fold_left wrap_token' tokens (lines, cur)),
     snd (fold_left wrap_token' tokens (lines, cur))).
Proof.
  revert lines cur. induction tokens as [| tk tokens IH]; intros lines cur;
    [reflexivity |].
  cbn [fold_left]. rewrite wrap_token_acc.
  destruct (wrap_token' (lines, cur) tk) as [lines' cur']. apply IH.
Qed.

Lemma wrap_line_acc (acc : list str) (raw : str) :
  wrap_line' acc raw = acc ++ wrap_line' [] raw.
Proof.
  unfold wrap_line.
  destruct (strip_is_empty raw && negb (PyStr.eqb raw [])); [reflexivity |].
  pose proof (wrap_fold_acc acc (tokenize_for_wrap raw) [] []) as H.
  rewrite app_nil_r in H. rewrite H.
  destruct (fold_left wrap_token' (tokenize_for_wrap raw) ([], []))
    as [lines cur].
  cbn [fst snd]. now rewrite app_assoc.
Qed.

Lemma wrap_lines_flat_map (raws : list str) (acc : list str) :
  fold_left wrap_line' raws acc = acc ++ flat_map (wrap_line' []) raws.
Proof.
  revert acc. induction raws as [| raw raws IH]; intros acc.
  - simpl. now rewrite app_nil_r.
  - simpl. rewrite IH, wrap_line_acc, <- app_assoc. reflexivity.
Qed.

Lemma wrap_cjk_aware_flat_map (text : str) :
  wrap' text = flat_map (wrap_line' []) (source_lines text).
Proof.
  unfold wrap_cjk_aware. fold (source_lines text).
  now rewrite wrap_lines_flat_map.
Qed.

Lemma wrap_one_line (raw : str) :
  forallb (fun c => negb (is_linebreak c)) raw = true ->
  wrap' raw = wrap_line' [] raw.
Proof.
  intros H. rewrite wrap_cjk_aware_flat_map, (source_lines_one_line raw H).
  simpl. now rewrite app_nil_r.
Qed.

Lemma wrap_cjk_aware_by_lines (text : str) :
  wrap' text = flat_map (fun raw => wrap' raw) (source_lines text).
Proof.
  rewrite wrap_cjk_aware_flat_map.
  pose proof (source_lines_no_linebreak text) as H.
  induction H as [| raw raws Hraw _ IH]; [reflexivity |].
  simpl. now rewrite IH, (wrap_one_line raw Hraw).
Qed.

(** X6. Sub-lines are wrapped independently: wrapping a text gives the
    lines of wrapping each of its sub-lines ([text.splitlines()], or one
    empty line) on its own, one after the other; so a line break in the
    input always ends an output line, and the lines before it do not
    depend on what follows. *)
Theorem wrap_cjk_aware_line_by_line (text : str) :
  wrap_cjk_aware stringWidth text max_width font_name font_size
  = flat_map
      (fun raw => wrap_cjk_aware stringWidth raw max_width font_name font_size)
      (source_lines text).
Proof. exact (wrap_cjk_aware_by_lines text). Qed.

End WrapLines.

(** ** Words that fit are not split *)






Section WrapWords.

Variable font : Type.
Variable stringWidth : str -> font -> Q -> Q.
Variables (max_width : Q) (font_name : font) (font_size : Q).

Local Abbreviation fits' :=
  (fits stringWidth max_width font_name font_size).
Local Abbreviation split_token' :=
  (split_token stringWidth max_width font_name font_size).
Local Abbreviation wrap_token' :=
  (wrap_token stringWidth max_width font_name font_size).
Local Abbreviation wrap_line' :=
  (wrap_line stringWidth max_width font_name font_size).

(** The word [tk], a non-empty string without whitespace. *)
Variable tk : str.
Hypothesis tk_nonempty : tk <> [].
Hypothesis tk_visible : forallb (fun c => negb (isspace c)) tk = true.






End WrapWords.



(** ** The whole document: what is set, and in which font *)

Section Typeset.

Variable font : Type.
Variable stringWidth : str -> font -> Q -> Q.
Variable cfg : layout.
Variable normpath_join : str -> str -> str.

(** The font in force when the canvas is created: none of the user's. *)
Variable st0 : option (font * Q).

Lemma font_after_app (st : option (font * Q)) (c c' : canvas font) :
  font_after st (c ++ c') = font_after (font_after st c) c'.
Proof.
  revert st. induction c as [| cmd c IH]; intros st; [reflexivity |].
  destruct cmd; simpl; apply IH.
Qed.

Lemma typeset_app (st : option (font * Q)) (c c' : canvas font) :
  typeset st (c ++ c') = typeset st c ++ typeset (font_after st c) c'.
Proof.
  revert st. induction c as [| cmd c IH]; intros st; [reflexivity |].
  destruct cmd; simpl; rewrite ?IH; reflexivity.
Qed.

Lemma sets_line_fold (font_name : font) (font_size : Q)
    (step : canvas font * Q -> str -> canvas font * Q) :
  sets_line st0 font_name font_size step ->
  forall (lines : list str) (st : canvas font * Q),
    in_font st0 font_name font_size st ->
    typeset st0 (fst (fold_left step lines st))
    = typeset st0 (fst st) ++ set_in font_name font_size lines
    /\ in_font st0 font_name font_size (fold_left step lines st).
Proof.
  intros Hstep lines. induction lines as [| line lines IH]; intros st Hst.
  - simpl. now rewrite app_nil_r.
  - simpl fold_left. destruct (Hstep st line Hst) as [H1 H2].
    destruct (IH _ H2) as [H3 H4]. split; [| exact H4].
    rewrite H3, H1, <- app_assoc. reflexivity.
Qed.

(** The shape the three line loops share: a page break that sets the
    font again, then the string. *)
Lemma break_then_draw (font_name : font) (font_size : Q) (c : canvas font)
    (break : bool) (x y : Q) (line : str) :
  font_after st0 c = Some (font_name, font_size) ->
  typeset st0
    ((if break then c ++ [ShowPage; SetFont font_name font_size] else c)
     ++ [DrawString x y line])
  = typeset st0 c ++ [(line, Some (font_name, font_size))]
  /\ font_after st0
       ((if break then c ++ [ShowPage; SetFont font_name font_size] else c)
        ++ [DrawString x y line])
     = Some (font_name, font_size).
Proof.
  intros Hc. destruct break.
  - rewrite !typeset_app, !font_after_app. simpl.
    now rewrite app_nil_r.
  - rewrite typeset_app, font_after_app, Hc. now simpl.
Qed.

Lemma draw_line_sets (x indent_left : Q) (font_name : font)
    (font_size leading : Q) :
  sets_line st0 font_name font_size
    (draw_line cfg x indent_left font_name font_size leading).
Proof.
  intros [c y] line Hst. unfold in_font in *. cbn [fst] in Hst.
  unfold draw_line.
  destruct (break_then_draw font_name font_size c
              (Qlt_bool (y - leading) (MARGIN cfg)) (x + indent_left)
              ((if Qlt_bool (y - leading) (MARGIN cfg)
                then page_h cfg - MARGIN cfg else y) - leading) line Hst)
    as [H1 H2].
  destruct (Qlt_bool (y - leading) (MARGIN cfg)); cbn [fst]; now split.
Qed.

Lemma draw_title_line_sets (x_left : Q) (font_name : font) :
  sets_line st0 font_name 26 (draw_title_line cfg x_left font_name).
Proof.
  intros [c y] line Hst. unfold in_font in *. cbn [fst] in Hst.
  unfold draw_title_line.
  destruct (break_then_draw font_name 26 c
              (Qlt_bool (y - 30) (MARGIN cfg)) x_left
              ((if Qlt_bool (y - 30) (MARGIN cfg)
                then page_h cfg - MARGIN cfg else y) - 30) line Hst)
    as [H1 H2].
  destruct (Qlt_bool (y - 30) (MARGIN cfg)); cbn [fst]; now split.
Qed.

Lemma draw_chapter_title_line_sets (x_left : Q) (font_name : font) :
  sets_line st0 font_name H1_SIZE (draw_chapter_title_line cfg x_left font_name).
Proof.
  intros [c y] line Hst. unfold in_font in *. cbn [fst] in Hst.
  unfold draw_chapter_title_line.
  destruct (break_then_draw font_name H1_SIZE c
              (Qlt_bool (y - (H1_SIZE + 6)) (MARGIN cfg)) x_left
              ((if Qlt_bool (y - (H1_SIZE + 6)) (MARGIN cfg)
                then page_h cfg - MARGIN cfg else y) - (H1_SIZE + 6)) line
              Hst)
    as [H1 H2].
  destruct (Qlt_bool (y - (H1_SIZE + 6)) (MARGIN cfg)); cbn [fst];
    now split.
Qed.

(** A loop entered right after [setFont]. *)
Lemma set_font_then_fold (font_name : font) (font_size : Q)
    (step : canvas font * Q -> str -> canvas font * Q)
    (c : canvas font) (y : Q) (lines : list str) :
  sets_line st0 font_name font_size step ->
  typeset st0
    (fst (fold_left step lines (c ++ [SetFont font_name font_size], y)))
  = typeset st0 c ++ set_in font_name font_size lines.
Proof.
  intros Hstep.
  destruct (sets_line_fold font_name font_size step Hstep lines
              (c ++ [SetFont font_name font_size], y)) as [H _].
  - unfold in_font. cbn [fst]. now rewrite font_after_app.
  - rewrite H. cbn [fst]. rewrite typeset_app. simpl.
    now rewrite app_nil_r.
Qed.

Lemma typeset_draw_paragraph (c : canvas font) (text : str)
    (x y right_x : Q) (font_name : font) (font_size indent_left : Q) :
  typeset st0
    (fst (draw_paragraph stringWidth cfg c text x y right_x font_name
            font_size indent_left))
  = typeset st0 c
    ++ set_in font_name font_size
         (wrap_cjk_aware stringWidth text (right_x - (x + indent_left))
            font_name font_size).
Proof.
  unfold draw_paragraph. apply set_font_then_fold, draw_line_sets.
Qed.

Lemma typeset_draw_image (c : canvas font) (pil_img : image)
    (x y right_x : Q) (font_name : font) (st' : canvas font * Q) :
  draw_image cfg c pil_img x y right_x font_name = Some st' ->
  typeset st0 (fst st') = typeset st0 c.
Proof.
  unfold draw_image.
  destruct ((img_w pil_img =? 0)%Z || (img_h pil_img =? 0)%Z);
    [discriminate |].
  destruct (Qlt_bool _ _); intros H; injection H as <-; cbn [fst];
    rewrite !typeset_app; simpl; now rewrite !app_nil_r.
Qed.

Lemma typeset_draw_block (table : str -> option item) (name : str)
    (font_name : font) (c : canvas font) (y : Q) (b : block) :
  typeset st0
    (fst (draw_block stringWidth cfg normpath_join table name (MARGIN cfg)
            (page_w cfg - MARGIN cfg) font_name (c, y) b))
  = typeset st0 c
    ++ set_in font_name DEFAULT_FONT_SIZE
         (block_lines font stringWidth cfg font_name b).
Proof.
  assert (Hnone : typeset st0 c = typeset st0 c ++ set_in font_name
                                    DEFAULT_FONT_SIZE [])
    by (simpl; now rewrite app_nil_r).
  unfold draw_block, block_lines.
  destruct (b_name b); try exact Hnone; try apply typeset_draw_paragraph.
  destruct (b_src b) as [src |]; [| exact Hnone].
  destruct (nonempty src); [| exact Hnone].
  destruct (find_target normpath_join table name src) as [target |];
    [| exact Hnone].
  destruct (is_image target); [| exact Hnone].
  destruct (pil target) as [pil_img |]; [| exact Hnone].
  destruct (draw_image cfg c pil_img (MARGIN cfg) y
              (page_w cfg - MARGIN cfg) font_name) as [st' |] eqn:E;
    [| exact Hnone].
  rewrite (typeset_draw_image c pil_img _ _ _ _ st' E). exact Hnone.
Qed.

Lemma typeset_draw_blocks (table : str -> option item) (name : str)
    (font_name : font) (blocks : list block) (st : canvas font * Q) :
  typeset st0
    (fst (fold_left
            (draw_block stringWidth cfg normpath_join table name (MARGIN cfg)
               (page_w cfg - MARGIN cfg) font_name) blocks st))
  = typeset st0 (fst st)
    ++ set_in font_name DEFAULT_FONT_SIZE
         (flat_map (block_lines font stringWidth cfg font_name) blocks).
Proof.
  revert st. induction blocks as [| b blocks IH]; intros st.
  - simpl. now rewrite app_nil_r.
  - simpl fold_left. rewrite IH. destruct st as [c y].
    rewrite typeset_draw_block. cbn [fst]. simpl flat_map.
    unfold set_in. now rewrite map_app, app_assoc.
Qed.

Lemma typeset_draw_chapter (table : str -> option item) (font_name : font)
    (st : canvas font * Q) (entry : option chapter) :
  typeset st0
    (fst (draw_chapter stringWidth cfg normpath_join table (MARGIN cfg)
            (page_w cfg - MARGIN cfg) font_name st entry))
  = typeset st0 (fst st)
    ++ chapter_typeset font stringWidth cfg font_name entry.
Proof.
  destruct entry as [ch |]; [| simpl; now rewrite app_nil_r].
  unfold draw_chapter, chapter_typeset, chapter_title_lines.
  assert (Htitle :
            typeset st0
              (fst (draw_chapter_title stringWidth cfg (MARGIN cfg)
                      (page_w cfg - MARGIN cfg) font_name st
                      (chapter_title ch)))
            = typeset st0 (fst st)
              ++ set_in font_name H1_SIZE
                   match chapter_title ch with
                   | Some text =>
                       wrap_cjk_aware stringWidth text
                         (content_width cfg) font_name H1_SIZE
                   | None => []
                   end).
  { destruct st as [c y]. unfold draw_chapter_title.
    destruct (chapter_title ch) as [text |];
      [| simpl; now rewrite app_nil_r].
    pose proof (set_font_then_fold font_name H1_SIZE
                  (draw_chapter_title_line cfg (MARGIN cfg) font_name) c y
                  (wrap_cjk_aware stringWidth text
                     (page_w cfg - MARGIN cfg - MARGIN cfg) font_name H1_SIZE)
                  (draw_chapter_title_line_sets (MARGIN cfg) font_name))
      as H.
    destruct (fold_left _ _ _) as [c' y']. cbn [fst] in *. exact H. }
  destruct (draw_chapter_title stringWidth cfg (MARGIN cfg)
              (page_w cfg - MARGIN cfg) font_name st (chapter_title ch))
    as [c1 y1].
  pose proof (typeset_draw_blocks table (ch_name ch) font_name (ch_blocks ch)
                (c1, y1)) as Hblocks.
  destruct (fold_left _ (ch_blocks ch) (c1, y1)) as [c2 y2].
  cbn [fst] in *.
  assert (Hend : typeset st0
                   (fst (if Qlt_bool (y2 - 4) (MARGIN cfg + 20)
                         then (c2 ++ [ShowPage], page_h cfg - MARGIN cfg)
                         else (c2, y2 - 4)))
                 = typeset st0 c2).
  { destruct (Qlt_bool (y2 - 4) (MARGIN cfg + 20)); [| reflexivity].
    cbn [fst]. rewrite typeset_app. simpl. now rewrite app_nil_r. }
  cbv beta iota zeta. etransitivity; [exact Hend |].
  rewrite Hblocks, Htitle, <- app_assoc. reflexivity.
Qed.

Lemma typeset_convert (bk : book) (font_name : font) :
  typeset st0
    (fst (convert_epub_to_pdf stringWidth cfg normpath_join bk font_name))
  = book_typeset font stringWidth cfg bk font_name.
Proof.
  unfold convert_epub_to_pdf, book_typeset, title_lines.
  assert (Htitle :
            typeset st0
              (fst (draw_title stringWidth cfg (MARGIN cfg)
                      (page_w cfg - MARGIN cfg) font_name
                      ([], page_h cfg - MARGIN cfg) (dc_title bk)))
            = set_in font_name 26
                match dc_title bk with
                | Some text =>
                    if nonempty text
                    then wrap_cjk_aware stringWidth text (content_width cfg)
                           font_name 26
                    else []
                | None => []
                end).
  { unfold draw_title. destruct (dc_title bk) as [text |]; [| reflexivity].
    destruct (nonempty text); [| reflexivity].
    pose proof (set_font_then_fold font_name 26
                  (draw_title_line cfg (MARGIN cfg) font_name) []
                  (page_h cfg - MARGIN cfg)
                  (wrap_cjk_aware stringWidth text
                     (page_w cfg - MARGIN cfg - MARGIN cfg) font_name 26)
                  (draw_title_line_sets (MARGIN cfg) font_name)) as H.
    destruct (fold_left _ _ _) as [c' y']. cbn [fst] in *. exact H. }
  rewrite <- Htitle.
  generalize (draw_title stringWidth cfg (MARGIN cfg)
                (page_w cfg - MARGIN cfg) font_name
                ([], page_h cfg - MARGIN cfg) (dc_title bk)).
  induction (spine bk) as [| entry entries IH]; intros st.
  - simpl. now rewrite app_nil_r.
  - simpl fold_left. rewrite IH, typeset_draw_chapter, <- app_assoc.
    reflexivity.
Qed.

End Typeset.

(** X8. Every wrapped line of a paragraph is drawn in the paragraph's
    font at its size, the lines that follow a page break included
    ([draw_paragraph] sets the font again on each new page), whatever
    font, if any, was in force before the call. *)
Theorem draw_paragraph_sets_font (font : Type)
    (stringWidth : str -> font -> Q -> Q) (cfg : layout)
    (st0 : option (font * Q)) (c : canvas font) (text : str)
    (x y right_x : Q) (font_name : font) (font_size indent_left : Q) :
  typeset st0
    (fst (draw_paragraph stringWidth cfg c text x y right_x font_name
            font_size indent_left))
  = typeset st0 c
    ++ set_in font_name font_size
         (wrap_cjk_aware stringWidth text (right_x - (x + indent_left))
            font_name font_size).
Proof.
  exact (typeset_draw_paragraph font stringWidth cfg st0 c text x y right_x
           font_name font_size indent_left).
Qed.

(** X9. [convert_epub_to_pdf] draws every wrapped line of the book
    title, of each chapter title and of each [p], [pre] and
    [blockquote] tag exactly once, in reading order, each in the user's
    font at the size it was wrapped for (26, [H1_SIZE],
    [DEFAULT_FONT_SIZE]), also right after a page break; spine entries
    that are not documents, [h1], [h2] and [h3] tags of the flow and
    images add no text. *)
Theorem convert_epub_to_pdf_sets_every_line (font : Type)
    (stringWidth : str -> font -> Q -> Q) (cfg : layout)
    (normpath_join : str -> str -> str) (bk : book) (font_name : font) :
  typeset None
    (fst (convert_epub_to_pdf stringWidth cfg normpath_join bk font_name))
  = book_typeset font stringWidth cfg bk font_name.
Proof.
  exact (typeset_convert font stringWidth cfg normpath_join None bk
           font_name).
Qed.

(** ** The whole document: every string is drawn on the page *)

Section OnPage.

Variable font : Type.
Variable stringWidth : str -> font -> Q -> Q.
Variable cfg : layout.
Variable normpath_join : str -> str -> str.

Local Abbreviation on_page' := (on_page font cfg).
Local Abbreviation paged' := (paged font cfg).

Hypothesis roomy : page_roomy cfg.

Lemma paged_fold (step : canvas font * Q -> str -> canvas font * Q)
    (lines : list str) (st : canvas font * Q) :
  (forall st line, paged' st -> paged' (step st line)) ->
  paged' st -> paged' (fold_left step lines st).
Proof.
  intros Hstep. revert st. induction lines as [| line lines IH]; intros st H;
    [exact H |].
  simpl. apply IH, Hstep, H.
Qed.

Lemma paged_command (c : canvas font) (y : Q) (cmd : command font) :
  paged' (c, y) -> on_page' cmd -> paged' (c ++ [cmd], y).
Proof.
  intros [Hc Hy] Hcmd. split; [| exact Hy]. cbn [fst].
  apply Forall_app. split; [exact Hc |]. now constructor.
Qed.

(** The common shape of the three line loops: break the page when the
    baseline [y - drop] would fall below the margin, draw at
    [y - drop], move down by [step >= 0]. *)
Lemma paged_line (c : canvas font) (y x drop step : Q) (cmds : canvas font)
    (line : str) :
  x == MARGIN cfg -> 0 <= drop -> 0 <= step -> MARGIN cfg + drop <= top cfg ->
  Forall on_page' cmds ->
  paged' (c, y) ->
  paged'
    (let '(c, y) :=
       if Qlt_bool (y - drop) (MARGIN cfg)
       then (c ++ cmds, page_h cfg - MARGIN cfg)
       else (c, y) in
     (c ++ [DrawString x (y - drop) line], y - step)).
Proof.
  intros Hx Hdrop Hstep Hroom Hcmds [Hc Hy]. cbn [fst snd] in *.
  destruct (Qlt_bool (y - drop) (MARGIN cfg)) eqn:E.
  - split; cbn [fst snd]; [| unfold top; lra].
    apply Forall_app. split; [apply Forall_app; now split |].
    constructor; [| constructor]. simpl. unfold top in *.
    repeat split; [exact Hx | lra | lra].
  - apply Qlt_bool_false in E. split; cbn [fst snd]; [| lra].
    apply Forall_app. split; [exact Hc |].
    constructor; [| constructor]. simpl.
    repeat split; [exact Hx | lra | lra].
Qed.

Lemma paged_draw_title_line (font_name : font) (st : canvas font * Q)
    (line : str) :
  paged' st -> paged' (draw_title_line cfg (MARGIN cfg) font_name st line).
Proof.
  destruct st as [c y]. intros H. unfold draw_title_line.
  destruct roomy as [H30 _].
  apply paged_line;
    [reflexivity | lra | lra | lra | repeat constructor | exact H].
Qed.

Lemma paged_draw_chapter_title_line (font_name : font)
    (st : canvas font * Q) (line : str) :
  paged' st ->
  paged' (draw_chapter_title_line cfg (MARGIN cfg) font_name st line).
Proof.
  destruct st as [c y]. intros H. unfold draw_chapter_title_line.
  destruct roomy as [_ [H26 _]]. unfold H1_SIZE in *.
  apply paged_line;
    [reflexivity | lra | lra | lra | repeat constructor | exact H].
Qed.

Lemma paged_draw_line (indent_left : Q) (font_name : font)
    (st : canvas font * Q) (line : str) :
  indent_left == 0 ->
  paged' st ->
  paged'
    (draw_line cfg (MARGIN cfg) indent_left font_name DEFAULT_FONT_SIZE
       (DEFAULT_FONT_SIZE * LINE_SPACING cfg) st line).
Proof.
  destruct st as [c y]. intros Hi H. unfold draw_line.
  destruct roomy as [_ [_ [Hl0 [Hl1 _]]]].
  apply paged_line; [lra | lra | lra | lra | repeat constructor | exact H].
Qed.

Lemma paged_draw_paragraph (c : canvas font) (y : Q) (text : str)
    (font_name : font) (indent_left : Q) :
  indent_left == 0 ->
  paged' (c, y) ->
  paged'
    (draw_paragraph stringWidth cfg c text (MARGIN cfg) y
       (page_w cfg - MARGIN cfg) font_name DEFAULT_FONT_SIZE indent_left).
Proof.
  intros Hi H. unfold draw_paragraph.
  apply paged_fold; [intros st line; now apply paged_draw_line |].
  apply paged_command; [exact H | exact I].
Qed.

Lemma paged_draw_image (c : canvas font) (y : Q) (pil_img : image)
    (font_name : font) (st' : canvas font * Q) :
  (0 <= img_w pil_img)%Z -> (0 <= img_h pil_img)%Z ->
  paged' (c, y) ->
  draw_image cfg c pil_img (MARGIN cfg) y (page_w cfg - MARGIN cfg) font_name
  = Some st' ->
  paged' st'.
Proof.
  intros Hw Hh [Hc Hy] Hdraw. cbn [fst snd] in *.
  destruct roomy as [_ [_ [_ [_ [Hwide Hcap0]]]]].
  unfold draw_image in Hdraw.
  destruct ((img_w pil_img =? 0)%Z || (img_h pil_img =? 0)%Z) eqn:Ez;
    [discriminate Hdraw |].
  apply orb_false_iff in Ez. destruct Ez as [Ew Eh].
  apply Z.eqb_neq in Ew, Eh.
  assert (Hmax : 0 <= page_w cfg - MARGIN cfg - MARGIN cfg) by lra.
  destruct (draw_h_range cfg pil_img (page_w cfg - MARGIN cfg - MARGIN cfg))
    as [Hh0 _]; try lia; try assumption.
  cbv beta iota zeta in Hdraw.
  set (draw_w := inject_Z (img_w pil_img) * _) in *.
  set (draw_h := inject_Z (img_h pil_img) * _) in *.
  destruct (Qlt_bool (y - draw_h) (MARGIN cfg));
    injection Hdraw as <-; split; cbn [fst snd].
  - apply Forall_app. split; [apply Forall_app; split; [exact Hc |] |];
      repeat constructor.
  - unfold top. lra.
  - apply Forall_app. split; [exact Hc | repeat constructor].
  - unfold top in *. lra.
Qed.

Lemma paged_draw_block (table : str -> option item) (name : str)
    (font_name : font) (st : canvas font * Q) (b : block) :
  images_ok table ->
  paged' st ->
  paged'
    (draw_block stringWidth cfg normpath_join table name (MARGIN cfg)
       (page_w cfg - MARGIN cfg) font_name st b).
Proof.
  intros Himg H. destruct st as [c y]. unfold draw_block.
  destruct (b_name b); try exact H;
    try (apply paged_draw_paragraph; [reflexivity | exact H]).
  destruct (b_src b) as [src |]; [| exact H].
  destruct (nonempty src); [| exact H].
  destruct (find_target normpath_join table name src) as [target |] eqn:Et;
    [| exact H].
  destruct (is_image target); [| exact H].
  destruct (pil target) as [pil_img |] eqn:Ep; [| exact H].
  destruct (draw_image cfg c pil_img (MARGIN cfg) y
              (page_w cfg - MARGIN cfg) font_name) as [st' |] eqn:Ed;
    [| exact H].
  assert (Hdim : (0 <= img_w pil_img)%Z /\ (0 <= img_h pil_img)%Z).
  { unfold find_target in Et. destruct (table src) as [t |] eqn:E1.
    - injection Et as ->. exact (Himg src target pil_img E1 Ep).
    - exact (Himg _ target pil_img Et Ep). }
  destruct Hdim as [Hw Hh].
  exact (paged_draw_image c y pil_img font_name st' Hw Hh H Ed).
Qed.

Lemma paged_draw_chapter (table : str -> option item) (font_name : font)
    (st : canvas font * Q) (entry : option chapter) :
  images_ok table ->
  paged' st ->
  paged'
    (draw_chapter stringWidth cfg normpath_join table (MARGIN cfg)
       (page_w cfg - MARGIN cfg) font_name st entry).
Proof.
  intros Himg H. destruct entry as [ch |]; [| exact H].
  unfold draw_chapter.
  assert (Htitle :
            paged' (draw_chapter_title stringWidth cfg (MARGIN cfg)
                      (page_w cfg - MARGIN cfg) font_name st
                      (chapter_title ch))).
  { destruct st as [c y]. unfold draw_chapter_title.
    destruct (chapter_title ch) as [text |]; [| exact H].
    assert (Hloop :
              paged'
                (fold_left
                   (draw_chapter_title_line cfg (MARGIN cfg) font_name)
                   (wrap_cjk_aware stringWidth text
                      (page_w cfg - MARGIN cfg - MARGIN cfg) font_name
                      H1_SIZE)
                   (c ++ [SetFont font_name H1_SIZE], y))).
    { apply paged_fold;
        [intros st line; apply paged_draw_chapter_title_line |].
      apply paged_command; [exact H | exact I]. }
    destruct (fold_left _ _ _) as [c' y']. destruct Hloop as [Hc Hy].
    split; cbn [fst snd] in *; [exact Hc | lra]. }
  destruct (draw_chapter_title stringWidth cfg (MARGIN cfg)
              (page_w cfg - MARGIN cfg) font_name st (chapter_title ch))
    as [c1 y1].
  assert (Hblocks : forall blocks st1,
             paged' st1 ->
             paged'
               (fold_left
                  (draw_block stringWidth cfg normpath_join table
                     (ch_name ch) (MARGIN cfg) (page_w cfg - MARGIN cfg)
                     font_name) blocks st1)).
  { induction blocks as [| b blocks IH]; intros st1 H1; [exact H1 |].
    simpl. apply IH. now apply paged_draw_block. }
  specialize (Hblocks (ch_blocks ch) (c1, y1) Htitle).
  destruct (fold_left _ (ch_blocks ch) (c1, y1)) as [c2 y2].
  destruct Hblocks as [Hc Hy]. cbn [fst snd] in *. cbv beta iota zeta.
  destruct (Qlt_bool (y2 - 4) (MARGIN cfg + 20)).
  - split; cbn [fst snd]; [| unfold top; lra].
    apply Forall_app. split; [exact Hc | repeat constructor].
  - split; cbn [fst snd]; [exact Hc | lra].
Qed.

Lemma paged_convert (bk : book) (font_name : font) :
  images_ok (href_map bk) ->
  paged' (convert_epub_to_pdf stringWidth cfg normpath_join bk font_name).
Proof.
  intros Himg. unfold convert_epub_to_pdf. cbv zeta.
  assert (Htitle :
            paged' (draw_title stringWidth cfg (MARGIN cfg)
                      (page_w cfg - MARGIN cfg) font_name
                      ([], page_h cfg - MARGIN cfg) (dc_title bk))).
  { assert (H0 : paged' ([], page_h cfg - MARGIN cfg)).
    { split; cbn [fst snd]; [constructor | unfold top; lra]. }
    unfold draw_title. destruct (dc_title bk) as [text |]; [| exact H0].
    destruct (nonempty text); [| exact H0].
    assert (Hloop :
              paged'
                (fold_left (draw_title_line cfg (MARGIN cfg) font_name)
                   (wrap_cjk_aware stringWidth text
                      (page_w cfg - MARGIN cfg - MARGIN cfg) font_name 26)
                   ([] ++ [SetFont font_name 26], page_h cfg - MARGIN cfg))).
    { apply paged_fold; [intros st line; apply paged_draw_title_line |].
      apply paged_command; [exact H0 | exact I]. }
    destruct (fold_left _ _ _) as [c' y']. destruct Hloop as [Hc Hy].
    split; cbn [fst snd] in *; [exact Hc | lra]. }
  revert Htitle.
  generalize (draw_title stringWidth cfg (MARGIN cfg)
                (page_w cfg - MARGIN cfg) font_name
                ([], page_h cfg - MARGIN cfg) (dc_title bk)).
  induction (spine bk) as [| entry entries IH]; intros st H; [exact H |].
  simpl. apply IH. now apply paged_draw_chapter.
Qed.

End OnPage.

(** X11. On a page with room for one line of each kind (30 points for a
    title line, [H1_SIZE + 6] for a chapter title line, one leading of
    the body text), with a content width and an image cap that are not
    negative and images of no negative size, every string
    [convert_epub_to_pdf] draws is drawn at the left margin with its
    baseline between the bottom margin and the top edge, whatever the
    title lines, the chapter gaps and the images did to the offset
    before it; and the offset never ends above the top edge. Nothing
    is said of where the images lie. *)
Theorem convert_epub_to_pdf_strings_on_page (font : Type)
    (stringWidth : str -> font -> Q -> Q) (cfg : layout)
    (normpath_join : str -> str -> str) (bk : book) (font_name : font) :
  page_roomy cfg -> images_ok (href_map bk) ->
  Forall (on_page font cfg)
    (fst (convert_epub_to_pdf stringWidth cfg normpath_join bk font_name))
  /\ snd (convert_epub_to_pdf stringWidth cfg normpath_join bk font_name)
     <= top cfg.
Proof.
  intros Hroomy Himg.
  exact (paged_convert font stringWidth cfg normpath_join Hroomy bk font_name
           Himg).
Qed.

Lemma convert_epub_to_pdf_strings_on_page_witness :
  Forall (on_page (char -> Q) source_layout)
    (fst (convert_epub_to_pdf font_stringWidth source_layout sample_join
            sample_book duospaced))
  /\ snd (convert_epub_to_pdf font_stringWidth source_layout sample_join
            sample_book duospaced)
     <= top source_layout.
Proof.
  apply (convert_epub_to_pdf_strings_on_page (char -> Q) font_stringWidth
           source_layout sample_join sample_book duospaced).
  - unfold page_roomy.
    repeat (split; [vm_compute; discriminate |]). vm_compute. discriminate.
  - intros key target pil_img Ht Hp. simpl in Ht. unfold sample_table in Ht.
    destruct (eqb key [99; 47; 97]%N); [| discriminate Ht].
    injection Ht as <-. injection Hp as <-. simpl. lia.
Defined.

(** ** Whitespace is a token boundary *)

Lemma tokenize_step_acc (pre tokens : list str) (buf : str)
    (last_cjk : option bool) (ch : char) :
  tokenize_step (pre ++ tokens, buf, last_cjk) ch
  = let '(tokens', buf', last') := tokenize_step (tokens, buf, last_cjk) ch in
    (pre ++ tokens', buf', last').
Proof.
  unfold tokenize_step.
  destruct (isspace (if (ch =? NBSP)%N then SPACE else ch)).
  - destruct (nonempty buf); now rewrite <- ?app_assoc.
  - destruct last_cjk as [last |]; [| reflexivity].
    destruct (negb (Bool.eqb _ last)); [now rewrite <- app_assoc |].
    destruct (is_cjk_char _); [now rewrite <- app_assoc | reflexivity].
Qed.

Lemma tokenize_fold_acc (pre : list str) (text : str) (tokens : list str)
    (buf : str) (last_cjk : option bool) :
  fold_left tokenize_step text (pre ++ tokens, buf, last_cjk)
  = let '(tokens', buf', last') :=
      fold_left tokenize_step text (tokens, buf, last_cjk) in
    (pre ++ tokens', buf', last').
Proof.
  revert tokens buf last_cjk.
  induction text as [| ch text IH]; intros tokens buf last_cjk;
    [reflexivity |].
  cbn [fold_left]. rewrite tokenize_step_acc.
  destruct (tokenize_step (tokens, buf, last_cjk) ch) as [[t b] l].
  apply IH.
Qed.

Lemma tokenize_for_wrap_split (a b : str) (c : char) :
  isspace c = true ->
  tokenize_for_wrap (a ++ c :: b)
  = tokenize_for_wrap a
    ++ [[if (c =? NBSP)%N then SPACE else c]] ++ tokenize_for_wrap b.
Proof.
  intros Hc. unfold tokenize_for_wrap.
  rewrite fold_left_app. cbn [fold_left].
  destruct (fold_left tokenize_step a ([], [], None)) as [[ta bufa] la].
  unfold tokenize_step at 2.
  assert (Hc' : isspace (if (c =? NBSP)%N then SPACE else c) = true).
  { destruct (c =? NBSP)%N; [reflexivity | exact Hc]. }
  rewrite Hc'.
  set (pre := (if nonempty bufa then ta ++ [bufa] else ta)
              ++ [[if (c =? NBSP)%N then SPACE else c]]).
  pose proof (tokenize_fold_acc pre b [] [] None) as H.
  rewrite app_nil_r in H. rewrite H.
  destruct (fold_left tokenize_step b ([], [], None)) as [[tb bufb] lb].
  unfold pre.
  destruct (nonempty bufb); now rewrite <- ?app_assoc.
Qed.

(** X13. Whitespace is a hard token boundary: the tokens of a text that
    holds a whitespace character are the tokens of what comes before
    it, the character itself as a token of its own (a non-breaking
    space as U+0020), and the tokens of what comes after it; nothing
    else in the text changes how either side is cut. *)
Theorem tokenize_for_wrap_whitespace_boundary (a b : str) (c : char) :
  isspace c = true ->
  tokenize_for_wrap (a ++ c :: b)
  = tokenize_for_wrap a
    ++ [[if (c =? NBSP)%N then SPACE else c]] ++ tokenize_for_wrap b.
Proof. exact (tokenize_for_wrap_split a b c). Qed.

Lemma tokenize_for_wrap_whitespace_boundary_witness :
  tokenize_for_wrap (t_ABC_nihongo_DEF ++ NBSP :: t_nihongo)
  = tokenize_for_wrap t_ABC_nihongo_DEF
    ++ [[SPACE]] ++ tokenize_for_wrap t_nihongo.
Proof.
  apply (tokenize_for_wrap_whitespace_boundary t_ABC_nihongo_DEF t_nihongo
           NBSP).
  reflexivity.
Defined.

(** ** A line that fits is left as it is *)

Lemma forallb_rstrip (P : char -> bool) (s : str) :
  forallb P s = true -> forallb P (rstrip s) = true.
Proof.
  destruct (rstrip_prefix s) as [t Ht]. intros H.
  rewrite Ht, forallb_app in H. apply andb_prop in H. tauto.
Qed.

Lemma rstrip_blank (s : str) : strip_is_empty s = true -> rstrip s = [].
Proof.
  unfold strip_is_empty. induction s as [| c s IH]; [reflexivity |].
  simpl. intros H. apply andb_prop in H. destruct H as [Hc Hs].
  now rewrite (IH Hs), Hc.
Qed.

Lemma nbsp_to_space_plain (s : str) :
  one_line s = true -> nbsp_to_space s = s.
Proof.
  unfold one_line, nbsp_to_space. induction s as [| c s IH]; [reflexivity |].
  simpl. intros H. apply andb_prop in H. destruct H as [Hc Hs].
  unfold plain in Hc. apply andb_prop in Hc. destruct Hc as [_ Hc].
  apply negb_true_iff in Hc. now rewrite Hc, (IH Hs).
Qed.

Lemma plain_nbsp_to_space (raw : str) :
  forallb (fun c => negb (is_linebreak c)) raw = true ->
  forallb plain (nbsp_to_space raw) = true.
Proof.
  unfold nbsp_to_space. induction raw as [| c raw IH]; [reflexivity |].
  simpl. intros H. apply andb_prop in H. destruct H as [Hc Hraw].
  rewrite (IH Hraw), andb_true_r.
  destruct (c =? NBSP)%N eqn:E; [reflexivity |].
  unfold plain. now rewrite Hc, E.
Qed.

Lemma one_line_no_linebreak (s : str) :
  one_line s = true -> forallb (fun c => negb (is_linebreak c)) s = true.
Proof.
  unfold one_line. induction s as [| c s IH]; [reflexivity |].
  simpl. intros H. apply andb_prop in H. destruct H as [Hc Hs].
  unfold plain in Hc. apply andb_prop in Hc. destruct Hc as [Hc _].
  now rewrite Hc, (IH Hs).
Qed.

(** A space that follows [cur] in a string without doubled spaces:
    [cur] does not end in a space. *)
Lemma no_double_space_mid (cur r : str) :
  no_double_space (cur ++ SPACE :: r) = true -> endswith_space cur = false.
Proof.
  induction cur as [| c cur IH]; [reflexivity |].
  simpl app.
  change (no_double_space (c :: cur ++ SPACE :: r))
    with (match cur ++ SPACE :: r with
          | [] => true
          | d :: _ => negb ((c =? SPACE)%N && (d =? SPACE)%N)
          end && no_double_space (cur ++ SPACE :: r)).
  intros H. apply andb_prop in H. destruct H as [Hc H].
  destruct cur as [| d cur].
  - simpl in Hc. rewrite andb_true_r in Hc. apply negb_true_iff in Hc.
    exact Hc.
  - change (endswith_space (c :: d :: cur)) with (endswith_space (d :: cur)).
    now apply IH.
Qed.

Section WrapChars.

Variable font : Type.
Variable stringWidth : str -> font -> Q -> Q.
Variables (max_width : Q) (font_name : font) (font_size : Q).
Variable P : char -> bool.

Local Abbreviation fits' :=
  (fits stringWidth max_width font_name font_size).
Local Abbreviation split_step' :=
  (split_step stringWidth max_width font_name font_size).
Local Abbreviation split_token' :=
  (split_token stringWidth max_width font_name font_size).
Local Abbreviation wrap_token' :=
  (wrap_token stringWidth max_width font_name font_size).
Local Abbreviation wrap_line' :=
  (wrap_line stringWidth max_width font_name font_size).

Lemma split_step_chars (st : list str * str) (ch : char) :
  P ch = true -> all_chars P st -> all_chars P (split_step' st ch).
Proof.
  destruct st as [lines piece]. intros Hch [Hl Hp]. cbn [fst snd] in *.
  unfold split_step. destruct (fits' (piece ++ [ch])); split; cbn [fst snd].
  - assumption.
  - rewrite forallb_app, Hp. simpl. now rewrite Hch.
  - destruct (nonempty piece); [| assumption]. now apply Forall_snoc.
  - simpl. now rewrite Hch.
Qed.

Lemma split_token_chars (lines : list str) (add : str) :
  forallb P add = true ->
  Forall (fun L : str => forallb P L = true) lines ->
  all_chars P (split_token' lines add).
Proof.
  intros Hadd Hl. unfold split_token.
  assert (H0 : all_chars P (lines, [])) by now split.
  revert H0. generalize (lines, @nil char).
  induction add as [| ch add IH]; intros st Hst; [exact Hst |].
  simpl in Hadd. apply andb_prop in Hadd. destruct Hadd as [Hch Hadd].
  simpl fold_left. apply (IH Hadd). now apply split_step_chars.
Qed.

Lemma wrap_token_chars (st : list str * str) (tk : str) :
  forallb P tk = true -> all_chars P st -> all_chars P (wrap_token' st tk).
Proof.
  destruct st as [lines cur]. intros Htk [Hl Hc]. cbn [fst snd] in *.
  unfold wrap_token. destruct (PyStr.eqb tk [SPACE]) eqn:Hsp.
  - apply eqb_true in Hsp. subst tk.
    destruct (nonempty cur && negb (endswith_space cur)); [| now split].
    destruct (fits' (cur ++ [SPACE])); [| now split].
    split; [assumption |]. cbn [snd]. now rewrite forallb_app, Hc.
  - destruct (PyStr.eqb cur []).
    + destruct (fits' tk); [now split | now apply split_token_chars].
    + destruct (fits' (cur ++ tk)).
      * split; [assumption |]. cbn [snd]. now rewrite forallb_app, Hc.
      * assert (Hl' : Forall (fun L : str => forallb P L = true)
                        (lines ++ [rstrip cur])).
        { apply Forall_snoc; [assumption | now apply forallb_rstrip]. }
        destruct (fits' tk); simpl negb; cbv iota;
          [now split | now apply split_token_chars].
Qed.

Lemma wrap_line_chars (lines : list str) (raw : str) :
  forallb P (nbsp_to_space raw) = true ->
  Forall (fun L : str => forallb P L = true) lines ->
  Forall (fun L : str => forallb P L = true) (wrap_line' lines raw).
Proof.
  intros Hraw Hl. unfold wrap_line.
  destruct (strip_is_empty raw && negb (PyStr.eqb raw [])).
  - now apply Forall_snoc.
  - rewrite <- (tokenize_for_wrap_concat raw) in Hraw.
    apply forallb_concat in Hraw.
    assert (H : all_chars P
                  (fold_left wrap_token' (tokenize_for_wrap raw)
                     (lines, []))).
    { assert (H0 : all_chars P (lines, [])) by now split.
      revert H0. generalize (lines, @nil char).
      induction Hraw as [| tk tokens Htk _ IH]; intros st Hst;
        [exact Hst |].
      simpl. apply IH. now apply wrap_token_chars. }
    destruct (fold_left wrap_token' (tokenize_for_wrap raw) (lines, []))
      as [lines' cur].
    destruct H as [Hl' Hc]. cbn [fst snd] in *.
    apply Forall_snoc; [assumption | now apply forallb_rstrip].
Qed.

End WrapChars.

Section WrapFits.

Variable font : Type.
Variable stringWidth : str -> font -> Q -> Q.
Variables (max_width : Q) (font_name : font) (font_size : Q).

Local Abbreviation fits' :=
  (fits stringWidth max_width font_name font_size).
Local Abbreviation wrap_token' :=
  (wrap_token stringWidth max_width font_name font_size).
Local Abbreviation wrap_line' :=
  (wrap_line stringWidth max_width font_name font_size).
Local Abbreviation wrap' text :=
  (wrap_cjk_aware stringWidth text max_width font_name font_size).

Hypothesis measure_grows : widths_grow stringWidth font_name font_size.

Lemma wrap_cjk_aware_plain (text : str) :
  Forall (fun L : str => one_line L = true) (wrap' text).
Proof.
  rewrite (wrap_cjk_aware_flat_map font stringWidth max_width font_name
             font_size text).
  apply Forall_flat_map.
  pose proof (source_lines_no_linebreak text) as H.
  induction H as [| raw raws Hraw _ IH]; constructor; [| exact IH].
  apply wrap_line_chars; [now apply plain_nbsp_to_space | constructor].
Qed.

(** When all that is left fits behind [cur], the loop packs it on the
    open line. *)
Lemma wrap_fold_fits (tokens : list str) (cur : str) :
  spaces_single (cur ++ concat tokens) ->
  fits' (cur ++ concat tokens) = true ->
  fold_left wrap_token' tokens ([], cur) = ([], cur ++ concat tokens).
Proof.
  revert cur. induction tokens as [| tk tokens IH]; intros cur Hs Hf.
  - simpl. now rewrite app_nil_r.
  - simpl concat in *. cbn [fold_left].
    assert (Hstep : wrap_token' ([], cur) tk = ([], cur ++ tk)).
    { rewrite app_assoc in Hf.
      pose proof (fits_prefix font stringWidth max_width font_name font_size
                    measure_grows _ _ Hf) as Hfit.
      destruct (PyStr.eqb tk [SPACE]) eqn:Hsp.
      - apply eqb_true in Hsp. subst tk. destruct Hs as [Hs Hd].
        unfold wrap_token. change (PyStr.eqb [SPACE] [SPACE]) with true.
        cbv iota.
        assert (Hne : nonempty cur = true)
          by (destruct cur; [discriminate Hs | reflexivity]).
        rewrite Hne, (no_double_space_mid cur (concat tokens) Hd).
        simpl andb. cbv iota. now rewrite Hfit.
      - destruct (PyStr.eqb cur []) eqn:Hc.
        + apply eqb_true in Hc. subst cur.
          now apply (wrap_token_first font stringWidth max_width font_name
                       font_size).
        + now apply (wrap_token_append font stringWidth max_width font_name
                       font_size). }
    rewrite Hstep, IH, <- app_assoc; [reflexivity | |];
      now rewrite <- app_assoc.
Qed.

Lemma wrap_fitting_line (text : str) :
  one_line text = true -> line_tidy text -> fits' text = true ->
  wrap' text = [text].
Proof.
  intros Hone [Hr Hs] Hf.
  rewrite (wrap_one_line font stringWidth max_width font_name font_size text
             (one_line_no_linebreak text Hone)).
  unfold wrap_line.
  assert (Hblank : strip_is_empty text && negb (PyStr.eqb text []) = false).
  { destruct (strip_is_empty text) eqn:E; [| reflexivity].
    apply rstrip_blank in E. rewrite Hr in E. now subst text. }
  rewrite Hblank.
  pose proof (tokenize_for_wrap_concat text) as Hcat.
  rewrite (nbsp_to_space_plain text Hone) in Hcat.
  rewrite (wrap_fold_fits (tokenize_for_wrap text) []);
    simpl app; rewrite Hcat; [| assumption | assumption].
  now rewrite Hr.
Qed.

Lemma wrap_own_line (text L : str) :
  In L (wrap' text) -> wrap' L = [L].
Proof.
  intros HL.
  pose proof (wrap_cjk_aware_plain text) as Hplain.
  pose proof (wrap_cjk_aware_tidy font stringWidth max_width font_name
                font_size text) as Htidy.
  pose proof (wrap_cjk_aware_lines_bound font stringWidth max_width font_name
                font_size measure_grows text) as Hbound.
  rewrite Forall_forall in Hplain, Htidy, Hbound.
  specialize (Hplain L HL). specialize (Htidy L HL).
  destruct (Hbound L HL) as [[Hfit | [Hlen Hwide]] | [-> _]].
  - apply wrap_fitting_line; try assumption.
    now apply (fits_iff font stringWidth max_width font_name font_size).
  - destruct L as [| c [| d L]]; try discriminate Hlen.
    destruct Htidy as [Hr _]. simpl in Hr.
    destruct (isspace c) eqn:Hc; [discriminate Hr |].
    apply (wrap_single_overwide font stringWidth max_width font_name
             font_size c Hc).
    destruct (fits' [c]) eqn:E; [| reflexivity].
    apply (fits_iff font stringWidth max_width font_name font_size) in E.
    lra.
  - reflexivity.
Qed.

End WrapFits.

(** X14. A line that fits is left as it is: for widths that grow with
    the text, a text of one line (no line boundary, no non-breaking
    space) that has no trailing whitespace, does not start with U+0020,
    holds no doubled U+0020 and measures at most the maximum width is
    returned as the only line, unchanged, tabs and ideographic spaces
    included. *)
Theorem wrap_cjk_aware_fitting_line (font : Type)
    (stringWidth : str -> font -> Q -> Q) (max_width : Q) (font_name : font)
    (font_size : Q) (text : str) :
  widths_grow stringWidth font_name font_size ->
  one_line text = true -> line_tidy text ->
  stringWidth text font_name font_size <= max_width ->
  wrap_cjk_aware stringWidth text max_width font_name font_size = [text].
Proof.
  intros Hgrow Hone Htidy Hfit.
  apply (wrap_fitting_line font stringWidth max_width font_name font_size
           Hgrow text Hone Htidy).
  now apply (fits_iff font stringWidth max_width font_name font_size).
Qed.

Lemma wrap_cjk_aware_fitting_line_witness :
  wrap_cjk_aware font_stringWidth t_ABC_nihongo 100 duospaced 20
  = [t_ABC_nihongo].
Proof.
  apply (wrap_cjk_aware_fitting_line (char -> Q) font_stringWidth 100
           duospaced 20 t_ABC_nihongo).
  - exact duospaced_grows.
  - reflexivity.
  - split; [reflexivity | split; reflexivity].
  - vm_compute. discriminate.
Defined.

(** X15. Wrapping is idempotent on its own lines: for widths that grow
    with the text, every line returned by [wrap_cjk_aware] for a
    maximum width comes back as the only line, unchanged, when it is
    wrapped again for that width. *)
Theorem wrap_cjk_aware_rewraps_own_lines (font : Type)
    (stringWidth : str -> font -> Q -> Q) (max_width : Q) (font_name : font)
    (font_size : Q) (text L : str) :
  widths_grow stringWidth font_name font_size ->
  In L (wrap_cjk_aware stringWidth text max_width font_name font_size) ->
  wrap_cjk_aware stringWidth L max_width font_name font_size = [L].
Proof.
  intros Hgrow.
  exact (wrap_own_line font stringWidth max_width font_name font_size Hgrow
           text L).
Qed.

Lemma wrap_cjk_aware_rewraps_own_lines_witness :
  wrap_cjk_aware font_stringWidth (t_ABC ++ [c_ni; c_hon]) 80 duospaced 20
  = [t_ABC ++ [c_ni; c_hon]].
Proof.
  apply (wrap_cjk_aware_rewraps_own_lines (char -> Q) font_stringWidth 80
           duospaced 20 t_ABC_nihongo_DEF (t_ABC ++ [c_ni; c_hon])).
  - exact duospaced_grows.
  - left. reflexivity.
Defined.

(** ** The whole document: every string between the margins *)

Section Within.

Variable font : Type.
Variable stringWidth : str -> font -> Q -> Q.
Variable cfg : layout.
Variable normpath_join : str -> str -> str.
Variable font_name : font.

Hypothesis grows_title : widths_grow stringWidth font_name 26.
Hypothesis grows_h1 : widths_grow stringWidth font_name H1_SIZE.
Hypothesis grows_body : widths_grow stringWidth font_name DEFAULT_FONT_SIZE.
Hypothesis wide : 0 <= content_width cfg.

Lemma width_bound_eq (w w' font_size : Q) (L : str) :
  w == w' ->
  width_bound stringWidth w font_name font_size L ->
  width_bound stringWidth w' font_name font_size L.
Proof.
  intros E [H | [Hlen H]]; [left | right; split; [exact Hlen |]]; lra.
Qed.

Lemma set_in_within (font_size : Q) (lines : list str) :
  Forall (width_bound stringWidth (content_width cfg) font_name font_size)
    lines ->
  Forall (set_within stringWidth (content_width cfg))
    (set_in font_name font_size lines).
Proof.
  intros H. unfold set_in. apply Forall_map.
  apply (Forall_impl _ (P := width_bound stringWidth (content_width cfg)
                               font_name font_size)); [| exact H].
  intros L HL. exact HL.
Qed.

Lemma title_lines_within (bk : book) :
  Forall (width_bound stringWidth (content_width cfg) font_name 26)
    (title_lines font stringWidth cfg bk font_name).
Proof.
  unfold title_lines. destruct (dc_title bk) as [text |]; [| constructor].
  destruct (nonempty text); [| constructor].
  now apply wrap_cjk_aware_bound_nonneg.
Qed.

Lemma chapter_title_lines_within (ch : chapter) :
  Forall (width_bound stringWidth (content_width cfg) font_name H1_SIZE)
    (chapter_title_lines font stringWidth cfg ch font_name).
Proof.
  unfold chapter_title_lines.
  destruct (chapter_title ch) as [text |]; [| constructor].
  now apply wrap_cjk_aware_bound_nonneg.
Qed.

Lemma block_lines_within (b : block) :
  Forall
    (width_bound stringWidth (content_width cfg) font_name DEFAULT_FONT_SIZE)
    (block_lines font stringWidth cfg font_name b).
Proof.
  unfold block_lines.
  assert (H : forall indent : Q,
             indent == 0 ->
             Forall
               (width_bound stringWidth (content_width cfg) font_name
                  DEFAULT_FONT_SIZE)
               (wrap_cjk_aware stringWidth (b_text b)
                  (page_w cfg - MARGIN cfg - (MARGIN cfg + indent)) font_name
                  DEFAULT_FONT_SIZE)).
  { intros indent Hi.
    assert (E : page_w cfg - MARGIN cfg - (MARGIN cfg + indent)
                == content_width cfg) by (unfold content_width; lra).
    apply (Forall_impl _ (P := width_bound stringWidth
                                 (page_w cfg - MARGIN cfg
                                  - (MARGIN cfg + indent))
                                 font_name DEFAULT_FONT_SIZE)).
    - intros L. now apply width_bound_eq.
    - apply wrap_cjk_aware_bound_nonneg; [exact grows_body | lra]. }
  destruct (b_name b); try constructor; apply H; reflexivity.
Qed.

Lemma book_typeset_within (bk : book) :
  Forall (set_within stringWidth (content_width cfg))
    (book_typeset font stringWidth cfg bk font_name).
Proof.
  unfold book_typeset. apply Forall_app. split.
  - apply set_in_within, title_lines_within.
  - apply Forall_flat_map, Forall_forall. intros entry _.
    destruct entry as [ch |]; [| constructor].
    unfold chapter_typeset. apply Forall_app. split.
    + apply set_in_within, chapter_title_lines_within.
    + apply set_in_within, Forall_flat_map, Forall_forall.
      intros b _. apply block_lines_within.
Qed.

Lemma typeset_convert_within (bk : book) :
  Forall (set_within stringWidth (content_width cfg))
    (typeset None
       (fst (convert_epub_to_pdf stringWidth cfg normpath_join bk
               font_name))).
Proof.
  rewrite (typeset_convert font stringWidth cfg normpath_join None bk
             font_name).
  apply book_typeset_within.
Qed.

End Within.

(** X16. No string runs past the right margin: in a font whose widths
    grow with the text at the three sizes of the document (26,
    [H1_SIZE], [DEFAULT_FONT_SIZE]) and on a page whose content width
    is not negative, every string [convert_epub_to_pdf] draws is drawn
    with the user's font set, and measured in the font and size in
    force it is at most the content width, unless it is a single
    character wider than the content width. *)
Theorem convert_epub_to_pdf_strings_within_margins (font : Type)
    (stringWidth : str -> font -> Q -> Q) (cfg : layout)
    (normpath_join : str -> str -> str) (bk : book) (font_name : font) :
  widths_grow stringWidth font_name 26 ->
  widths_grow stringWidth font_name H1_SIZE ->
  widths_grow stringWidth font_name DEFAULT_FONT_SIZE ->
  0 <= content_width cfg ->
  Forall (set_within stringWidth (content_width cfg))
    (typeset None
       (fst (convert_epub_to_pdf stringWidth cfg normpath_join bk
               font_name))).
Proof.
  intros H26 Hh1 Hbody Hwide.
  exact (typeset_convert_within font stringWidth cfg normpath_join font_name
           H26 Hh1 Hbody Hwide bk).
Qed.

Lemma convert_epub_to_pdf_strings_within_margins_witness :
  Forall (set_within font_stringWidth (content_width source_layout))
    (typeset None
       (fst (convert_epub_to_pdf font_stringWidth source_layout sample_join
               sample_book duospaced))).
Proof.
  apply (convert_epub_to_pdf_strings_within_margins (char -> Q)
           font_stringWidth source_layout sample_join sample_book duospaced).
  - apply font_stringWidth_grows; [exact duospaced_nonneg |].
    vm_compute. discriminate.
  - apply font_stringWidth_grows; [exact duospaced_nonneg |].
    vm_compute. discriminate.
  - apply font_stringWidth_grows; [exact duospaced_nonneg |].
    vm_compute. discriminate.
  - vm_compute. discriminate.
Defined.

(** ** The width bound, for every width function *)

Lemma token_rstrip (tk : str) :
  token_shape tk -> rstrip tk = tk \/ rstrip tk = [].
Proof.
  intros [[c [-> _]] | Hrun].
  - simpl. destruct (isspace c); [now right | now left].
  - left. unfold is_run in Hrun. apply andb_prop in Hrun.
    destruct Hrun as [_ H]. now apply rstrip_all_visible, ordinary_visible.
Qed.

Lemma token_nonempty (tk : str) : token_shape tk -> tk <> [].
Proof.
  intros [[c [-> _]] | Hrun]; [discriminate |].
  unfold is_run in Hrun. apply andb_prop in Hrun. destruct Hrun as [H _].
  now apply nonempty_true.
Qed.

(** Appending a token to [cur] and stripping: all of it stays, or the
    token goes and [cur] is stripped. *)
Lemma rstrip_app_token (cur tk : str) :
  token_shape tk ->
  rstrip (cur ++ tk) = cur ++ tk \/ rstrip (cur ++ tk) = rstrip cur.
Proof.
  intros Hshape. rewrite rstrip_app.
  destruct (token_rstrip tk Hshape) as [E | E]; rewrite E.
  - left. pose proof (token_nonempty tk Hshape). now destruct tk.
  - now right.
Qed.

Section WidthBoundAny.

Variable font : Type.
Variable stringWidth : str -> font -> Q -> Q.
Variables (max_width : Q) (font_name : font) (font_size : Q).

Local Abbreviation measure s := (stringWidth s font_name font_size).
Local Abbreviation fits' :=
  (fits stringWidth max_width font_name font_size).
Local Abbreviation split_step' :=
  (split_step stringWidth max_width font_name font_size).
Local Abbreviation split_token' :=
  (split_token stringWidth max_width font_name font_size).
Local Abbreviation wrap_token' :=
  (wrap_token stringWidth max_width font_name font_size).
Local Abbreviation wrap_line' :=
  (wrap_line stringWidth max_width font_name font_size).
Local Abbreviation bound :=
  (width_bound stringWidth max_width font_name font_size).
Local Abbreviation bound_or_empty :=
  (width_bound_or_empty stringWidth max_width font_name font_size).
Local Abbreviation open_ok' :=
  (open_ok font stringWidth max_width font_name font_size).
Local Abbreviation trim_ok' :=
  (trim_ok stringWidth max_width font_name font_size).

Lemma fits_bound (s : str) : fits' s = true -> bound s.
Proof.
  intros H. left.
  now apply (fits_iff font stringWidth max_width font_name font_size).
Qed.

Lemma empty_bound : bound_or_empty [].
Proof.
  destruct (fits' []) eqn:E.
  - left. now apply fits_bound.
  - right. split; [reflexivity |].
    now apply (fits_false font stringWidth max_width font_name font_size).
Qed.

(** An open line that fits or is at most one character obeys the
    bound as it is. *)
Lemma open_bound (s : str) : open_ok' s -> bound_or_empty s.
Proof.
  intros H. destruct s as [| c s]; [apply empty_bound |].
  left.
  apply (open_ok_flush font stringWidth max_width font_name font_size);
    [exact H | discriminate].
Qed.

Lemma split_step_bound (st : list str * str) (ch : char) :
  Forall bound_or_empty (fst st) -> open_ok' (snd st) ->
  Forall bound_or_empty (fst (split_step' st ch))
  /\ open_ok' (snd (split_step' st ch)).
Proof.
  destruct st as [lines piece]. cbn [fst snd]. intros Hl Hp.
  unfold split_step. destruct (fits' (piece ++ [ch])) eqn:Hf; cbn [fst snd].
  - split; [assumption | now left].
  - split; [| right; simpl; lia].
    destruct (nonempty piece); [| assumption].
    apply Forall_snoc; [assumption | now apply open_bound].
Qed.

Lemma split_token_bound (lines : list str) (add : str) :
  Forall bound_or_empty lines ->
  Forall bound_or_empty (fst (split_token' lines add))
  /\ open_ok' (snd (split_token' lines add)).
Proof.
  intros Hl. unfold split_token.
  assert (H : forall st,
             Forall bound_or_empty (fst st) -> open_ok' (snd st) ->
             Forall bound_or_empty (fst (fold_left split_step' add st))
             /\ open_ok' (snd (fold_left split_step' add st))).
  { induction add as [| ch add IH]; intros st H1 H2; [now split |].
    simpl fold_left. destruct (split_step_bound st ch H1 H2) as [H1' H2'].
    now apply IH. }
  apply H; [exact Hl | right; simpl; lia].
Qed.

(** The last piece of a split token, stripped, obeys the bound: a
    token of one character leaves that character, a run leaves a piece
    without whitespace. *)
Lemma split_token_trim (lines : list str) (add : str) :
  token_shape add -> Forall bound_or_empty lines ->
  trim_ok' (split_token' lines add).
Proof.
  intros Hshape Hl.
  destruct (split_token_bound lines add Hl) as [H1 H2].
  split; [exact H1 |].
  destruct Hshape as [[c [-> _]] | Hrun].
  - rewrite (split_token_single font stringWidth max_width font_name
               font_size). cbn [snd].
    simpl. destruct (isspace c); [apply empty_bound |].
    apply open_bound. right. simpl. lia.
  - unfold is_run in Hrun. apply andb_prop in Hrun. destruct Hrun as [_ H].
    destruct (split_token_tidy font stringWidth max_width font_name font_size
                [] add (ordinary_visible add H) (Forall_nil _)) as [_ Hvis].
    assert (E : snd (split_token' lines add) = snd (split_token' [] add)).
    { pose proof (split_token_acc font stringWidth max_width font_name
                    font_size lines [] add) as Hacc.
      rewrite app_nil_r in Hacc. now rewrite Hacc. }
    rewrite E in *. rewrite (rstrip_all_visible _ Hvis).
    now apply open_bound.
Qed.

Lemma wrap_token_trim (st : list str * str) (tk : str) :
  token_shape tk -> trim_ok' st -> trim_ok' (wrap_token' st tk).
Proof.
  destruct st as [lines cur]. intros Hshape [Hl Hc]. cbn [fst snd] in *.
  unfold wrap_token. destruct (PyStr.eqb tk [SPACE]) eqn:Hsp.
  - destruct (nonempty cur && negb (endswith_space cur)); [| now split].
    destruct (fits' (cur ++ [SPACE])); [| now split].
    split; [assumption |]. cbn [snd]. rewrite rstrip_app. exact Hc.
  - destruct (PyStr.eqb cur []) eqn:Hcur.
    + destruct (fits' tk) eqn:Hf; [| now apply split_token_trim].
      split; [assumption |]. cbn [snd].
      destruct (token_rstrip tk Hshape) as [E | E]; rewrite E;
        [now left; apply fits_bound | apply empty_bound].
    + destruct (fits' (cur ++ tk)) eqn:Hf.
      * split; [assumption |]. cbn [snd].
        destruct (rstrip_app_token cur tk Hshape) as [E | E]; rewrite E;
          [now left; apply fits_bound | exact Hc].
      * assert (Hl' : Forall bound_or_empty (lines ++ [rstrip cur]))
          by now apply Forall_snoc.
        destruct (fits' tk) eqn:Hft; simpl negb; cbv iota;
          [| now apply split_token_trim].
        split; [assumption |]. cbn [snd].
        destruct (token_rstrip tk Hshape) as [E | E]; rewrite E;
          [now left; apply fits_bound | apply empty_bound].
Qed.

Lemma wrap_line_bound (lines : list str) (raw : str) :
  Forall bound_or_empty lines -> Forall bound_or_empty (wrap_line' lines raw).
Proof.
  intros Hl. unfold wrap_line.
  destruct (strip_is_empty raw && negb (PyStr.eqb raw [])).
  - apply Forall_snoc; [assumption | apply empty_bound].
  - destruct (tokenize_for_wrap_shapes raw) as [Hshape _].
    assert (H : trim_ok'
                  (fold_left wrap_token' (tokenize_for_wrap raw)
                     (lines, []))).
    { assert (H0 : trim_ok' (lines, []))
        by (split; [assumption | apply empty_bound]).
      revert H0. generalize (lines, @nil char).
      induction Hshape as [| tk tokens Htk _ IH]; intros st Hst;
        [exact Hst |].
      simpl. apply IH. now apply wrap_token_trim. }
    destruct (fold_left wrap_token' (tokenize_for_wrap raw) (lines, []))
      as [lines' cur].
    destruct H as [Hl' Hc]. cbn [fst snd] in *.
    now apply Forall_snoc.
Qed.

Lemma wrap_cjk_aware_bound_any (text : str) :
  Forall bound_or_empty
    (wrap_cjk_aware stringWidth text max_width font_name font_size).
Proof.
  unfold wrap_cjk_aware.
  match goal with
  | |- context [fold_left _ ?r _] => generalize r
  end.
  assert (H : forall raws lines,
             Forall bound_or_empty lines ->
             Forall bound_or_empty (fold_left wrap_line' raws lines)).
  { induction raws as [| raw raws IH]; intros lines Hl; [exact Hl |].
    simpl. apply IH. now apply wrap_line_bound. }
  intros raws. apply H. constructor.
Qed.

(** When the empty string measures nothing, the empty line breaks the
    bound under a negative maximum width only. *)
Lemma wrap_cjk_aware_bound_blank (text : str) :
  measure [] <= 0 ->
  Forall (width_bound_or_blank stringWidth max_width font_name font_size)
    (wrap_cjk_aware stringWidth text max_width font_name font_size)
  /\ (0 <= max_width ->
      Forall bound
        (wrap_cjk_aware stringWidth text max_width font_name font_size)).
Proof.
  intros Hzero. pose proof (wrap_cjk_aware_bound_any text) as H. split.
  - apply (Forall_impl _ (P := bound_or_empty)); [| exact H].
    intros L [HL | [-> Hneg]]; [now left |]. right. split; [reflexivity | lra].
  - intros Hpos. apply (Forall_impl _ (P := bound_or_empty)); [| exact H].
    intros L [HL | [-> Hneg]]; [exact HL | lra].
Qed.

End WidthBoundAny.

(** C1 (amended). For every width function, every line returned by
    [wrap_cjk_aware] measures at most the maximum width, except a line
    of one character that is wider than the maximum on its own, and
    except the empty line when the maximum width is below what the
    empty line measures. The empty string measures 0 in reportlab:
    then the second exception is the empty line under a negative
    maximum width, and under a maximum width that is not negative
    every line obeys the bound with the first exception alone. *)
Theorem wrap_cjk_aware_width_bound (font : Type)
    (stringWidth : str -> font -> Q -> Q) (text : str) (max_width : Q)
    (font_name : font) (font_size : Q) :
  Forall (width_bound_or_empty stringWidth max_width font_name font_size)
    (wrap_cjk_aware stringWidth text max_width font_name font_size)
  /\ (stringWidth [] font_name font_size <= 0 ->
      Forall (width_bound_or_blank stringWidth max_width font_name font_size)
        (wrap_cjk_aware stringWidth text max_width font_name font_size)
      /\ (0 <= max_width ->
          Forall (width_bound stringWidth max_width font_name font_size)
            (wrap_cjk_aware stringWidth text max_width font_name
               font_size))).
Proof.
  split.
  - exact (wrap_cjk_aware_bound_any font stringWidth max_width font_name
             font_size text).
  - exact (wrap_cjk_aware_bound_blank font stringWidth max_width font_name
             font_size text).
Qed.

Lemma wrap_cjk_aware_width_bound_witness :
  Forall (width_bound font_stringWidth 100 duospaced 20)
    (wrap_cjk_aware font_stringWidth t_ABC_nihongo_DEF 100 duospaced 20).
Proof.
  apply (wrap_cjk_aware_width_bound (char -> Q) font_stringWidth
           t_ABC_nihongo_DEF 100 duospaced 20).
  - vm_compute. discriminate.
  - vm_compute. discriminate.
Defined.
